(** * zq: sort comparator, stable sort, batches, stream functions, log ingest

    A shallow embedding of the parts of the zq repository that the
    specification's claims are about:

    - [streamfn/uint64.go]  (module [Streamfn]),
    - [pkg/zson/array.go]   (module [Zson]),
    - [expr/sort.go]        (modules [Expr] and [GoSort]),
    - [zqd/ingest] log ingest (module [Ingest]).

    Go integers are modelled as [Z] (indices of slices as [nat] where the
    code only walks a slice), byte slices as [list byte], a possibly-nil
    slice or pointer as an [option], and mutation as explicit state
    passing. *)

From Stdlib Require Import ZArith Lia Strings.Byte Floats.SpecFloat.
From Stdlib Require Import Sorting.Sorted.
From stdpp Require Import base list strings.

Local Open Scope Z_scope.

(** ** streamfn/uint64.go *)

Module Streamfn.

(** [math.MaxUint64]. *)
Definition MaxUint64 : Z := 2 ^ 64 - 1.

(** A value of Go type [uint64]. *)
Definition is_uint64 (v : Z) : Prop := 0 <= v <= MaxUint64.

(** [type Uint64 struct { State uint64; Update func(uint64) }].  The
    closure stored in [Update] reads and writes [p.State]; here it takes
    the current state and the argument and returns the new state. *)
Record Uint64 : Type := mkUint64 {
  State : Z;
  Update : Z -> Z -> Z
}.

(** The three closures of [NewUint64]. *)
Definition updateSum (state v : Z) : Z := (state + v) mod 2 ^ 64.
Definition updateMin (state v : Z) : Z := if v <? state then v else state.
Definition updateMax (state v : Z) : Z := if v >? state then v else state.

(** [func NewUint64(op string) *Uint64]; [None] is the nil pointer. *)
Definition NewUint64 (op : string) : option Uint64 :=
  if String.eqb op "Sum" then Some (mkUint64 0 updateSum)
  else if String.eqb op "Min" then Some (mkUint64 MaxUint64 updateMin)
  else if String.eqb op "Max" then Some (mkUint64 0 updateMax)
  else None.

(** One call [p.Update(v)]. *)
Definition callUpdate (p : Uint64) (v : Z) : Uint64 :=
  mkUint64 (Update p (State p) v) (Update p).

(** A finite sequence of calls [p.Update(v1); ...; p.Update(vn)]. *)
Definition updates (p : Uint64) (vs : list Z) : Uint64 :=
  fold_left callUpdate vs p.

(** The minimum of a list of [uint64] values, [MaxUint64] when empty. *)
Definition minimum (vs : list Z) : Z := fold_right Z.min MaxUint64 vs.

(** The sum of a list of values. *)
Definition total (vs : list Z) : Z := fold_right Z.add 0 vs.

(** The maximum of a list of [uint64] values, 0 when empty. *)
Definition maximum (vs : list Z) : Z := fold_right Z.max 0 vs.

End Streamfn.

(** ** pkg/zson/array.go *)

Module Zson.

Section Array.

(** The record type [Record] and [nano.Span] are opaque to [Array]. *)
Context {Record Span : Type}.

(** [type Array struct { span nano.Span; records []*Record }]. *)
Record Array : Type := NewArray' {
  span : Span;
  records : list Record
}.

(** [func NewArray(r []*Record, s nano.Span) *Array]. *)
Definition NewArray (r : list Record) (s : Span) : Array :=
  {| span := s; records := r |}.

(** [Ref] and [Unref] have an empty body: the receiver is unchanged. *)
Definition Ref (b : Array) : Array := b.
Definition Unref (b : Array) : Array := b.

Definition Length (a : Array) : Z := Z.of_nat (length (records a)).
Definition Records (a : Array) : list Record := records a.
Definition GetSpan (a : Array) : Span := span a.

(** What a call does: it returns a value or panics at run time. *)
Inductive outcome (T : Type) : Type :=
| Returns (v : T)
| Panics.
Global Arguments Returns {T} v.
Global Arguments Panics {T}.

(** [a.records[k]] in Go: a run-time panic unless [0 <= k < len]. *)
Definition index_slice (l : list Record) (k : Z) : outcome Record :=
  if k <? 0 then Panics
  else match l !! Z.to_nat k with
       | Some r => Returns r
       | None => Panics
       end.

(** [func (a *Array) Index(k int) *Record]:
    [if k < len(a.records) { return a.records[k] }; return nil]. *)
Definition Index (a : Array) (k : Z) : outcome (option Record) :=
  if k <? Z.of_nat (length (records a)) then
    match index_slice (records a) k with
    | Returns r => Returns (Some r)
    | Panics => Panics
    end
  else Returns None.

(** The reference-counting calls of the Batch contract. *)
Inductive refcall : Type := CallRef | CallUnref.

Definition runCall (a : Array) (c : refcall) : Array :=
  match c with
  | CallRef => Ref a
  | CallUnref => Unref a
  end.

Definition runCalls (a : Array) (cs : list refcall) : Array :=
  fold_left runCall cs a.

End Array.

Global Arguments Array : clear implicits.

End Zson.

(** ** Packages used by expr/sort.go *)

(** [zcode.Bytes] is a byte slice; [None] is the nil slice. *)
Module Zcode.

Definition Bytes : Type := option (list byte).

(** [a.Iter()]: an iterator is the rest of the container's bytes; a nil
    slice iterates like an empty one. *)
Definition Iter (a : Bytes) : list byte := default [] a.

(** [it.Done()]: no bytes are left. *)
Definition Done (it : list byte) : bool :=
  match it with [] => true | _ :: _ => false end.

End Zcode.

(** Go's [bytes] package. *)
Module GoBytes.

(** [bytes.Compare(a, b)]: lexicographic, with result -1, 0 or +1. *)
Fixpoint CompareList (a b : list byte) : Z :=
  match a, b with
  | [], [] => 0
  | [], _ :: _ => -1
  | _ :: _, [] => 1
  | x :: a', y :: b' =>
      if (Byte.to_N x <? Byte.to_N y)%N then -1
      else if (Byte.to_N y <? Byte.to_N x)%N then 1
      else CompareList a' b'
  end.

(** A nil slice compares like an empty slice. *)
Definition Compare (a b : Zcode.Bytes) : Z :=
  CompareList (default [] a) (default [] b).

End GoBytes.

(** Go's [net.IP] (a byte slice; [None] is nil). *)
Module GoNet.

Definition zero : byte := Byte.x00.

(** [v4InV6Prefix]: ten zero bytes, then 0xff 0xff. *)
Definition v4InV6Prefix : list byte :=
  replicate 10 zero ++ [Byte.xff; Byte.xff].

(** [func (ip IP) To16() IP]: a 4-byte address becomes the 16-byte
    IPv4-in-IPv6 form, a 16-byte address is itself, anything else nil. *)
Definition To16 (ip : list byte) : Zcode.Bytes :=
  match ip with
  | [a; b; c; d] => Some (v4InV6Prefix ++ [a; b; c; d])
  | _ => if (length ip =? 16)%nat then Some ip else None
  end.

(** Modelled from the spec: the 16-byte canonical form of an address.  An
    address of 4 bytes is put behind the IPv4-in-IPv6 prefix, an address
    of 16 bytes is canonical as it is. *)
Definition canonical16 (ip : list byte) : list byte :=
  if (length ip =? 4)%nat then v4InV6Prefix ++ ip else ip.

End GoNet.

(** Package [zng] as [expr/sort.go] sees it. *)
Module Zng.

(** Modelled from the spec: the declarations of [zng.Type] are not among
    the sources.  The sort code observes of a type only its [ID()], its
    [String()] and [zng.InnerType]: so a type carries its integer ID and
    its string form, and a container type (set of T, ordered sequence of
    T) also its element type.  [TypeOf] stands for every type without an
    inner type (primitives, records). *)
Inductive Typ : Type :=
| TypeOf (id : Z) (name : string)
| TypeSet (id : Z) (name : string) (inner : Typ)
| TypeArray (id : Z) (name : string) (elem : Typ).

Definition ID (typ : Typ) : Z :=
  match typ with
  | TypeOf id _ | TypeSet id _ _ | TypeArray id _ _ => id
  end.

Definition String (typ : Typ) : string :=
  match typ with
  | TypeOf _ name | TypeSet _ name _ | TypeArray _ name _ => name
  end.

(** [[]byte(typ.String())]. *)
Definition typeName (typ : Typ) : list byte :=
  Stdlib.Strings.String.list_byte_of_string (String typ).

(** [zng.InnerType(typ)]: the element type of a set or a sequence, else
    nil. *)
Definition InnerType (typ : Typ) : option Typ :=
  match typ with
  | TypeOf _ _ => None
  | TypeSet _ _ inner => Some inner
  | TypeArray _ _ elem => Some elem
  end.

Global Instance Typ_eq_dec : EqDecision Typ.
Proof. solve_decision. Defined.

(** Modelled from the spec: each primitive has a stable small integer ID.
    These are the constants [zng.IdBool], ... that [lookupSorter] names
    (and their neighbours); the sort code relies only on their being
    distinct. *)
Definition IdBool : Z := 0.
Definition IdByte : Z := 1.
Definition IdInt16 : Z := 2.
Definition IdUint16 : Z := 3.
Definition IdInt32 : Z := 4.
Definition IdUint32 : Z := 5.
Definition IdInt64 : Z := 6.
Definition IdUint64 : Z := 7.
Definition IdFloat64 : Z := 8.
Definition IdString : Z := 9.
Definition IdBytes : Z := 10.
Definition IdBstring : Z := 11.
Definition IdEnum : Z := 12.
Definition IdIP : Z := 13.
Definition IdPort : Z := 14.
Definition IdNet : Z := 15.
Definition IdTime : Z := 16.
Definition IdDuration : Z := 17.
Definition IdNull : Z := 18.

(** [zng.Value]: a type (a possibly-nil interface) and bytes. *)
Record Value : Type := mkValue {
  VType : option Typ;
  VBytes : Zcode.Bytes
}.

(** The decoders and the container iterator of [zng] and [zcode] are not
    among the sources; [lookupSorter] is modelled over any implementation
    of them.  A decoder returns [None] for the Go error; [IterNext it]
    is [it.Next()]: [None] for an error, else the element (nil when
    unset), its container flag and the iterator advanced past it. *)
Class Codec : Type := {
  DecodeBool : Zcode.Bytes -> option bool;
  DecodeInt : Zcode.Bytes -> option Z;
  DecodeUint : Zcode.Bytes -> option Z;
  DecodePort : Zcode.Bytes -> option Z;
  DecodeFloat64 : Zcode.Bytes -> option spec_float;
  DecodeTime : Zcode.Bytes -> option Z;
  DecodeDuration : Zcode.Bytes -> option Z;
  DecodeIP : Zcode.Bytes -> option (list byte);
  IterNext : list byte -> option (Zcode.Bytes * bool * list byte);
  IterNext_consumes : forall it v c rest,
    IterNext it = Some (v, c, rest) -> (length rest < length it)%nat
}.

End Zng.

(** ** expr/sort.go: the comparator *)

Module Expr.
Import Zcode Zng.

(** [type comparefn func(a, b zcode.Bytes) int]. *)
Definition comparefn : Type := Bytes -> Bytes -> Z.

(** [func isNull(val zng.Value) bool]. *)
Definition isNull (val : Value) : bool :=
  match VType val, VBytes val with
  | Some _, Some _ => false
  | _, _ => true
  end.

Section Sorters.

Context `{codec : Codec}.

(** The body shared by the cases of [lookupSorter] for the integer-valued
    types (int, uint, port, time, duration): decode both values, an error
    on [a] gives -1, an error on [b] gives 1, else compare the numbers. *)
Definition compareDecoded (decode : Bytes -> option Z) : comparefn :=
  fun a b =>
    match decode a with
    | None => -1
    | Some va =>
        match decode b with
        | None => 1
        | Some vb => if va <? vb then -1 else if va >? vb then 1 else 0
        end
    end.

(** Case [zng.IdBool]. *)
Definition compareBool : comparefn :=
  fun a b =>
    match DecodeBool a with
    | None => -1
    | Some va =>
        match DecodeBool b with
        | None => 1
        | Some vb => if Bool.eqb va vb then 0 else if va then 1 else -1
        end
    end.

(** Case [zng.IdFloat64]; [<] and [>] are the IEEE comparisons. *)
Definition compareFloat64 : comparefn :=
  fun a b =>
    match DecodeFloat64 a with
    | None => -1
    | Some va =>
        match DecodeFloat64 b with
        | None => 1
        | Some vb => if SFltb va vb then -1 else if SFltb vb va then 1 else 0
        end
    end.

(** Case [zng.IdIP]. *)
Definition compareIP : comparefn :=
  fun a b =>
    match DecodeIP a with
    | None => -1
    | Some va =>
        match DecodeIP b with
        | None => 1
        | Some vb => GoBytes.Compare (GoNet.To16 va) (GoNet.To16 vb)
        end
    end.

(** The [switch typ.ID()] of [lookupSorter], cases in source order. *)
Definition switchID (id : Z) : comparefn :=
  if id =? IdBool then compareBool
  else if id =? IdString then GoBytes.Compare
  else if (id =? IdInt16) || (id =? IdInt32) || (id =? IdInt64)
       then compareDecoded DecodeInt
  else if (id =? IdUint16) || (id =? IdUint32) || (id =? IdUint64)
       then compareDecoded DecodeUint
  else if id =? IdPort then compareDecoded DecodePort
  else if id =? IdFloat64 then compareFloat64
  else if id =? IdTime then compareDecoded DecodeTime
  else if id =? IdDuration then compareDecoded DecodeDuration
  else if id =? IdIP then compareIP
  else GoBytes.Compare.

(** The [for] loop of the container comparator, over the two iterators.
    Each round consumes an element of [ia], so [S (length ia)] rounds
    are enough ([fuel] only makes the recursion structural). *)
Fixpoint compareElems (fuel : nat) (compare : comparefn)
    (ia ib : list byte) : Z :=
  match fuel with
  | O => 0
  | S fuel' =>
      if Done ia then (if Done ib then 0 else -1)
      else if Done ib then 1
      else
        match IterNext ia with
        | None => -1
        | Some (va, containerA, ia') =>
            if containerA then -1
            else
              match IterNext ib with
              | None => 1
              | Some (vb, containerB, ib') =>
                  if containerB then 1
                  else
                    let v := compare va vb in
                    if negb (v =? 0) then v
                    else compareElems fuel' compare ia' ib'
              end
        end
  end.

(** The comparator [lookupSorter] returns for a type with an inner type. *)
Definition compareContainer (compare : comparefn) : comparefn :=
  fun a b => compareElems (S (length (Iter a))) compare (Iter a) (Iter b).

(** [func lookupSorter(typ zng.Type) comparefn]. *)
Fixpoint lookupSorter (typ : Typ) : comparefn :=
  match typ with
  | TypeSet _ _ innerType | TypeArray _ _ innerType =>
      compareContainer (lookupSorter innerType)
  | TypeOf id _ => switchID id
  end.

(** Whether the decoder that [switchID] picks for the type ID returns an
    error on the bytes; the cases that compare the bytes as they are
    (string, default) decode nothing. *)
Definition decodeFails (id : Z) (zv : Bytes) : bool :=
  if id =? IdBool then bool_decide (DecodeBool zv = None)
  else if id =? IdString then false
  else if (id =? IdInt16) || (id =? IdInt32) || (id =? IdInt64)
       then bool_decide (DecodeInt zv = None)
  else if (id =? IdUint16) || (id =? IdUint32) || (id =? IdUint64)
       then bool_decide (DecodeUint zv = None)
  else if id =? IdPort then bool_decide (DecodePort zv = None)
  else if id =? IdFloat64 then bool_decide (DecodeFloat64 zv = None)
  else if id =? IdTime then bool_decide (DecodeTime zv = None)
  else if id =? IdDuration then bool_decide (DecodeDuration zv = None)
  else if id =? IdIP then bool_decide (DecodeIP zv = None)
  else false.

(** The elements of a container all iterate without error, none is
    itself a container, and each satisfies [ok]. *)
Fixpoint elemsOK (fuel : nat) (ok : Bytes -> bool) (it : list byte) : bool :=
  match fuel with
  | O => true
  | S fuel' =>
      if Done it then true
      else
        match IterNext it with
        | None => false
        | Some (v, container, it') =>
            negb container && ok v && elemsOK fuel' ok it'
        end
  end.

(** A payload is well formed for its type: it decodes, and so does every
    element of a container. *)
Fixpoint wellFormed (typ : Typ) (zv : Bytes) : bool :=
  match typ with
  | TypeSet _ _ innerType | TypeArray _ _ innerType =>
      elemsOK (S (length (Iter zv))) (wellFormed innerType) (Iter zv)
  | TypeOf id _ => negb (decodeFails id zv)
  end.

(** A sort key is well formed when it is null or its payload is. *)
Definition wellFormedValue (val : Value) : bool :=
  match VType val, VBytes val with
  | Some typ, Some b => wellFormed typ (Some b)
  | _, _ => true
  end.

(** [sorters := make(map[zng.Type]comparefn)]: the memo table captured
    by the closure that [NewSortFn] returns. *)
Definition Sorters : Type := Typ -> option comparefn.

Definition noSorters : Sorters := fun _ => None.

Definition setSorter (typ : Typ) (sf : comparefn) (sorters : Sorters)
  : Sorters :=
  fun typ' => if decide (typ' = typ) then Some sf else sorters typ'.

(** [sf, ok := sorters[a.Type]; if !ok { sf = lookupSorter(a.Type);
    sorters[a.Type] = sf }]. *)
Definition getSorter (sorters : Sorters) (typ : Typ)
  : comparefn * Sorters :=
  match sorters typ with
  | Some sf => (sf, sorters)
  | None => let sf := lookupSorter typ in (sf, setSorter typ sf sorters)
  end.

Section Records.

(** [*zng.Record]; a [FieldExprResolver] maps a record to a value. *)
Context {Record : Type}.

Definition FieldExprResolver : Type := Record -> Value.

(** [type SortFn func(a *zng.Record, b *zng.Record) int]. *)
Definition SortFn : Type := Record -> Record -> Z.

(** The closure that [NewSortFn] returns also reads and updates its memo
    table: a call takes the table and returns the new one. *)
Definition SortClosure : Type := Sorters -> Record -> Record -> Z * Sorters.

(** One round of the loop over [fields]: [Some v] is [return v], [None]
    falls through to the next field. *)
Definition compareField (nullsMax : bool) (resolver : FieldExprResolver)
    (sorters : Sorters) (ra rb : Record) : option Z * Sorters :=
  let a := resolver ra in
  let b := resolver rb in
  let nullA := isNull a in
  let nullB := isNull b in
  if nullA && nullB then (None, sorters)
  else if nullA then (Some (if nullsMax then 1 else -1), sorters)
  else if nullB then (Some (if nullsMax then -1 else 1), sorters)
  else
    match VType a, VType b with
    | Some ta, Some tb =>
        if negb (ID ta =? ID tb) then
          (Some (GoBytes.Compare
                   (Some (typeName ta))
                   (Some (typeName tb))), sorters)
        else
          let '(sf, sorters') := getSorter sorters ta in
          let v := sf (VBytes a) (VBytes b) in
          if negb (v =? 0) then (Some v, sorters') else (None, sorters')
    | _, _ => (None, sorters) (* not reached: neither value is null *)
    end.

(** [func NewSortFn(nullsMax bool, fields ...FieldExprResolver) SortFn]:
    the returned closure, as a function of its memo table. *)
Fixpoint NewSortFn (nullsMax : bool) (fields : list FieldExprResolver)
  : SortClosure :=
  fun sorters ra rb =>
    match fields with
    | [] => (0, sorters)
    | resolver :: fields' =>
        match compareField nullsMax resolver sorters ra rb with
        | (Some v, sorters') => (v, sorters')
        | (None, sorters') => NewSortFn nullsMax fields' sorters' ra rb
        end
    end.

(** The memo table only ever holds what [lookupSorter] returns. *)
Definition sortersOK (sorters : Sorters) : Prop :=
  forall typ sf, sorters typ = Some sf -> sf = lookupSorter typ.

(** The result of a call of the closure, as an integer. *)
Definition compareRecords (nullsMax : bool) (fields : list FieldExprResolver)
    (sorters : Sorters) : SortFn :=
  fun ra rb => fst (NewSortFn nullsMax fields sorters ra rb).

(** The round of the loop for two values, with the comparator of the
    type taken from [lookupSorter] directly. *)
Definition compareValues (nullsMax : bool) (a b : Value) : option Z :=
  match isNull a, isNull b with
  | true, true => None
  | true, false => Some (if nullsMax then 1 else -1)
  | false, true => Some (if nullsMax then -1 else 1)
  | false, false =>
      match VType a, VType b with
      | Some ta, Some tb =>
          if negb (ID ta =? ID tb) then
            Some (GoBytes.Compare (Some (typeName ta)) (Some (typeName tb)))
          else
            let v := lookupSorter ta (VBytes a) (VBytes b) in
            if negb (v =? 0) then Some v else None
      | _, _ => None
      end
  end.

(** The two records tie on a field: the loop goes on to the next one. *)
Definition tie (nullsMax : bool) (ra rb : Record)
    (resolver : FieldExprResolver) : Prop :=
  compareValues nullsMax (resolver ra) (resolver rb) = None.

(** All sort keys of the record are null. *)
Definition allNull (fields : list FieldExprResolver) (r : Record) : bool :=
  forallb (fun resolver => isNull (resolver r)) fields.

(** Some sort key of the record is not null. *)
Definition someKey (fields : list FieldExprResolver) (r : Record) : bool :=
  negb (allNull fields r).

(** [x] may stand before [y] in a sorted output: [y] is not less. *)
Definition inOrder (sorter : SortFn) (x y : Record) : Prop :=
  ~ sorter y x < 0.

(** A sequence of calls of the closure, each on a pair of records: the
    memo table that a call leaves is the one the next call finds. *)
Fixpoint calls (closure : SortClosure) (sorters : Sorters)
    (pairs : list (Record * Record)) : list Z * Sorters :=
  match pairs with
  | [] => ([], sorters)
  | (ra, rb) :: pairs' =>
      let '(v, sorters') := closure sorters ra rb in
      let '(vs, sorters'') := calls closure sorters' pairs' in
      (v :: vs, sorters'')
  end.

(** The two values have one type when their types have one ID, as the
    types of one type context do. *)
Definition sameContext (a b : Value) : Prop :=
  forall ta tb, VType a = Some ta -> VType b = Some tb ->
    ID ta = ID tb -> ta = tb.

(** Types of the two values with different IDs print differently. *)
Definition distinctNames (a b : Value) : Prop :=
  forall ta tb, VType a = Some ta -> VType b = Some tb ->
    ID ta <> ID tb -> String ta <> String tb.

End Records.
End Sorters.

Global Arguments FieldExprResolver : clear implicits.
Global Arguments SortFn : clear implicits.

End Expr.

(** ** Go's [sort.Stable] *)

(** [expr.SortStable] hands the records to [sort.Stable] of the Go
    standard library.  The algorithm is the library's: insertion sort on
    blocks of 20 elements, then passes of in-place [symMerge] on blocks
    of doubling size.  Indices are [nat]: all of them stay within the
    slice, whose length fits an [int], so that [int(uint(i+j) >> 1)] is
    [(i + j) / 2]. *)
Module GoSort.

Local Open Scope nat_scope.

(** [sort.Interface], implemented by a value of type [D]; [Swap] returns
    the updated value. *)
Class Interface (D : Type) : Type := {
  Len : D -> nat;
  Less : D -> nat -> nat -> bool;
  Swap : D -> nat -> nat -> D
}.

Section Stable.

Context {D : Type} `{Interface D}.

(** [for j := i; j > a && data.Less(j, j-1); j-- { data.Swap(j, j-1) }]. *)
Fixpoint insertDown (data : D) (a j : nat) : D :=
  match j with
  | O => data
  | S j' =>
      if (a <? j) && Less data j j' then insertDown (Swap data j j') a j'
      else data
  end.

(** [count] rounds of [for i := ...; i < b; i++] starting at [i]. *)
Fixpoint insertionLoop (count : nat) (data : D) (a i : nat) : D :=
  match count with
  | O => data
  | S count' => insertionLoop count' (insertDown data a i) a (S i)
  end.

(** [func insertionSort(data Interface, a, b int)]. *)
Definition insertionSort (data : D) (a b : nat) : D :=
  insertionLoop (b - (a + 1)) data a (a + 1).

(** [for i := 0; i < n; i++ { data.Swap(a+i, b+i) }], [count] rounds
    from [i]. *)
Fixpoint swapRangeLoop (count : nat) (data : D) (a b i : nat) : D :=
  match count with
  | O => data
  | S count' => swapRangeLoop count' (Swap data (a + i) (b + i)) a b (S i)
  end.

(** [func swapRange(data Interface, a, b, n int)]. *)
Definition swapRange (data : D) (a b n : nat) : D :=
  swapRangeLoop n data a b 0.

(** The loop [for i != j { ... }] of [rotate]; it ends within [i + j]
    rounds, and returns the data with the final [i]. *)
Fixpoint rotateLoop (fuel : nat) (data : D) (m i j : nat) : D * nat :=
  match fuel with
  | O => (data, i)
  | S fuel' =>
      if negb (i =? j) then
        if j <? i then rotateLoop fuel' (swapRange data (m - i) m j) m (i - j) j
        else rotateLoop fuel' (swapRange data (m - i) (m + j - i) i) m i (j - i)
      else (data, i)
  end.

(** [func rotate(data Interface, a, m, b int)]. *)
Definition rotate (data : D) (a m b : nat) : D :=
  let i := m - a in
  let j := b - m in
  let '(data', i') := rotateLoop (i + j) data m i j in
  swapRange data' (m - i') m i'.

(** The binary searches of [symMerge]:
    [for i < j { h := int(uint(i+j) >> 1); if cond(h) { i = h + 1 } else
    { j = h } }]; the result is the final [i].  [j - i] rounds suffice. *)
Fixpoint searchLoop (fuel : nat) (cond : nat -> bool) (i j : nat) : nat :=
  match fuel with
  | O => i
  | S fuel' =>
      if i <? j then
        let h := (i + j) / 2 in
        if cond h then searchLoop fuel' cond (h + 1) j
        else searchLoop fuel' cond i h
      else i
  end.

Definition search (cond : nat -> bool) (i j : nat) : nat :=
  searchLoop (j - i) cond i j.

(** [for k := a; k < i-1; k++ { data.Swap(k, k+1) }], [count] rounds
    from [k]. *)
Fixpoint swapUp (count : nat) (data : D) (k : nat) : D :=
  match count with
  | O => data
  | S count' => swapUp count' (Swap data k (k + 1)) (S k)
  end.

(** [for k := m; k > i; k-- { data.Swap(k, k-1) }]. *)
Fixpoint swapDown (data : D) (i k : nat) : D :=
  match k with
  | O => data
  | S k' => if i <? k then swapDown (Swap data k k') i k' else data
  end.

(** [func symMerge(data Interface, a, m, b int)].  The recursion is on
    ranges that shrink, so [b - a] levels suffice. *)
Fixpoint symMergeRec (fuel : nat) (data : D) (a m b : nat) : D :=
  match fuel with
  | O => data
  | S fuel' =>
      if m - a =? 1 then
        let i := search (fun h => Less data h a) m b in
        swapUp (i - 1 - a) data a
      else if b - m =? 1 then
        let i := search (fun h => negb (Less data m h)) a m in
        swapDown data i m
      else
        let mid := (a + b) / 2 in
        let n := mid + m in
        let '(start, r) := if mid <? m then (n - b, mid) else (a, m) in
        let p := n - 1 in
        let start := search (fun c => negb (Less data (p - c) c)) start r in
        let end_ := n - start in
        let data :=
          if (start <? m) && (m <? end_) then rotate data start m end_
          else data in
        let data :=
          if (a <? start) && (start <? mid)
          then symMergeRec fuel' data a start mid else data in
        if (mid <? end_) && (end_ <? b)
        then symMergeRec fuel' data mid end_ b else data
  end.

Definition symMerge (data : D) (a m b : nat) : D :=
  symMergeRec (b - a) data a m b.

(** [for b <= n { insertionSort(data, a, b); a = b; b += blockSize }];
    returns the data and the final [a]. *)
Fixpoint blocksLoop (fuel : nat) (data : D) (blockSize a b n : nat)
  : D * nat :=
  match fuel with
  | O => (data, a)
  | S fuel' =>
      if b <=? n
      then blocksLoop fuel' (insertionSort data a b) blockSize b (b + blockSize) n
      else (data, a)
  end.

(** [for b <= n { symMerge(data, a, a+blockSize, b); a = b;
    b += 2 * blockSize }]; returns the data and the final [a]. *)
Fixpoint mergeLoop (fuel : nat) (data : D) (blockSize a b n : nat)
  : D * nat :=
  match fuel with
  | O => (data, a)
  | S fuel' =>
      if b <=? n
      then mergeLoop fuel' (symMerge data a (a + blockSize) b)
             blockSize b (b + 2 * blockSize) n
      else (data, a)
  end.

(** [for blockSize < n { ... blockSize *= 2 }]. *)
Fixpoint passLoop (fuel : nat) (data : D) (blockSize n : nat) : D :=
  match fuel with
  | O => data
  | S fuel' =>
      if blockSize <? n then
        let '(data, a) := mergeLoop n data blockSize 0 (2 * blockSize) n in
        let m := a + blockSize in
        let data := if m <? n then symMerge data a m n else data in
        passLoop fuel' data (blockSize * 2) n
      else data
  end.

(** [func stable(data Interface, n int)], with its [blockSize := 20] as a
    parameter. *)
Definition stableWith (blockSize : nat) (data : D) (n : nat) : D :=
  let '(data, a) := blocksLoop n data blockSize 0 blockSize n in
  let data := insertionSort data a n in
  passLoop n data blockSize n.

Definition stable (data : D) (n : nat) : D := stableWith 20 data n.

(** [func Stable(data Interface)]. *)
Definition Stable (data : D) : D := stable data (Len data).

End Stable.
End GoSort.

(** ** expr/sort.go: [SortStable] *)

Module ExprSort.

Section RecordSlice.

Context {Record : Type}.

(** [type RecordSlice struct { records []*zng.Record; sorter SortFn }]. *)
Record RecordSlice : Type := mkRecordSlice {
  records : list Record;
  sorter : Expr.SortFn Record
}.

(** [r.records[i]]; the sort only asks for indices below [Len]. *)
Definition Len (r : RecordSlice) : nat := length (records r).

(** [r.records[i], r.records[j] = r.records[j], r.records[i]]. *)
Definition Swap (r : RecordSlice) (i j : nat) : RecordSlice :=
  match records r !! i, records r !! j with
  | Some x, Some y =>
      mkRecordSlice (<[j := x]> (<[i := y]> (records r))) (sorter r)
  | _, _ => r
  end.

(** [return r.sorter(r.records[i], r.records[j]) < 0]. *)
Definition Less (r : RecordSlice) (i j : nat) : bool :=
  match records r !! i, records r !! j with
  | Some x, Some y => sorter r x y <? 0
  | _, _ => false
  end.

Global Instance RecordSlice_Interface : GoSort.Interface RecordSlice :=
  {| GoSort.Len := Len; GoSort.Less := Less; GoSort.Swap := Swap |}.

(** [func SortStable(records []*zng.Record, sorter SortFn)]: the slice
    after the call. *)
Definition SortStable (recs : list Record) (sorter : Expr.SortFn Record)
  : list Record :=
  records (GoSort.Stable (mkRecordSlice recs sorter)).

(** [sorter] orders [x] before [y]. *)
Definition less (sorter : Expr.SortFn Record) (x y : Record) : bool :=
  sorter x y <? 0.

(** The comparator is a consistent ordering, as [sort.Interface] asks of
    [Less]: a strict weak order. *)
Record StrictWeakOrder (sorter : Expr.SortFn Record) : Prop := {
  swo_irrefl : forall x, less sorter x x = false;
  swo_trans : forall x y z,
    less sorter x y = true -> less sorter y z = true -> less sorter x z = true;
  swo_incomparable : forall x y z,
    less sorter x y = false -> less sorter y z = false ->
    less sorter x z = false
}.

(** Neither record is ordered before the other. *)
Definition equivalent (sorter : Expr.SortFn Record) (x y : Record) : bool :=
  negb (less sorter x y) && negb (less sorter y x).

(** [out] is [l] sorted stably: a permutation of [l] in which no record
    is less than one before it, and in which the records equivalent to
    any given one stand in the order they have in [l]. *)
Definition StableSorted (sorter : Expr.SortFn Record)
    (l out : list Record) : Prop :=
  Permutation l out
  /\ StronglySorted (Expr.inOrder sorter) out
  /\ forall z, List.filter (equivalent sorter z) out
               = List.filter (equivalent sorter z) l.

(** The state of the slice between the passes of [stable]: [out] is [l]
    with each block of [blockSize] elements (the last one may be shorter)
    sorted stably. *)
Inductive Blocks (sorter : Expr.SortFn Record) (blockSize : nat)
  : list Record -> list Record -> Prop :=
| Blocks_last l out :
    (length l <= blockSize)%nat -> StableSorted sorter l out ->
    Blocks sorter blockSize l out
| Blocks_cons B B' l out :
    length B = blockSize -> StableSorted sorter B B' ->
    Blocks sorter blockSize l out ->
    Blocks sorter blockSize (B ++ l) (B' ++ out).

(** [func NewRecordSlice(sorter SortFn) *RecordSlice]: no records yet. *)
Definition NewRecordSlice (sorter : Expr.SortFn Record) : RecordSlice :=
  mkRecordSlice [] sorter.

(** [func (r *RecordSlice) Push(rec interface{})]:
    [r.records = append(r.records, rec.( *zng.Record))].  The argument is
    a record here, so that the type assertion holds. *)
Definition Push (r : RecordSlice) (rec : Record) : RecordSlice :=
  mkRecordSlice (records r ++ [rec]) (sorter r).

(** [func (r *RecordSlice) Pop() interface{}]:
    [rec := r.records[len(r.records)-1];
     r.records = r.records[:len(r.records)-1]; return rec].  The result
    is the record and the slice after the call. *)
Definition Pop (r : RecordSlice) : Zson.outcome (Record * RecordSlice) :=
  let n := Z.of_nat (length (records r)) in
  match Zson.index_slice (records r) (n - 1) with
  | Zson.Panics => Zson.Panics
  | Zson.Returns rec =>
      Zson.Returns
        (rec, mkRecordSlice (take (Z.to_nat (n - 1)) (records r)) (sorter r))
  end.

(** [func (r *RecordSlice) Index(i int) *zng.Record]:
    [return r.records[i]]. *)
Definition Index (r : RecordSlice) (i : Z) : Zson.outcome Record :=
  Zson.index_slice (records r) i.

(** [n] calls of [Pop]: the records they return, first call first, and
    the slice after them. *)
Fixpoint pops (n : nat) (r : RecordSlice)
  : Zson.outcome (list Record * RecordSlice) :=
  match n with
  | O => Zson.Returns ([], r)
  | S n' =>
      match Pop r with
      | Zson.Panics => Zson.Panics
      | Zson.Returns (rec, r') =>
          match pops n' r' with
          | Zson.Panics => Zson.Panics
          | Zson.Returns (recs, r'') => Zson.Returns (rec :: recs, r'')
          end
      end
  end.

(** The comparator that orders by [first] and, where [first] returns 0,
    by [second]. *)
Definition lexicographic (first second : Expr.SortFn Record)
  : Expr.SortFn Record :=
  fun x y => if first x y =? 0 then second x y else first x y.

(** The comparator returns a positive value exactly when the reversed
    comparison returns a negative one. *)
Definition Consistent (sorter : Expr.SortFn Record) : Prop :=
  forall x y, 0 < sorter x y <-> sorter y x < 0.

(** The comparator that only tells the records of a class from the
    others, which it orders before them. *)
Definition coarse (cls : Record -> bool) : Expr.SortFn Record :=
  fun x y =>
    if cls x then (if cls y then 0 else 1) else (if cls y then -1 else 0).

(** [sorter] orders every record outside the class before every record
    of the class, and none of the class before one outside it; it may
    order the records of one side in any way, consistent or not. *)
Definition Separates (sorter : Expr.SortFn Record) (cls : Record -> bool)
  : Prop :=
  forall x y, cls x = false -> cls y = true ->
    less sorter x y = true /\ less sorter y x = false.

(** [out] is [l] with the records of the class behind all the others. *)
Definition Partitioned (cls : Record -> bool) (l out : list Record) : Prop :=
  Permutation l out
  /\ StronglySorted (fun x y => less (coarse cls) y x = false) out.

(** The state of the slice between the passes of [stable], as far as the
    class goes: each block of [blockSize] elements is partitioned. *)
Inductive PartBlocks (cls : Record -> bool) (blockSize : nat)
  : list Record -> list Record -> Prop :=
| PartBlocks_last l out :
    (length l <= blockSize)%nat -> Partitioned cls l out ->
    PartBlocks cls blockSize l out
| PartBlocks_cons B B' l out :
    length B = blockSize -> Partitioned cls B B' ->
    PartBlocks cls blockSize l out ->
    PartBlocks cls blockSize (B ++ l) (B' ++ out).

End RecordSlice.

Global Arguments RecordSlice : clear implicits.

End ExprSort.

(** ** zqd/ingest: log ingest and its readers *)

Module Ingest.

(** A Go [error], by its message. *)
Definition error : Type := string.

Section Ingest.

(** [*zng.Record]; [Ts] is its timestamp. *)
Context {Record : Type} (Ts : Record -> Z).

(** What one call of [Read] returns: a record, the end of the stream
    (nil, nil) or an error. *)
Inductive ReadResult : Type :=
| ReadRec (rec : Record)
| ReadEOF
| ReadErr (err : error).

(** A [zbuf.Reader]: its name (the path, as [%s] prints it), the results
    its next calls of [Read] will give (a record or an error; end of
    stream after them), and whether [scanner.WarningReader] wraps it. *)
Record Reader : Type := mkReader {
  name : string;
  script : list (Record + error);
  warning : bool
}.

(** Modelled from the spec: [scanner.WarningReader(r, wch)] is not among
    the sources.  On a reader error a warning goes to the side channel
    and the reader is dropped: its [Read] reports the end of the stream. *)
Definition WarningReader (r : Reader) : Reader :=
  mkReader (name r) (script r) true.

(** [fmt.Sprintf("%s: %s", path, err)]. *)
Definition warningText (path : string) (err : error) : string :=
  (path ++ ": " ++ err)%string.

(** One [Read] of a reader; [wch] is the side channel of warnings. *)
Definition Read (r : Reader) (wch : list string)
  : ReadResult * Reader * list string :=
  match script r with
  | [] => (ReadEOF, r, wch)
  | inl rec :: rest => (ReadRec rec, mkReader (name r) rest (warning r), wch)
  | inr err :: rest =>
      let r' := mkReader (name r) rest (warning r) in
      if warning r then (ReadEOF, r', wch ++ [warningText (name r) err])
      else (ReadErr err, r', wch)
  end.

(** Modelled from the spec: [scanner.NewCombiner] is not among the
    sources.  The combiner merges its readers into one stream ordered by
    [ts]: it holds the next record of every reader that has not ended
    and each pull gives the smallest; a reader at its end is dropped; an
    error of a reader fails the pull. *)
Record Slot : Type := mkSlot {
  rd : Reader;
  hol : option Record;
  done : bool
}.

Definition Combiner : Type := list Slot.

Definition NewCombiner (rs : list Reader) : Combiner :=
  map (fun r => mkSlot r None false) rs.

(** Fill the empty holders, left to right; the first error stops. *)
Fixpoint fill (slots : list Slot) (wch : list string)
  : (error + list Slot) * list string :=
  match slots with
  | [] => (inr [], wch)
  | s :: slots' =>
      if done s || bool_decide (is_Some (hol s)) then
        match fill slots' wch with
        | (inr rest, wch') => (inr (s :: rest), wch')
        | (inl err, wch') => (inl err, wch')
        end
      else
        match Read (rd s) wch with
        | (ReadErr err, _, wch') => (inl err, wch')
        | (ReadEOF, r', wch') =>
            match fill slots' wch' with
            | (inr rest, wch'') => (inr (mkSlot r' None true :: rest), wch'')
            | (inl err, wch'') => (inl err, wch'')
            end
        | (ReadRec rec, r', wch') =>
            match fill slots' wch' with
            | (inr rest, wch'') =>
                (inr (mkSlot r' (Some rec) false :: rest), wch'')
            | (inl err, wch'') => (inl err, wch'')
            end
        end
  end.

(** The held record with the smallest [ts] (the first of them), taken out
    of its slot. *)
Fixpoint takeMin (slots : list Slot) : option (Record * list Slot) :=
  match slots with
  | [] => None
  | s :: slots' =>
      match hol s, takeMin slots' with
      | None, None => None
      | None, Some (rec, rest) => Some (rec, s :: rest)
      | Some rec, None => Some (rec, mkSlot (rd s) None (done s) :: slots')
      | Some rec, Some (rec', rest) =>
          if Ts rec' <? Ts rec then Some (rec', s :: rest)
          else Some (rec, mkSlot (rd s) None (done s) :: slots')
      end
  end.

(** One [Read] of the combiner. *)
Definition pull (c : Combiner) (wch : list string)
  : ReadResult * Combiner * list string :=
  match fill c wch with
  | (inl err, wch') => (ReadErr err, c, wch')
  | (inr slots, wch') =>
      match takeMin slots with
      | Some (rec, slots') => (ReadRec rec, slots', wch')
      | None => (ReadEOF, slots, wch')
      end
  end.

(** The outcome of a query over the combined stream: the records it
    read, the warnings on the side channel and the error, if it failed. *)
Record Outcome : Type := mkOutcome {
  delivered : list Record;
  warnings : list string;
  failure : option error
}.

(** Modelled from the spec: [driver.Run] is not among the sources.  The
    ingest query sorts its whole input: it reads the combined stream to
    its end, and fails with the error of a failing read. *)
Fixpoint run (fuel : nat) (c : Combiner) (out : list Record)
    (wch : list string) : Outcome :=
  match fuel with
  | O => mkOutcome out wch None
  | S fuel' =>
      match pull c wch with
      | (ReadErr err, _, wch') => mkOutcome out wch' (Some err)
      | (ReadEOF, _, wch') => mkOutcome out wch' None
      | (ReadRec rec, c', wch') => run fuel' c' (out ++ [rec]) wch'
      end
  end.

(** The records and errors that a combiner still has to read. *)
Definition pending (c : Combiner) : nat :=
  sum_list (map (fun s => length (script (rd s))
                          + (match hol s with Some _ => 1 | None => 0 end))%nat
                c).

(** [func compileLogIngest(ctx, s, rs, prog, stopErr)]: with [stopErr]
    the readers go to the combiner as they are, otherwise each is wrapped
    by [scanner.WarningReader] first ([cmd/zq] wires its readers the same
    way in [Command.Run]). *)
Definition compileLogIngest (rs : list Reader) (stopErr : bool) : Combiner :=
  if stopErr then NewCombiner rs
  else NewCombiner (map WarningReader rs).

(** [driver.Run(mux, d, ...)] on the compiled query. *)
Definition runQuery (rs : list Reader) (stopErr : bool) : Outcome :=
  let c := compileLogIngest rs stopErr in
  run (S (pending c)) c [] [].

(** What [scanner.OpenFile(zctx, path, "auto")] returns: an error, or a
    file with its reader, whether that is an [*ndjsonio.Reader], and the
    error (if any) that [configureJSONTypeReader] returns for it. *)
Record File : Type := mkFile {
  fileReader : Reader;
  isNdjson : bool;
  configureError : option error
}.

Definition OpenResult : Type := (error + File)%type.

(** [api.LogPostRequest]: the paths and the two options the loop reads. *)
Record LogPostRequest : Type := mkRequest {
  Paths : list string;
  StopErr : bool;
  hasJSONTypeConfig : bool
}.

(** The loop [for _, path := range req.Paths] of [ingestLogs]: [pipe] are
    the warnings sent on the JSON pipe, [readers] the readers opened so
    far.  The result is the error the function returns there, or the
    readers. *)
Fixpoint openLoop (OpenFile : string -> OpenResult) (req : LogPostRequest)
    (paths : list string) (pipe : list string) (readers : list Reader)
  : (error + list Reader) * list string :=
  match paths with
  | [] => (inr readers, pipe)
  | path :: paths' =>
      match OpenFile path with
      | inl err =>
          if StopErr req then (inl err, pipe)
          else openLoop OpenFile req paths'
                 (pipe ++ [warningText path err]) readers
      | inr sf =>
          if isNdjson sf && hasJSONTypeConfig req then
            match configureError sf with
            | Some err => (inl err, pipe)
            | None => openLoop OpenFile req paths' pipe
                        (readers ++ [fileReader sf])
            end
          else openLoop OpenFile req paths' pipe (readers ++ [fileReader sf])
      end
  end.

(** [ingestLogs] up to the end of [driver.Run]: the error it returns (if
    any), the warnings sent on the pipe while opening, and the outcome
    of the query when it ran.  The steps on the space's files between
    and after are not part of this model. *)
Definition ingestLogs (OpenFile : string -> OpenResult)
    (req : LogPostRequest)
  : option error * list string * option Outcome :=
  match openLoop OpenFile req (Paths req) [] [] with
  | (inl err, pipe) => (Some err, pipe, None)
  | (inr readers, pipe) =>
      let o := runQuery readers (StopErr req) in
      (failure o, pipe, Some o)
  end.

(** The records a reader gives before its first error, that error, and
    the warning it makes when wrapped. *)
Fixpoint scriptRecords (sc : list (Record + error)) : list Record :=
  match sc with
  | inl rec :: rest => rec :: scriptRecords rest
  | _ => []
  end.

Fixpoint scriptError (sc : list (Record + error)) : option error :=
  match sc with
  | [] => None
  | inl _ :: rest => scriptError rest
  | inr err :: _ => Some err
  end.

Definition readerRecords (r : Reader) : list Record :=
  scriptRecords (script r).

Definition readerError (r : Reader) : option error := scriptError (script r).

Definition readerWarning (r : Reader) : option string :=
  warningText (name r) <$> readerError r.

(** The same for a slot of the combiner: what it holds and what its
    reader still has, unless the reader was dropped. *)
Definition slotRecords (s : Slot) : list Record :=
  option_list (hol s) ++ (if done s then [] else readerRecords (rd s)).

Definition slotError (s : Slot) : option error :=
  if done s then None else readerError (rd s).

Definition slotWarning (s : Slot) : option string :=
  if done s then None else readerWarning (rd s).

(** The paths that fail to open with their errors and warnings, and the
    readers of those that open, all in the order of the paths. *)
Definition openErrors (OpenFile : string -> OpenResult)
    (paths : list string) : list error :=
  omap (fun path => match OpenFile path with
                    | inl err => Some err
                    | inr _ => None
                    end) paths.

Definition openWarnings (OpenFile : string -> OpenResult)
    (paths : list string) : list string :=
  omap (fun path => match OpenFile path with
                    | inl err => Some (warningText path err)
                    | inr _ => None
                    end) paths.

Definition openedReaders (OpenFile : string -> OpenResult)
    (paths : list string) : list Reader :=
  omap (fun path => match OpenFile path with
                    | inl _ => None
                    | inr sf => Some (fileReader sf)
                    end) paths.

(** The log of reads, to tell which error is read first: for every call
    of [Read] on a reader that has not ended, the name of the reader and
    the record or error that the reader under it returned, in the order
    of the calls.  [fillLog], [pullLog], [runLog] and [runQueryLog] are
    [fill], [pull], [run] and [runQuery] above (modelled from the spec,
    as they are) with the log as one more argument and result: each call
    of [Read] adds its entry, and nothing else changes. *)
Definition Event : Type := (string * (Record + error))%type.

Definition isError (ev : Event) : bool :=
  match ev.2 with
  | inl _ => false
  | inr _ => true
  end.

Definition readEvent (r : Reader) : list Event :=
  match script r with
  | [] => []
  | x :: _ => [(name r, x)]
  end.

Definition ReadLog (r : Reader) (wch : list string) (log : list Event)
  : ReadResult * Reader * list string * list Event :=
  (Read r wch, log ++ readEvent r).

Fixpoint fillLog (slots : list Slot) (wch : list string) (log : list Event)
  : (error + list Slot) * list string * list Event :=
  match slots with
  | [] => (inr [], wch, log)
  | s :: slots' =>
      if done s || bool_decide (is_Some (hol s)) then
        match fillLog slots' wch log with
        | (inr rest, wch', log') => (inr (s :: rest), wch', log')
        | (inl err, wch', log') => (inl err, wch', log')
        end
      else
        match ReadLog (rd s) wch log with
        | (ReadErr err, _, wch', log') => (inl err, wch', log')
        | (ReadEOF, r', wch', log') =>
            match fillLog slots' wch' log' with
            | (inr rest, wch'', log'') =>
                (inr (mkSlot r' None true :: rest), wch'', log'')
            | (inl err, wch'', log'') => (inl err, wch'', log'')
            end
        | (ReadRec rec, r', wch', log') =>
            match fillLog slots' wch' log' with
            | (inr rest, wch'', log'') =>
                (inr (mkSlot r' (Some rec) false :: rest), wch'', log'')
            | (inl err, wch'', log'') => (inl err, wch'', log'')
            end
        end
  end.

Definition pullLog (c : Combiner) (wch : list string) (log : list Event)
  : ReadResult * Combiner * list string * list Event :=
  match fillLog c wch log with
  | (inl err, wch', log') => (ReadErr err, c, wch', log')
  | (inr slots, wch', log') =>
      match takeMin slots with
      | Some (rec, slots') => (ReadRec rec, slots', wch', log')
      | None => (ReadEOF, slots, wch', log')
      end
  end.

Fixpoint runLog (fuel : nat) (c : Combiner) (out : list Record)
    (wch : list string) (log : list Event) : Outcome * list Event :=
  match fuel with
  | O => (mkOutcome out wch None, log)
  | S fuel' =>
      match pullLog c wch log with
      | (ReadErr err, _, wch', log') => (mkOutcome out wch' (Some err), log')
      | (ReadEOF, _, wch', log') => (mkOutcome out wch' None, log')
      | (ReadRec rec, c', wch', log') =>
          runLog fuel' c' (out ++ [rec]) wch' log'
      end
  end.

Definition runQueryLog (rs : list Reader) (stopErr : bool)
  : Outcome * list Event :=
  let c := compileLogIngest rs stopErr in
  runLog (S (pending c)) c [] [] [].

(** The first error of a reader, with the reader's name. *)
Definition readerFailure (r : Reader)
  : option (string * error) :=
  (fun err => (name r, err)) <$> readerError r.

Definition slotFailure (s : Slot)
  : option (string * error) :=
  if done s then None else readerFailure (rd s).

End Ingest.

(** The files of the examples: [a.log] has a record, then a bad line, then
    another record; [b.log] has one record; nothing else opens.  A record
    is its timestamp. *)
Definition exampleOpen (path : string) : OpenResult (Record := Z) :=
  if String.eqb path "a.log" then
    inr (mkFile (mkReader "a.log" [inl 1; inr "bad line"; inl 3]%string false)
           false None)
  else if String.eqb path "b.log" then
    inr (mkFile (mkReader "b.log" [inl 2] false) false None)
  else inl "no such file"%string.

Definition exampleRequest (stopErr : bool) : LogPostRequest :=
  mkRequest ["a.log"; "missing.log"; "b.log"]%string stopErr false.

(** The files of the example with a type configuration: [c.ndjson] opens
    as an ndjson reader whose type configuration fails; the other paths
    are as above. *)
Definition exampleOpenJSON (path : string) : OpenResult (Record := Z) :=
  if String.eqb path "c.ndjson" then
    inr (mkFile (mkReader "c.ndjson" [inl 4] false) true
           (Some "bad type configuration"%string))
  else exampleOpen path.

Definition exampleRequestJSON (stopErr : bool) : LogPostRequest :=
  mkRequest ["a.log"; "missing.log"; "c.ndjson"; "b.log"]%string stopErr true.

(** Two files with a bad line each: [a.log] as above, and [d.log] whose
    first line is bad. *)
Definition exampleOpenBad (path : string) : OpenResult (Record := Z) :=
  if String.eqb path "d.log" then
    inr (mkFile (mkReader "d.log" [inr "bad header"; inl 5]%string false)
           false None)
  else exampleOpen path.

Definition exampleRequestBad (stopErr : bool) : LogPostRequest :=
  mkRequest ["a.log"; "d.log"; "b.log"]%string stopErr false.

End Ingest.

(** ** cmd/zq: the input readers of the command *)

Module Zq.
Import Ingest.

Section Command.

(** [*zng.Record]. *)
Context {Record : Type}.

(** What [os.Stat(path)] gives: an error, a directory or another file. *)
Inductive StatResult : Type :=
| StatErr (err : error)
| StatDir
| StatFile.

(** The fields of [Command] that [inputReaders] reads, and what it sees
    of the world: [os.Stat], [os.Open] ([None] is success) and what
    [detector.NewReader] (or [detector.LookupReader], for a format given
    with [-i]) returns for the file at a path, with [-] for the standard
    input; the readers that the detector tries are not among the
    sources.  A reader is described as in [ingest]: whether it is an
    [*ndjsonio.Reader] and the error (if any) that
    [configureJSONTypeReader] returns for it. *)
Record Command : Type := mkCommand {
  stopErr : bool;
  hasJSONTypeConfig : bool;
  Stat : string -> StatResult;
  Open : string -> option error;
  NewReader : string -> error + File (Record := Record)
}.

(** [func fileExists(path string) bool]. *)
Definition fileExists (c : Command) (path : string) : bool :=
  if String.eqb path "-" then true
  else match Stat c path with
       | StatErr _ => false
       | StatDir => false
       | StatFile => true
       end.

(** The first part of the loop body of [inputReaders]: the error with
    which it returns before it has a file, if any. *)
Definition openInput (c : Command) (path : string) : option error :=
  if String.eqb path "-" then None
  else match Stat c path with
       | StatErr err => Some err
       | StatDir => Some "is a directory"%string
       | StatFile => Open c path
       end.

(** [namedReader{zr, path}]. *)
Definition namedReader (zr : Reader (Record := Record)) (path : string)
  : Reader (Record := Record) :=
  mkReader path (script zr) (warning zr).

(** The line that [c.errorf("%s\n", err)] writes. *)
Definition errorLine (err : error) : string :=
  String.append err (String (Ascii.ascii_of_nat 10) EmptyString).

(** [func (c *Command) inputReaders(paths []string) ([]zbuf.Reader, error)],
    as the loop over [paths]: [stderr] are the lines written by
    [c.errorf], [readers] the readers so far. *)
Fixpoint inputReaders (c : Command) (paths : list string)
    (stderr : list string) (readers : list (Reader (Record := Record)))
  : (error + list (Reader (Record := Record))) * list string :=
  match paths with
  | [] => (inr readers, stderr)
  | path :: paths' =>
      match openInput c path with
      | Some err => (inl err, stderr)
      | None =>
          match NewReader c path with
          | inl err =>
              let err := warningText path err in
              if stopErr c then (inl err, stderr)
              else inputReaders c paths' (stderr ++ [errorLine err]) readers
          | inr sf =>
              if isNdjson sf && hasJSONTypeConfig c then
                match configureError sf with
                | Some err => (inl err, stderr)
                | None => inputReaders c paths' stderr
                            (readers ++ [namedReader (fileReader sf) path])
                end
              else inputReaders c paths' stderr
                     (readers ++ [namedReader (fileReader sf) path])
          end
      end
  end.

(** The lines on stderr for the paths whose format is not detected, and
    the readers of the others. *)
Definition skippedLines (c : Command) (paths : list string) : list string :=
  omap (fun path => match NewReader c path with
                    | inl err => Some (errorLine (warningText path err))
                    | inr _ => None
                    end) paths.

Definition detectedReaders (c : Command) (paths : list string)
  : list (Reader (Record := Record)) :=
  omap (fun path => match NewReader c path with
                    | inl _ => None
                    | inr sf => Some (namedReader (fileReader sf) path)
                    end) paths.

(** The path gets through an iteration of the loop without a return: the
    file is there and opens, its format is detected unless errors are not
    to stop the command, and its type configuration (if any) succeeds. *)
Definition passes (c : Command) (path : string) : Prop :=
  openInput c path = None
  /\ match NewReader c path with
     | inl _ => stopErr c = false
     | inr sf => isNdjson sf && hasJSONTypeConfig c = true ->
                 configureError sf = None
     end.

End Command.

(** The command of the examples: [a.log] and [b.log] are the files of the
    ingest examples, [missing.log] is not there, [logs] is a directory,
    and the format of any other file is not detected. *)
Definition exampleCommand (stopErr : bool) : Command (Record := Z) :=
  mkCommand stopErr false
    (fun path => if String.eqb path "missing.log"
                 then StatErr "no such file or directory"%string
                 else if String.eqb path "logs" then StatDir else StatFile)
    (fun _ => None)
    (fun path => match exampleOpen path with
                 | inr sf => inr sf
                 | inl _ => inl "malformed input"%string
                 end).

End Zq.

(** ** zio/zeekio: the header of a zeek log *)

Module Zeekio.
Import Stdlib.Strings.Ascii.

(** [strings.IndexByte(s, c)]: the index of the first [c] in [s], or -1. *)
Fixpoint IndexByte (s : string) (c : ascii) : Z :=
  match s with
  | EmptyString => -1
  | String a s' =>
      if Ascii.eqb a c then 0
      else let i := IndexByte s' c in if i <? 0 then -1 else i + 1
  end.

(** The slices [s[:n]] and [s[n:]] of a string, for [0 <= n <= len(s)]. *)
Definition sliceTo (s : string) (n : Z) : string :=
  String.substring 0 (Z.to_nat n) s.

Definition sliceFrom (s : string) (n : Z) : string :=
  String.substring (Z.to_nat n) (String.length s - Z.to_nat n) s.

Section Parser.

(** [zng.Type], opaque to the parser. *)
Context {Typ : Type}.

(** [zng.Column]: a name and a type; the type is nil in a column that
    [make] has just created. *)
Record Column : Type := mkColumn {
  Name : string;
  ColType : option Typ
}.

(** [zctx.LookupTypeRecord], [zng.TypeString] and [zeekTypeToZng] are not
    among the sources: the parser is modelled over any of them. *)
Context (LookupTypeRecord : list Column -> Typ).
Context (TypeString : Typ).
Context (zeekTypeToZng : string -> Ingest.error + Typ).

(** [zng.NewColumn(name, typ)]. *)
Definition NewColumn (name : string) (typ : Typ) : Column :=
  mkColumn name (Some typ).

(** The fields of [Parser] (and of its [header]) that [parseFields],
    [parseTypes], [setDescriptor] and [Descriptor] read or write. *)
Record Parser : Type := mkParser {
  columns : list Column;
  Path : string;
  needfields : bool;
  needtypes : bool;
  addpath : bool;
  descriptor : option Typ
}.

(** [func NewParser(r *resolver.Context) *Parser]. *)
Definition NewParser : Parser := mkParser [] "" false false false None.

Definition ErrBadRecordDef : Ingest.error :=
  "bad types/fields definition in zeek header"%string.

(** [make([]zng.Column, n)]. *)
Definition makeColumns (n : nat) : list Column :=
  replicate n (mkColumn "" None).

(** [func (p *Parser) parseFields(fields []string) error]; it always
    returns nil. *)
Definition parseFields (p : Parser) (fields : list string) : Parser :=
  let resize := negb (length (columns p) =? length fields)%nat in
  let cols := if resize then makeColumns (length fields) else columns p in
  mkParser
    (zip_with (fun col field => mkColumn field (ColType col)) cols fields)
    (Path p) false (if resize then true else needtypes p) (addpath p) None.

(** The loop of [parseTypes]: the columns get their types up to the
    first type name that [zeekTypeToZng] rejects. *)
Fixpoint setTypes (cols : list Column) (types : list string)
  : option Ingest.error * list Column :=
  match cols, types with
  | col :: cols', name :: types' =>
      match zeekTypeToZng name with
      | inl err => (Some err, col :: cols')
      | inr typ =>
          let '(err, cols'') := setTypes cols' types' in
          (err, mkColumn (Name col) (Some typ) :: cols'')
      end
  | _, _ => (None, cols)
  end.

(** [func (p *Parser) parseTypes(types []string) error]. *)
Definition parseTypes (p : Parser) (types : list string)
  : option Ingest.error * Parser :=
  let resize := negb (length (columns p) =? length types)%nat in
  let cols := if resize then makeColumns (length types) else columns p in
  let needfields' := if resize then true else needfields p in
  match setTypes cols types with
  | (Some err, cols') =>
      (Some err,
       mkParser cols' (Path p) needfields' (needtypes p) (addpath p)
         (descriptor p))
  | (None, cols') =>
      (None, mkParser cols' (Path p) needfields' false (addpath p) None)
  end.

(** The variables of the loop of [Unflatten]. *)
Record unflattenState : Type := mkState {
  cols : list Column;
  nestedCols : list Column;
  nestedField : string;
  hasPath : bool
}.

(** The body of [for _, col := range columns]. *)
Definition unflattenStep (st : unflattenState) (col : Column)
  : unflattenState :=
  let hasPath' := hasPath st || String.eqb (Name col) "_path" in
  let dot := IndexByte (Name col) "."%char in
  let fld := if 0 <=? dot then sliceTo (Name col) dot else ""%string in
  let entering := negb (String.eqb fld (nestedField st)) in
  let cols1 :=
    if entering && (0 <? String.length (nestedField st))%nat
    then cols st ++ [NewColumn (nestedField st)
                       (LookupTypeRecord (nestedCols st))]
    else cols st in
  let nestedCols1 :=
    if entering && (0 <? String.length fld)%nat then [] else nestedCols st in
  let nestedField1 := if entering then fld else nestedField st in
  if (String.length fld =? 0)%nat
  then mkState (cols1 ++ [col]) nestedCols1 nestedField1 hasPath'
  else mkState cols1
         (nestedCols1
          ++ [mkColumn (sliceFrom (Name col) (dot + 1)) (ColType col)])
         nestedField1 hasPath'.

(** The columns so far, with the nested record that is open (if any)
    closed: what [Unflatten] does after its loop. *)
Definition closeNested (st : unflattenState) : list Column :=
  if (0 <? String.length (nestedField st))%nat
  then cols st ++ [NewColumn (nestedField st)
                     (LookupTypeRecord (nestedCols st))]
  else cols st.

(** [func Unflatten(zctx, columns []zng.Column, addPath bool)
    ([]zng.Column, bool)]. *)
Definition Unflatten (columns : list Column) (addPath : bool)
  : list Column * bool :=
  let st := fold_left unflattenStep columns (mkState [] [] "" false) in
  let cols := closeNested st in
  if addPath && negb (hasPath st)
  then (NewColumn "_path" TypeString :: cols, true)
  else (cols, false).

(** [func (p *Parser) setDescriptor() error]. *)
Definition setDescriptor (p : Parser) : option Ingest.error * Parser :=
  if (length (columns p) =? 0)%nat || needfields p || needtypes p
  then (Some ErrBadRecordDef, p)
  else
    let '(cols, addpath) :=
      Unflatten (columns p) (negb (String.eqb (Path p) "")) in
    (None,
     mkParser (columns p) (Path p) (needfields p) (needtypes p) addpath
       (Some (LookupTypeRecord cols))).

(** [func (p *Parser) Descriptor() ( *zng.TypeRecord, bool)]. *)
Definition Descriptor (p : Parser) : option Typ * bool * Parser :=
  match descriptor p with
  | Some d => (Some d, addpath p, p)
  | None =>
      match setDescriptor p with
      | (Some _, p') => (None, false, p')
      | (None, p') => (descriptor p', addpath p', p')
      end
  end.

(** The [#fields] and [#types] lines of a header: [ParseDirective] hands
    the tokens after the first to [parseFields] or [parseTypes], and
    rejects a line without such tokens. *)
Inductive Directive : Type :=
| Fields (fields : list string)
| Types (types : list string).

Definition tokens (d : Directive) : list string :=
  match d with Fields l => l | Types l => l end.

(** The parser after the directives, [None] when one of them fails. *)
Fixpoint directives (p : Parser) (ds : list Directive) : option Parser :=
  match ds with
  | [] => Some p
  | Fields fields :: ds' => directives (parseFields p fields) ds'
  | Types types :: ds' =>
      match parseTypes p types with
      | (Some _, _) => None
      | (None, p') => directives p' ds'
      end
  end.

(** The most recent [#fields] and [#types] lines. *)
Definition lastFields (ds : list Directive) : option (list string) :=
  last (omap (fun d => match d with Fields l => Some l | Types _ => None end) ds).

Definition lastTypes (ds : list Directive) : option (list string) :=
  last (omap (fun d => match d with Types l => Some l | Fields _ => None end) ds).

(** The columns of a record type, for the types that are records. *)
Context (Columns : Typ -> option (list Column)).

(** The inverse of [Unflatten]: a column of a record type stands for the
    columns of the record, with dotted names. *)
Definition flattenColumn (col : Column) : list Column :=
  match ColType col ≫= Columns with
  | Some nested =>
      map (fun c => mkColumn (Name col ++ "." ++ Name c) (ColType c)) nested
  | None => [col]
  end.

Definition flatten (columns : list Column) : list Column :=
  concat (map flattenColumn columns).

(** The columns have the types that [zeekTypeToZng] gives for the type
    names. *)
Definition typed (cs : list Column) (types : list string) : Prop :=
  Forall2 (fun col name => exists typ, zeekTypeToZng name = inr typ
                                       /\ ColType col = Some typ) cs types.

(** What the two flags say about the columns, after the directives [ds]:
    without [needfields] the names are those of the last [#fields] line,
    without [needtypes] the types those of the last [#types] line. *)
Definition headerInv (p : Parser) (ds : list Directive) : Prop :=
  (length (columns p) <> 0%nat -> needfields p = false ->
     lastFields ds = Some (map Name (columns p)))
  /\ (length (columns p) <> 0%nat -> needtypes p = false ->
        exists types, lastTypes ds = Some types /\ typed (columns p) types).

End Parser.

Global Arguments Column : clear implicits.
Global Arguments Parser : clear implicits.
Global Arguments unflattenState : clear implicits.

(** The types of the examples: primitive types by name, and record types
    with their columns. *)
#[warnings="-register-all"] Inductive ExampleType : Type :=
| Prim (name : string)
| Rec (columns : list (Column ExampleType)).

Definition exampleColumns (typ : ExampleType)
  : option (list (Column ExampleType)) :=
  match typ with
  | Prim _ => None
  | Rec columns => Some columns
  end.

Definition exampleTypeToZng (name : string) : Ingest.error + ExampleType :=
  if bool_decide (name ∈ ["time"; "addr"; "port"; "string"]%string)
  then inr (Prim name)
  else inl ("unknown type: " ++ name)%string.

(** The header of a [conn] log, flat as zeek writes it. *)
Definition exampleHeader : list (Column ExampleType) :=
  [NewColumn "ts" (Prim "time");
   NewColumn "id.orig_h" (Prim "addr");
   NewColumn "id.orig_p" (Prim "port");
   NewColumn "uid" (Prim "string")]%string.

End Zeekio.

(** ** A codec for the examples *)

(** Modelled from the spec: the decoders of [zng] and the iterator of
    [zcode] are not among the sources.  The spec has decode-primitive
    functions for each primitive type that fail with a decode error on
    truncated or malformed bytes, fixed sizes for float64 (8 bytes), port
    (16 bits) and IP addresses (4 or 16 bytes), and containers in a
    length-prefixed element encoding whose iterator yields, per element,
    the bytes, a container flag and an error.  This instance is used for
    the concrete examples only; the theorems hold for every codec. *)
Module CodecModel.
Import Zcode Zng.

Definition byteZ (b : byte) : Z := Z.of_N (Byte.to_N b).

(** An unsigned integer in little-endian bytes. *)
Fixpoint littleEndian (b : list byte) : Z :=
  match b with
  | [] => 0
  | x :: b' => byteZ x + 256 * littleEndian b'
  end.

(** Unsigned integers: at most 8 bytes. *)
Definition decodeUint (zv : Bytes) : option Z :=
  match zv with
  | None => None
  | Some b => if (length b <=? 8)%nat then Some (littleEndian b) else None
  end.

(** Signed integers: the sign is the low bit. *)
Definition decodeInt (zv : Bytes) : option Z :=
  match decodeUint zv with
  | None => None
  | Some u => Some (if Z.odd u then - (u / 2) else u / 2)
  end.

Definition decodeBool (zv : Bytes) : option bool :=
  match zv with
  | Some [x] => Some (negb (byteZ x =? 0))
  | _ => None
  end.

Definition decodePort (zv : Bytes) : option Z :=
  match zv with
  | Some [hi; lo] => Some (byteZ hi * 256 + byteZ lo)
  | _ => None
  end.

(** The IEEE 754 binary64 value of a 64-bit pattern. *)
Definition float64frombits (bits : Z) : spec_float :=
  let sign := Z.testbit bits 63 in
  let e := Z.land (Z.shiftr bits 52) 2047 in
  let m := Z.land bits (2 ^ 52 - 1) in
  if e =? 0 then
    match m with
    | Z.pos p => S754_finite sign p (-1074)
    | _ => S754_zero sign
    end
  else if e =? 2047 then
    if m =? 0 then S754_infinity sign else S754_nan
  else
    match m + 2 ^ 52 with
    | Z.pos p => S754_finite sign p (e - 1075)
    | _ => S754_zero sign
    end.

Definition decodeFloat64 (zv : Bytes) : option spec_float :=
  match zv with
  | None => None
  | Some b =>
      if (length b =? 8)%nat then Some (float64frombits (littleEndian b))
      else None
  end.

(** An address is 4 bytes (v4) or 16 bytes (v6). *)
Definition decodeIP (zv : Bytes) : option (list byte) :=
  match zv with
  | None => None
  | Some b =>
      if (length b =? 4)%nat || (length b =? 16)%nat then Some b else None
  end.

(** The length prefix: a varint of 7 bits per byte, low bits first, the
    high bit of a byte saying that another follows.  The result is the
    number and the bytes after it. *)
Fixpoint uvarint (b : list byte) (shift : Z) : option (Z * list byte) :=
  match b with
  | [] => None
  | x :: b' =>
      if byteZ x <? 128 then Some (Z.shiftl (byteZ x) shift, b')
      else
        match uvarint b' (shift + 7) with
        | Some (u, rest) =>
            Some (Z.lor (Z.shiftl (byteZ x - 128) shift) u, rest)
        | None => None
        end
  end.

(** The prefix of an element is [(length + 1) * 2 + container flag], and
    0 or 1 for an unset element. *)
Definition iterNext (it : list byte) : option (Bytes * bool * list byte) :=
  match uvarint it 0 with
  | None => None
  | Some (tag, rest) =>
      let container := Z.odd tag in
      if tag / 2 =? 0 then Some (None, container, rest)
      else
        let n := Z.to_nat (tag / 2 - 1) in
        if (n <=? length rest)%nat
        then Some (Some (take n rest), container, drop n rest)
        else None
  end.

Lemma uvarint_consumes b shift u rest :
  uvarint b shift = Some (u, rest) -> (length rest < length b)%nat.
Proof.
  revert shift u rest. induction b as [|x b IH]; intros shift u rest; simpl.
  - discriminate.
  - destruct (byteZ x <? 128).
    + intros [= _ <-]. lia.
    + destruct (uvarint b (shift + 7)) as [[u' rest']|] eqn:E; [|discriminate].
      intros [= _ <-]. apply IH in E. lia.
Qed.

Lemma iterNext_consumes it v c rest :
  iterNext it = Some (v, c, rest) -> (length rest < length it)%nat.
Proof.
  unfold iterNext.
  destruct (uvarint it 0) as [[tag rest']|] eqn:E; [|discriminate].
  apply uvarint_consumes in E.
  destruct (tag / 2 =? 0).
  - intros [= _ _ <-]. exact E.
  - destruct (Z.to_nat (tag / 2 - 1) <=? length rest')%nat; [|discriminate].
    intros [= _ _ <-]. rewrite length_drop. lia.
Qed.

Definition codec : Codec :=
  {| DecodeBool := decodeBool;
     DecodeInt := decodeInt;
     DecodeUint := decodeUint;
     DecodePort := decodePort;
     DecodeFloat64 := decodeFloat64;
     DecodeTime := decodeInt;
     DecodeDuration := decodeInt;
     DecodeIP := decodeIP;
     IterNext := iterNext;
     IterNext_consumes := iterNext_consumes |}.

(** The types of the examples. *)
Definition TypeIP : Typ := TypeOf IdIP "ip".
Definition TypeInt64 : Typ := TypeOf IdInt64 "int64".
Definition TypeString : Typ := TypeOf IdString "string".

(** A record of the examples is the list of its column values, and the
    field [column k] reads the k-th; a missing column is null. *)
Definition column (k : nat) : Expr.FieldExprResolver (list Value) :=
  fun rec => default (mkValue None None) (rec !! k).

(** Values of the examples: the address 10.0.0.1, a 3-byte payload that
    is no address, a null address, the integer 7 and the string "a". *)
Definition ip4 : Value :=
  mkValue (Some TypeIP) (Some [Byte.x0a; Byte.x00; Byte.x00; Byte.x01]).
Definition ip3 : Value :=
  mkValue (Some TypeIP) (Some [Byte.x01; Byte.x02; Byte.x03]).
Definition ipNull : Value := mkValue (Some TypeIP) None.
Definition int7 : Value := mkValue (Some TypeInt64) (Some [Byte.x0e]).
Definition strA : Value := mkValue (Some TypeString) (Some [Byte.x61]).

(** The comparator of [NewSortFn] on these records, at its first call. *)
Definition cmp (nullsMax : bool)
    (fields : list (Expr.FieldExprResolver (list Value)))
  : Expr.SortFn (list Value) :=
  @Expr.compareRecords codec (list Value) nullsMax fields Expr.noSorters.

(** The records of the spec's sort scenario, [ts], [host] and [n], and
    the comparator of [sort n] on them. *)
Definition scenario : list (Z * string * Z) :=
  [(1, "a", 3); (2, "a", 1); (3, "b", 2)]%string.

Definition byN : Expr.SortFn (Z * string * Z) :=
  fun a b => if a.2 <? b.2 then -1 else if a.2 >? b.2 then 1 else 0.

(** The comparator of [sort ts] on such records. *)
Definition byTs : Expr.SortFn (Z * string * Z) :=
  fun a b => if a.1.1 <? b.1.1 then -1 else if a.1.1 >? b.1.1 then 1 else 0.

(** Records for the null policy: two whose keys are all null, two whose
    first key fails to decode (the comparator orders each of them below
    the other), and two more with a key that is not null. *)
Definition nullScenario : list (list Value) :=
  [[ipNull; ipNull]; [ip3; int7]; [ipNull; ipNull]; [ip4; ipNull];
   [ip3; strA]; [ipNull; strA]].

End CodecModel.

(** * Theorems *)

(** ** streamfn/uint64.go *)

Module StreamfnFacts.
Import Streamfn.

Lemma updates_Min_state (s : Z) (vs : list Z) :
  State (updates (mkUint64 s updateMin) vs) = fold_left Z.min vs s.
Proof.
  revert s. induction vs as [|v vs IH]; intros s; [reflexivity|].
  unfold updates in *. simpl. unfold callUpdate at 2. simpl.
  rewrite IH. f_equal. unfold updateMin.
  destruct (Z.ltb_spec v s); lia.
Qed.

Lemma fold_left_min_le (vs : list Z) (s : Z) : fold_left Z.min vs s <= s.
Proof.
  revert s. induction vs as [|v vs IH]; intros s; simpl; [lia|].
  specialize (IH (Z.min s v)). lia.
Qed.

Lemma fold_left_min_lower (vs : list Z) (s : Z) :
  Forall (fun v => fold_left Z.min vs s <= v) vs.
Proof.
  revert s. induction vs as [|v vs IH]; intros s; simpl; constructor.
  - pose proof (fold_left_min_le vs (Z.min s v)). lia.
  - apply IH.
Qed.

Lemma fold_left_min_elem (vs : list Z) (s : Z) :
  fold_left Z.min vs s = s \/ fold_left Z.min vs s ∈ vs.
Proof.
  revert s. induction vs as [|v vs IH]; intros s; simpl; [by left|].
  destruct (IH (Z.min s v)) as [E|E].
  - rewrite E. destruct (Z.min_spec s v) as [[_ ->]|[_ ->]];
      [by left | right; constructor].
  - right. by constructor.
Qed.

Lemma fold_min_assoc (vs : list Z) (s t : Z) :
  fold_left Z.min vs (Z.min s t) = Z.min s (fold_left Z.min vs t).
Proof.
  revert s t. induction vs as [|v vs IH]; intros s t; simpl; [reflexivity|].
  rewrite <- IH. f_equal. lia.
Qed.

Lemma fold_left_min_right (vs : list Z) (s : Z) :
  fold_left Z.min vs s = fold_right Z.min s vs.
Proof.
  revert s. induction vs as [|v vs IH]; intros s; simpl; [reflexivity|].
  rewrite Z.min_comm, fold_min_assoc, IH. reflexivity.
Qed.

(** C10.  The stream function [NewUint64("Min")] exists; after any finite
    sequence of [Update] calls with uint64 values its [State] is the
    minimum of the values (it is one of them and below all of them), and
    [2^64 - 1] when there were none.  [NewUint64] returns nil exactly for
    the op strings other than "Sum", "Min" and "Max". *)
Theorem NewUint64_Min_state (vs : list Z) (op : string)
    (Hvs : Forall is_uint64 vs) :
  exists p, NewUint64 "Min" = Some p
    /\ State (updates p vs) = minimum vs
    /\ match vs with
       | [] => State (updates p vs) = 2 ^ 64 - 1
       | _ :: _ => State (updates p vs) ∈ vs
                   /\ Forall (fun v => State (updates p vs) <= v) vs
       end
    /\ (NewUint64 op = None <-> op ∉ ["Sum"; "Min"; "Max"]%string).
Proof.
  exists (mkUint64 MaxUint64 updateMin). split; [reflexivity|].
  rewrite updates_Min_state. split; [apply fold_left_min_right|]. split.
  - destruct vs as [|v vs]; [reflexivity|]. split.
    + destruct (fold_left_min_elem (v :: vs) MaxUint64) as [E|E]; [|exact E].
      pose proof (fold_left_min_lower (v :: vs) MaxUint64) as L.
      rewrite E in L. inversion L as [|? ? L1 _]; subst.
      inversion Hvs as [|? ? [_ U] _]; subst.
      assert (v = MaxUint64) as -> by lia. rewrite E. constructor.
    + apply fold_left_min_lower.
  - unfold NewUint64.
    rewrite !not_elem_of_cons.
    destruct (String.eqb_spec op "Sum") as [->|N1]; [split; [discriminate|tauto]|].
    destruct (String.eqb_spec op "Min") as [->|N2]; [split; [discriminate|tauto]|].
    destruct (String.eqb_spec op "Max") as [->|N3]; [split; [discriminate|tauto]|].
    split; [|reflexivity]. intros _. repeat split; auto. apply not_elem_of_nil.
Qed.

Lemma NewUint64_Min_state_witness :
  Forall is_uint64 [5; 3; 9]
  /\ exists p, NewUint64 "Min" = Some p
    /\ State (updates p [5; 3; 9]) = minimum [5; 3; 9]
    /\ (State (updates p [5; 3; 9]) ∈ [5; 3; 9]
        /\ Forall (fun v => State (updates p [5; 3; 9]) <= v) [5; 3; 9])
    /\ (NewUint64 "Avg" = None <-> "Avg"%string ∉ ["Sum"; "Min"; "Max"]%string).
Proof.
  assert (H : Forall is_uint64 [5; 3; 9]).
  { repeat constructor; unfold MaxUint64; lia. }
  split; [exact H|]. exact (NewUint64_Min_state [5; 3; 9] "Avg" H).
Defined.

(** *** The other two stream functions *)

Lemma updates_Sum_state (s : Z) (vs : list Z) :
  State (updates (mkUint64 s updateSum) vs)
  = (s mod 2 ^ 64 + total vs) mod 2 ^ 64
  \/ vs = [] /\ State (updates (mkUint64 s updateSum) vs) = s.
Proof.
  revert s. induction vs as [|v vs IH]; intros s; [by right|]. left.
  unfold updates in *. simpl. unfold callUpdate at 2. simpl.
  destruct (IH (updateSum s v)) as [->|[-> ->]]; unfold updateSum, total; simpl.
  - rewrite Z.mod_mod by lia. rewrite Zplus_mod_idemp_l.
    rewrite (Zplus_mod_idemp_l s). f_equal. lia.
  - rewrite Zplus_mod_idemp_l. f_equal; lia.
Qed.

Lemma updates_Max_state (s : Z) (vs : list Z) :
  State (updates (mkUint64 s updateMax) vs) = fold_left Z.max vs s.
Proof.
  revert s. induction vs as [|v vs IH]; intros s; [reflexivity|].
  unfold updates in *. simpl. unfold callUpdate at 2. simpl.
  rewrite IH. f_equal. unfold updateMax.
  destruct (Z.gtb_spec v s); lia.
Qed.

Lemma fold_left_max_ge (vs : list Z) (s : Z) : s <= fold_left Z.max vs s.
Proof.
  revert s. induction vs as [|v vs IH]; intros s; simpl; [lia|].
  specialize (IH (Z.max s v)). lia.
Qed.

Lemma fold_left_max_upper (vs : list Z) (s : Z) :
  Forall (fun v => v <= fold_left Z.max vs s) vs.
Proof.
  revert s. induction vs as [|v vs IH]; intros s; simpl; constructor.
  - pose proof (fold_left_max_ge vs (Z.max s v)). lia.
  - apply IH.
Qed.

Lemma fold_left_max_elem (vs : list Z) (s : Z) :
  fold_left Z.max vs s = s \/ fold_left Z.max vs s ∈ vs.
Proof.
  revert s. induction vs as [|v vs IH]; intros s; simpl; [by left|].
  destruct (IH (Z.max s v)) as [E|E].
  - rewrite E. destruct (Z.max_spec s v) as [[_ ->]|[_ ->]];
      [right; constructor | by left].
  - right. by constructor.
Qed.

Lemma fold_max_assoc (vs : list Z) (s t : Z) :
  fold_left Z.max vs (Z.max s t) = Z.max s (fold_left Z.max vs t).
Proof.
  revert s t. induction vs as [|v vs IH]; intros s t; simpl; [reflexivity|].
  rewrite <- IH. f_equal. lia.
Qed.

Lemma fold_left_max_right (vs : list Z) (s : Z) :
  fold_left Z.max vs s = fold_right Z.max s vs.
Proof.
  revert s. induction vs as [|v vs IH]; intros s; simpl; [reflexivity|].
  rewrite Z.max_comm, fold_max_assoc, IH. reflexivity.
Qed.

Lemma total_perm (vs vs' : list Z) : Permutation vs vs' -> total vs = total vs'.
Proof. unfold total. induction 1; simpl; lia. Qed.

Lemma fold_right_min_perm (s : Z) (vs vs' : list Z) :
  Permutation vs vs' -> fold_right Z.min s vs = fold_right Z.min s vs'.
Proof. induction 1; simpl; lia. Qed.

Lemma fold_right_max_perm (s : Z) (vs vs' : list Z) :
  Permutation vs vs' -> fold_right Z.max s vs = fold_right Z.max s vs'.
Proof. induction 1; simpl; lia. Qed.

(** X1.  The stream function [NewUint64("Sum")] exists; after any finite
    sequence of [Update] calls its [State] is the sum of the values
    modulo [2^64]: the sum wraps around as Go's [uint64] addition does,
    and stays a [uint64]. *)
Theorem NewUint64_Sum_state (vs : list Z) :
  exists p, NewUint64 "Sum" = Some p
    /\ State (updates p vs) = total vs mod 2 ^ 64
    /\ is_uint64 (State (updates p vs)).
Proof.
  exists (mkUint64 0 updateSum). split; [reflexivity|].
  assert (E : State (updates (mkUint64 0 updateSum) vs) = total vs mod 2 ^ 64).
  { destruct (updates_Sum_state 0 vs) as [->|[-> ->]]; [|reflexivity].
    by rewrite Z.mod_0_l. }
  split; [exact E|]. rewrite E. unfold is_uint64, MaxUint64.
  pose proof (Z.mod_pos_bound (total vs) (2 ^ 64)). lia.
Qed.

(** X2.  The stream function [NewUint64("Max")] exists; after any finite
    sequence of [Update] calls with uint64 values its [State] is the
    maximum of the values (it is one of them and above all of them), and
    0 when there were none. *)
Theorem NewUint64_Max_state (vs : list Z) (Hvs : Forall is_uint64 vs) :
  exists p, NewUint64 "Max" = Some p
    /\ State (updates p vs) = maximum vs
    /\ match vs with
       | [] => State (updates p vs) = 0
       | _ :: _ => State (updates p vs) ∈ vs
                   /\ Forall (fun v => v <= State (updates p vs)) vs
       end.
Proof.
  exists (mkUint64 0 updateMax). split; [reflexivity|].
  rewrite updates_Max_state. split; [apply fold_left_max_right|].
  destruct vs as [|v vs]; [reflexivity|]. split.
  - destruct (fold_left_max_elem (v :: vs) 0) as [E|E]; [|exact E].
    pose proof (fold_left_max_upper (v :: vs) 0) as L.
    rewrite E in L. inversion L as [|? ? L1 _]; subst.
    inversion Hvs as [|? ? [U _] _]; subst.
    assert (v = 0) as -> by lia. rewrite E. constructor.
  - apply fold_left_max_upper.
Qed.

Lemma NewUint64_Max_state_witness :
  Forall is_uint64 [5; 3; 9]
  /\ exists p, NewUint64 "Max" = Some p
    /\ State (updates p [5; 3; 9]) = maximum [5; 3; 9]
    /\ (State (updates p [5; 3; 9]) ∈ [5; 3; 9]
        /\ Forall (fun v => v <= State (updates p [5; 3; 9])) [5; 3; 9]).
Proof.
  assert (H : Forall is_uint64 [5; 3; 9]).
  { repeat constructor; unfold MaxUint64; lia. }
  split; [exact H|]. exact (NewUint64_Max_state [5; 3; 9] H).
Defined.

(** X3.  For each of the three stream functions the [State] after a
    sequence of [Update] calls does not depend on the order of the
    calls: two sequences with the same values, in any order, give the
    same [State]. *)
Theorem NewUint64_order_independent (op : string) (p : Uint64)
    (vs vs' : list Z)
    (Hop : NewUint64 op = Some p) (Hperm : Permutation vs vs') :
  State (updates p vs) = State (updates p vs').
Proof.
  unfold NewUint64 in Hop.
  destruct (String.eqb op "Sum").
  { injection Hop as <-.
    destruct (updates_Sum_state 0 vs) as [->|[-> ->]];
    destruct (updates_Sum_state 0 vs') as [->|[-> ->]].
    - by rewrite (total_perm _ _ Hperm).
    - by rewrite (total_perm _ _ Hperm).
    - by rewrite <- (total_perm _ _ Hperm).
    - reflexivity. }
  destruct (String.eqb op "Min").
  { injection Hop as <-. rewrite !updates_Min_state.
    rewrite !fold_left_min_right. by apply fold_right_min_perm. }
  destruct (String.eqb op "Max"); [|discriminate].
  injection Hop as <-. rewrite !updates_Max_state.
  rewrite !fold_left_max_right. by apply fold_right_max_perm.
Qed.

Lemma NewUint64_order_independent_witness :
  NewUint64 "Sum" = Some (mkUint64 0 updateSum)
  /\ Permutation [5; 3; 9] [9; 5; 3]
  /\ State (updates (mkUint64 0 updateSum) [5; 3; 9])
     = State (updates (mkUint64 0 updateSum) [9; 5; 3]).
Proof.
  assert (H1 : NewUint64 "Sum" = Some (mkUint64 0 updateSum)) by reflexivity.
  assert (H2 : Permutation [5; 3; 9] [9; 5; 3]).
  { change [9; 5; 3] with ([9] ++ [5; 3]).
    apply (Permutation_cons_app [9]). simpl. apply Permutation_cons_append. }
  exact (conj H1 (conj H2
    (NewUint64_order_independent "Sum" _ [5; 3; 9] [9; 5; 3] H1 H2))).
Defined.

End StreamfnFacts.

(** ** pkg/zson/array.go *)

Module ZsonFacts.
Import Zson.

Section Array.

Context {Record Span : Type}.
Implicit Types (a : Array Record Span) (cs : list refcall).

Lemma runCalls_id a cs : runCalls a cs = a.
Proof. induction cs as [|[] cs IH]; simpl; auto. Qed.

(** C7.  Any sequence of [Ref] and [Unref] calls leaves the batch as it
    was: [Length], [Records], [Index(k)] for every [k], and [Span] give
    the same results after the calls as before. *)
Theorem Ref_Unref_frame a cs (k : Z) :
  Length (runCalls a cs) = Length a
  /\ Records (runCalls a cs) = Records a
  /\ Index (runCalls a cs) k = Index a k
  /\ GetSpan (runCalls a cs) = GetSpan a.
Proof. by rewrite runCalls_id. Qed.

(** [Index] at a position of the batch returns its record. *)
Lemma Index_in_range a (k : Z) :
  0 <= k < Length a ->
  exists r, records a !! Z.to_nat k = Some r /\ Index a k = Returns (Some r).
Proof.
  unfold Length, Index, index_slice. intros [H0 H1].
  destruct (Z.ltb_spec k (Z.of_nat (length (records a)))); [|lia].
  destruct (Z.ltb_spec k 0); [lia|].
  destruct (lookup_lt_is_Some_2 (records a) (Z.to_nat k)) as [r Hr]; [lia|].
  exists r. by rewrite Hr.
Qed.

(** [Index] past the end returns nil. *)
Lemma Index_past_end a (k : Z) : Length a <= k -> Index a k = Returns None.
Proof.
  unfold Length, Index. intros H.
  destruct (Z.ltb_spec k (Z.of_nat (length (records a)))); [lia|reflexivity].
Qed.

(** [Index] at a negative position passes the test [k < len(a.records)]
    and indexes the slice: a run-time panic. *)
Lemma Index_negative a (k : Z) : k < 0 -> Index a k = Panics.
Proof.
  unfold Index, index_slice. intros H.
  destruct (Z.ltb_spec k (Z.of_nat (length (records a)))); [|lia].
  destruct (Z.ltb_spec k 0); [reflexivity|lia].
Qed.

End Array.

(** C9.  [Index(-1)] on a batch of one record panics: the bound check of
    [Index] covers only the upper end. *)
Theorem Index_minus_one_panics :
  Index (NewArray ["r0"%string] tt) (-1) = Panics.
Proof. reflexivity. Qed.

(** *** [Index] at every position *)

Section Bounds.

Context {Record Span : Type}.
Implicit Types (a : Array Record Span).

(** X4.  [Index(k)] panics for every negative [k] and for no other:
    for [k >= 0] it returns the record at position [k] of the batch, and
    nil when there is none (the positions from [Length] on). *)
Theorem Index_total a (k : Z) :
  Index a k = if k <? 0 then Panics else Returns (Records a !! Z.to_nat k).
Proof.
  unfold Index, index_slice, Records.
  destruct (Z.ltb_spec k 0) as [Hk|Hk].
  - destruct (Z.ltb_spec k (Z.of_nat (length (records a)))); [reflexivity|lia].
  - destruct (Z.ltb_spec k (Z.of_nat (length (records a)))) as [H|H].
    + destruct (lookup_lt_is_Some_2 (records a) (Z.to_nat k)) as [r Hr]; [lia|].
      by rewrite Hr.
    + rewrite lookup_ge_None_2 by lia. reflexivity.
Qed.

End Bounds.

End ZsonFacts.

(** ** expr/sort.go: the comparator *)

Module ExprFacts.
Import Zcode Zng Expr.

Lemma CompareList_refl (a : list byte) : GoBytes.CompareList a a = 0.
Proof.
  induction a as [|x a IH]; simpl; [reflexivity|].
  by rewrite N.ltb_irrefl.
Qed.

Lemma Compare_refl (a : Bytes) : GoBytes.Compare a a = 0.
Proof. apply CompareList_refl. Qed.

Lemma CompareList_range (a b : list byte) :
  GoBytes.CompareList a b = -1 \/ GoBytes.CompareList a b = 0
  \/ GoBytes.CompareList a b = 1.
Proof.
  revert b. induction a as [|x a IH]; intros [|y b]; simpl; auto.
  destruct (_ <? _)%N; auto. destruct (_ <? _)%N; auto.
Qed.

Lemma CompareList_antisym (a b : list byte) :
  GoBytes.CompareList b a = - GoBytes.CompareList a b.
Proof.
  revert b. induction a as [|x a IH]; intros [|y b]; simpl; auto.
  destruct (N.ltb_spec (Byte.to_N x) (Byte.to_N y)),
           (N.ltb_spec (Byte.to_N y) (Byte.to_N x)); auto; lia.
Qed.

Lemma CompareList_eq (a b : list byte) :
  GoBytes.CompareList a b = 0 -> a = b.
Proof.
  revert b. induction a as [|x a IH]; intros [|y b]; simpl; try done.
  destruct (N.ltb_spec (Byte.to_N x) (Byte.to_N y)); [done|].
  destruct (N.ltb_spec (Byte.to_N y) (Byte.to_N x)); [done|].
  intros E. f_equal; [|by apply IH].
  assert (En : Byte.to_N x = Byte.to_N y) by lia.
  pose proof (Byte.of_to_N x) as Hx. rewrite En, Byte.of_to_N in Hx.
  by injection Hx.
Qed.

Lemma To16_canonical16 (ip : list byte) :
  length ip = 4%nat \/ length ip = 16%nat ->
  GoNet.To16 ip = Some (GoNet.canonical16 ip) /\ length (GoNet.canonical16 ip) = 16%nat.
Proof.
  unfold GoNet.canonical16. intros [H|H]; rewrite H; simpl.
  - by destruct ip as [|a [|b [|c [|d [|? ?]]]]].
  - split; [|done]. unfold GoNet.To16. rewrite H.
    by destruct ip as [|a [|b [|c [|d [|? ?]]]]].
Qed.

(** [bytes.Compare] on slices of one length: the first byte that differs
    decides. *)
Lemma CompareList_less (a b : list byte) :
  length a = length b ->
  (GoBytes.CompareList a b = -1
   <-> exists p x y sa sb,
         a = p ++ x :: sa /\ b = p ++ y :: sb
         /\ (Byte.to_N x < Byte.to_N y)%N).
Proof.
  revert b. induction a as [|x a IH]; intros [|y b] Hlen; try discriminate.
  - split; [discriminate|]. intros (p & x & y & sa & sb & E & _).
    by destruct p.
  - injection Hlen as Hlen. simpl.
    destruct (N.ltb_spec (Byte.to_N x) (Byte.to_N y)) as [Hxy|Hxy].
    + split; [|done]. intros _. by exists [], x, y, a, b.
    + destruct (N.ltb_spec (Byte.to_N y) (Byte.to_N x)) as [Hyx|Hyx].
      * split; [discriminate|].
        intros (p & x' & y' & sa & sb & Ea & Eb & Hlt).
        destruct p as [|z p]; simpl in Ea, Eb.
        -- injection Ea as <- <-. injection Eb as <- <-. lia.
        -- injection Ea as -> ->. injection Eb as <- _. lia.
      * rewrite (IH b Hlen). split.
        -- intros (p & x' & y' & sa & sb & -> & -> & Hlt).
           assert (En : Byte.to_N x = Byte.to_N y) by lia.
           pose proof (Byte.of_to_N x) as Hx. rewrite En, Byte.of_to_N in Hx.
           injection Hx as <-.
           by exists (y :: p), x', y', sa, sb.
        -- intros (p & x' & y' & sa & sb & Ea & Eb & Hlt).
           destruct p as [|z p]; simpl in Ea, Eb.
           ++ injection Ea as <- <-. injection Eb as <- <-. lia.
           ++ injection Ea as -> ->. injection Eb as _ ->.
              by exists p, x', y', sa, sb.
Qed.

Lemma SFltb_irrefl (x : spec_float) : SFltb x x = false.
Proof.
  unfold SFltb, SFcompare.
  destruct x as [[]|[]| |[] m e]; try reflexivity;
    rewrite Z.compare_refl, Pos.compare_cont_refl; reflexivity.
Qed.

Section Sorters.

Context `{codec : Codec}.

Lemma lookupSorter_inner (typ innerType : Typ) :
  InnerType typ = Some innerType ->
  lookupSorter typ = compareContainer (lookupSorter innerType).
Proof. destruct typ; simpl; intros [= <-]; reflexivity. Qed.

Lemma lookupSorter_switch (typ : Typ) :
  InnerType typ = None -> lookupSorter typ = switchID (ID typ).
Proof. destruct typ; simpl; intros; [reflexivity|discriminate..]. Qed.

Lemma getSorter_ok (sorters : Sorters) (typ : Typ) :
  sortersOK sorters ->
  fst (getSorter sorters typ) = lookupSorter typ
  /\ sortersOK (snd (getSorter sorters typ)).
Proof.
  intros Hs. unfold getSorter.
  destruct (sorters typ) as [sf|] eqn:E; simpl.
  - split; [by apply Hs|exact Hs].
  - split; [reflexivity|]. intros typ' sf'. unfold setSorter.
    destruct (decide (typ' = typ)) as [->|]; [by intros [= <-]|apply Hs].
Qed.

Section Records.

Context {Record : Type}.
Implicit Types (resolver : FieldExprResolver Record) (ra rb : Record).

Lemma compareField_ok nullsMax resolver sorters ra rb :
  sortersOK sorters ->
  fst (compareField nullsMax resolver sorters ra rb)
    = compareValues nullsMax (resolver ra) (resolver rb)
  /\ sortersOK (snd (compareField nullsMax resolver sorters ra rb)).
Proof.
  intros Hs. unfold compareField, compareValues.
  destruct (isNull (resolver ra)), (isNull (resolver rb)); simpl; auto.
  destruct (VType (resolver ra)) as [ta|], (VType (resolver rb)) as [tb|];
    auto.
  destruct (negb (ID ta =? ID tb)); auto.
  destruct (getSorter_ok sorters ta Hs) as [E1 E2].
  destruct (getSorter sorters ta) as [sf sorters']; simpl in *. subst sf.
  destruct (negb (_ =? 0)); auto.
Qed.

Lemma NewSortFn_ok nullsMax (fields : list (FieldExprResolver Record))
    sorters ra rb :
  sortersOK sorters ->
  sortersOK (snd (NewSortFn nullsMax fields sorters ra rb)).
Proof.
  revert sorters. induction fields as [|f fields IH]; intros s Hs; simpl; auto.
  destruct (compareField_ok nullsMax f s ra rb Hs) as [_ E2].
  destruct (compareField nullsMax f s ra rb) as [[v|] s']; simpl in *; auto.
Qed.

Lemma compareRecords_nil nullsMax sorters ra rb :
  compareRecords nullsMax [] sorters ra rb = 0.
Proof. reflexivity. Qed.

Lemma compareRecords_cons nullsMax f (fields : list (FieldExprResolver Record))
    sorters ra rb :
  sortersOK sorters ->
  exists sorters', sortersOK sorters' /\
  compareRecords nullsMax (f :: fields) sorters ra rb
  = match compareValues nullsMax (f ra) (f rb) with
    | Some v => v
    | None => compareRecords nullsMax fields sorters' ra rb
    end.
Proof.
  intros Hs. unfold compareRecords. simpl.
  destruct (compareField_ok nullsMax f sorters ra rb Hs) as [E1 E2].
  destruct (compareField nullsMax f sorters ra rb) as [[v|] s']; simpl in *;
    rewrite <- E1; eauto.
Qed.

(** The memo table does not show in the results. *)
Lemma compareRecords_sorters nullsMax (fields : list (FieldExprResolver Record))
    s1 s2 ra rb :
  sortersOK s1 -> sortersOK s2 ->
  compareRecords nullsMax fields s1 ra rb
  = compareRecords nullsMax fields s2 ra rb.
Proof.
  revert s1 s2. induction fields as [|f fields IH]; intros s1 s2 H1 H2;
    [reflexivity|].
  destruct (compareRecords_cons nullsMax f fields s1 ra rb H1) as (s1' & ? & ->).
  destruct (compareRecords_cons nullsMax f fields s2 ra rb H2) as (s2' & ? & ->).
  destruct (compareValues _ _ _); auto.
Qed.

Lemma compareRecords_first nullsMax f (fields : list (FieldExprResolver Record))
    sorters ra rb :
  sortersOK sorters ->
  compareRecords nullsMax (f :: fields) sorters ra rb
  = match compareValues nullsMax (f ra) (f rb) with
    | Some v => v
    | None => compareRecords nullsMax fields sorters ra rb
    end.
Proof.
  intros Hs.
  destruct (compareRecords_cons nullsMax f fields sorters ra rb Hs)
    as (s' & Hs' & ->).
  destruct (compareValues _ _ _); [reflexivity|].
  by apply compareRecords_sorters.
Qed.

(** The fields on which the records tie are skipped. *)
Lemma compareRecords_ties nullsMax (pre fields : list (FieldExprResolver Record))
    sorters ra rb :
  sortersOK sorters ->
  Forall (tie nullsMax ra rb) pre ->
  compareRecords nullsMax (pre ++ fields) sorters ra rb
  = compareRecords nullsMax fields sorters ra rb.
Proof.
  intros Hs. induction 1 as [|g pre Hg _ IH]; [reflexivity|].
  simpl. rewrite compareRecords_first by done. unfold tie in Hg.
  by rewrite Hg.
Qed.

Lemma noSorters_ok : sortersOK noSorters.
Proof. intros typ sf. discriminate. Qed.

End Records.
End Sorters.

Section Claims.

Context `{codec : Codec} {Record : Type}.
Implicit Types (f resolver : FieldExprResolver Record) (ra rb r : Record).
Implicit Types (fields pre post : list (FieldExprResolver Record)).

(** A record with only null keys against one with a key that is not. *)
Lemma allNull_right nullsMax fields sorters r r' :
  sortersOK sorters ->
  allNull fields r = true -> allNull fields r' = false ->
  compareRecords nullsMax fields sorters r' r = (if nullsMax then -1 else 1).
Proof.
  intros Hs. induction fields as [|f fields IH]; simpl; [discriminate|].
  intros [Hf Hr]%andb_prop Hr'. rewrite compareRecords_first by done.
  unfold compareValues. rewrite Hf.
  destruct (isNull (f r')); [|reflexivity]. by apply IH.
Qed.

Lemma allNull_left nullsMax fields sorters r r' :
  sortersOK sorters ->
  allNull fields r = true -> allNull fields r' = false ->
  compareRecords nullsMax fields sorters r r' = (if nullsMax then 1 else -1).
Proof.
  intros Hs. induction fields as [|f fields IH]; simpl; [discriminate|].
  intros [Hf Hr]%andb_prop Hr'. rewrite compareRecords_first by done.
  unfold compareValues. rewrite Hf.
  destruct (isNull (f r')); [|reflexivity]. by apply IH.
Qed.

Lemma filter_none {A} (p : A -> bool) (l : list A) :
  Forall (fun x => p x = false) l -> List.filter p l = [].
Proof. induction 1 as [|x l Hx _ IH]; simpl; [|rewrite Hx]; done. Qed.

Lemma filter_all {A} (p : A -> bool) (l : list A) :
  Forall (fun x => p x = true) l -> List.filter p l = l.
Proof. induction 1 as [|x l Hx _ IH]; simpl; [|rewrite Hx, IH]; done. Qed.

(** C4.  When the records tie on the fields before [f] and their values
    for [f] are not null and have types with different IDs, the
    comparator returns the byte comparison of the string forms of the
    two types.  The result is a function of the two types alone: the
    payloads are not decoded, and any other payloads, codec and null
    policy give the same. *)
Theorem NewSortFn_type_mismatch nullsMax pre f post sorters ra rb
    (ta tb : Typ) (ba bb : list byte)
    (Hs : sortersOK sorters)
    (Hties : Forall (tie nullsMax ra rb) pre)
    (Ha : f ra = mkValue (Some ta) (Some ba))
    (Hb : f rb = mkValue (Some tb) (Some bb))
    (Hid : ID ta <> ID tb) :
  compareRecords nullsMax (pre ++ f :: post) sorters ra rb
    = GoBytes.Compare (Some (typeName ta)) (Some (typeName tb))
  /\ forall (codec' : Codec) (nullsMax' : bool) (ba' bb' : list byte),
       @compareValues codec' nullsMax'
         (mkValue (Some ta) (Some ba')) (mkValue (Some tb) (Some bb'))
       = Some (GoBytes.Compare (Some (typeName ta)) (Some (typeName tb))).
Proof.
  assert (Hne : negb (ID ta =? ID tb) = true).
  { apply negb_true_iff, Z.eqb_neq, Hid. }
  split.
  - rewrite compareRecords_ties, compareRecords_first by done.
    rewrite Ha, Hb. unfold compareValues. simpl. by rewrite Hne.
  - intros codec' nullsMax' ba' bb'. unfold compareValues. simpl.
    by rewrite Hne.
Qed.

(** C5.  For a type with the ID of IP addresses and two payloads that
    decode to addresses of 4 or 16 bytes, [To16] gives the canonical form
    of each address, which has 16 bytes (a 4-byte address behind the
    IPv4-in-IPv6 prefix, a 16-byte address as it is), and the comparator
    is the byte comparison of the two canonical forms: 0 exactly when
    they are equal, and else -1 or 1 as the first byte in which they
    differ is smaller in the first or in the second.  Where the decoder
    gives the address bytes as they are, an IPv4 address in its 4-byte
    form equals the same address in its 16-byte IPv4-in-IPv6 form. *)
Theorem lookupSorter_IP (typ : Typ) (a b : Bytes) (va vb : list byte)
    (x1 x2 x3 x4 : byte)
    (Hinner : InnerType typ = None)
    (Hid : ID typ = IdIP)
    (Hva : DecodeIP a = Some va)
    (Hvb : DecodeIP b = Some vb)
    (Hla : length va = 4%nat \/ length va = 16%nat)
    (Hlb : length vb = 4%nat \/ length vb = 16%nat)
    (H4 : DecodeIP (Some [x1; x2; x3; x4]) = Some [x1; x2; x3; x4])
    (H16 : DecodeIP (Some (GoNet.v4InV6Prefix ++ [x1; x2; x3; x4]))
           = Some (GoNet.v4InV6Prefix ++ [x1; x2; x3; x4])) :
  let ca := GoNet.canonical16 va in
  let cb := GoNet.canonical16 vb in
  lookupSorter typ a b = GoBytes.Compare (GoNet.To16 va) (GoNet.To16 vb)
  /\ GoNet.To16 va = Some ca /\ GoNet.To16 vb = Some cb
  /\ length ca = 16%nat /\ length cb = 16%nat
  /\ (length va = 4%nat -> ca = GoNet.v4InV6Prefix ++ va)
  /\ (length va = 16%nat -> ca = va)
  /\ (length vb = 4%nat -> cb = GoNet.v4InV6Prefix ++ vb)
  /\ (length vb = 16%nat -> cb = vb)
  /\ (lookupSorter typ a b = 0 <-> ca = cb)
  /\ (lookupSorter typ a b = -1
      <-> exists p x y sa sb,
            ca = p ++ x :: sa /\ cb = p ++ y :: sb
            /\ (Byte.to_N x < Byte.to_N y)%N)
  /\ (lookupSorter typ a b = 1
      <-> exists p x y sa sb,
            ca = p ++ x :: sa /\ cb = p ++ y :: sb
            /\ (Byte.to_N y < Byte.to_N x)%N)
  /\ lookupSorter typ (Some [x1; x2; x3; x4])
       (Some (GoNet.v4InV6Prefix ++ [x1; x2; x3; x4])) = 0
  /\ lookupSorter typ (Some (GoNet.v4InV6Prefix ++ [x1; x2; x3; x4]))
       (Some [x1; x2; x3; x4]) = 0.
Proof.
  intros ca cb.
  destruct (To16_canonical16 va Hla) as [Ta La].
  destruct (To16_canonical16 vb Hlb) as [Tb Lb].
  fold ca in Ta, La. fold cb in Tb, Lb.
  rewrite (lookupSorter_switch typ Hinner), Hid.
  change (switchID IdIP) with compareIP. unfold compareIP.
  rewrite Hva, Hvb, H4, H16.
  split; [reflexivity|]. split; [exact Ta|]. split; [exact Tb|].
  split; [exact La|]. split; [exact Lb|].
  split; [intros H; unfold ca, GoNet.canonical16; by rewrite H|].
  split; [intros H; unfold ca, GoNet.canonical16; by rewrite H|].
  split; [intros H; unfold cb, GoNet.canonical16; by rewrite H|].
  split; [intros H; unfold cb, GoNet.canonical16; by rewrite H|].
  rewrite Ta, Tb. unfold GoBytes.Compare. cbn [default]. unfold id.
  split.
  { split; [apply CompareList_eq|intros ->; apply CompareList_refl]. }
  split.
  { apply CompareList_less. by rewrite La, Lb. }
  split.
  { rewrite (CompareList_antisym cb ca).
    pose proof (CompareList_less cb ca ltac:(by rewrite La, Lb)) as L.
    split.
    - intros E. assert (E' : GoBytes.CompareList cb ca = -1) by lia.
      apply L in E' as (p & x & y & sa & sb & E1 & E2 & Hlt).
      by exists p, y, x, sb, sa.
    - intros (p & x & y & sa & sb & E1 & E2 & Hlt).
      assert (E' : GoBytes.CompareList cb ca = -1).
      { apply L. by exists p, y, x, sb, sa. }
      lia. }
  split; apply CompareList_refl.
Qed.

Lemma switchID_fails_left (id : Z) (a b : Bytes) :
  decodeFails id a = true -> switchID id a b = -1.
Proof.
  unfold decodeFails, switchID.
  repeat (match goal with
          | |- context [if ?c then _ else _] => destruct c
          end; try discriminate);
    intros E%bool_decide_eq_true;
    unfold compareBool, compareDecoded, compareFloat64, compareIP;
    by rewrite E.
Qed.

Lemma switchID_fails_right (id : Z) (a b : Bytes) :
  decodeFails id a = false -> decodeFails id b = true -> switchID id a b = 1.
Proof.
  unfold decodeFails, switchID.
  repeat (match goal with
          | |- context [if ?c then _ else _] => destruct c
          end; try discriminate);
    intros Ea%bool_decide_eq_false Eb%bool_decide_eq_true;
    unfold compareBool, compareDecoded, compareFloat64, compareIP;
    rewrite Eb;
    match goal with
    | |- context [match ?d with Some _ => _ | None => _ end] => by destruct d
    end.
Qed.

(** C2, as amended.  When the records tie on the fields before [f] and
    their values for [f] are not null and of one type without inner type:
    if the payload of the first record fails to decode the comparator
    returns -1, and if it decodes and that of the second fails it returns
    1, whatever [nullsMax] is. *)
Theorem NewSortFn_malformed nullsMax pre f post sorters ra rb
    (ta tb : Typ) (ba bb : list byte)
    (Hs : sortersOK sorters)
    (Hties : Forall (tie nullsMax ra rb) pre)
    (Ha : f ra = mkValue (Some ta) (Some ba))
    (Hb : f rb = mkValue (Some tb) (Some bb))
    (Hid : ID ta = ID tb)
    (Hinner : InnerType ta = None)
    (Hfails : decodeFails (ID ta) (Some ba) = true
              \/ decodeFails (ID ta) (Some bb) = true) :
  compareRecords nullsMax (pre ++ f :: post) sorters ra rb
    = (if decodeFails (ID ta) (Some ba) then -1 else 1).
Proof.
  rewrite compareRecords_ties, compareRecords_first by done.
  rewrite Ha, Hb. unfold compareValues. simpl.
  rewrite Hid, Z.eqb_refl. simpl. rewrite <- Hid.
  rewrite (lookupSorter_switch ta Hinner).
  destruct (decodeFails (ID ta) (Some ba)) eqn:Ea.
  - by rewrite switchID_fails_left.
  - destruct Hfails as [?|Eb]; [done|]. by rewrite switchID_fails_right.
Qed.

Lemma switchID_refl (id : Z) (zv : Bytes) :
  decodeFails id zv = false -> switchID id zv zv = 0.
Proof.
  unfold decodeFails, switchID.
  repeat (match goal with
          | |- context [if ?c then _ else _] => destruct c
          end; try discriminate);
    try (intros _; apply Compare_refl);
    intros E%bool_decide_eq_false;
    unfold compareBool, compareDecoded, compareFloat64, compareIP;
    match goal with
    | |- context [match ?d with Some _ => _ | None => _ end] =>
        destruct d as [v|]; try done
    end.
  - by destruct v.
  - rewrite Z.ltb_irrefl. by destruct (Z.gtb_spec v v); [lia|].
  - rewrite Z.ltb_irrefl. by destruct (Z.gtb_spec v v); [lia|].
  - rewrite Z.ltb_irrefl. by destruct (Z.gtb_spec v v); [lia|].
  - by rewrite SFltb_irrefl.
  - rewrite Z.ltb_irrefl. by destruct (Z.gtb_spec v v); [lia|].
  - rewrite Z.ltb_irrefl. by destruct (Z.gtb_spec v v); [lia|].
  - apply Compare_refl.
Qed.

Lemma compareElems_refl (compare : comparefn) (ok : Bytes -> bool)
    (fuel : nat) (it : list byte) :
  (forall zv, ok zv = true -> compare zv zv = 0) ->
  elemsOK fuel ok it = true -> compareElems fuel compare it it = 0.
Proof.
  intros Hok. revert it. induction fuel as [|fuel IH]; intros it; simpl;
    [reflexivity|].
  destruct (Done it); [reflexivity|].
  destruct (IterNext it) as [[[v c] it']|]; [|discriminate].
  destruct c; [discriminate|]. simpl.
  intros [Hv Hit]%andb_prop. by rewrite Hok, IH.
Qed.

Lemma lookupSorter_refl (typ : Typ) (zv : Bytes) :
  wellFormed typ zv = true -> lookupSorter typ zv zv = 0.
Proof.
  revert zv. induction typ as [id name|id name inner IH|id name elem IH];
    intros zv.
  - simpl. intros E%negb_true_iff. by apply switchID_refl.
  - apply (compareElems_refl _ (wellFormed inner)), IH.
  - apply (compareElems_refl _ (wellFormed elem)), IH.
Qed.

(** C8, as amended.  For a record whose sort keys are null or well formed
    for their types, the comparator of every list of fields and either
    null policy returns 0 when the record is compared with itself. *)
Theorem NewSortFn_reflexive nullsMax fields sorters r
    (Hs : sortersOK sorters)
    (Hwf : Forall (fun f => wellFormedValue (f r) = true) fields) :
  compareRecords nullsMax fields sorters r r = 0.
Proof.
  induction Hwf as [|f fields Hf _ IH]; [reflexivity|].
  rewrite compareRecords_first by done.
  unfold compareValues, wellFormedValue, isNull in *.
  destruct (VType (f r)) as [typ|]; [|exact IH].
  destruct (VBytes (f r)) as [b|]; [|exact IH].
  rewrite Z.eqb_refl. simpl. by rewrite lookupSorter_refl.
Qed.

End Claims.

(** *** The claims on concrete records *)

Section Examples.
Import CodecModel.

Lemma NewSortFn_type_mismatch_witness :
  sortersOK (codec := codec) noSorters
  /\ Forall (tie (codec := codec) false [ip4; int7] [ip4; strA]) [column 0]
  /\ ID TypeInt64 <> ID TypeString
  /\ cmp false [column 0; column 1] [ip4; int7] [ip4; strA] = -1.
Proof.
  assert (Hs : sortersOK (codec := codec) noSorters) by apply noSorters_ok.
  assert (Hties : Forall (tie (codec := codec) false [ip4; int7] [ip4; strA])
                    [column 0]).
  { constructor; [vm_compute; reflexivity|constructor]. }
  assert (Hid : ID TypeInt64 <> ID TypeString) by (vm_compute; discriminate).
  exact (conj Hs (conj Hties (conj Hid (proj1
    (NewSortFn_type_mismatch (codec := codec) false [column 0] (column 1) []
       noSorters [ip4; int7] [ip4; strA] TypeInt64 TypeString
       [Byte.x0e] [Byte.x61] Hs Hties eq_refl eq_refl Hid))))).
Defined.

Lemma lookupSorter_IP_witness :
  InnerType TypeIP = None /\ ID TypeIP = IdIP
  /\ GoNet.canonical16 [Byte.x0a; Byte.x00; Byte.x00; Byte.x01]
     = GoNet.v4InV6Prefix ++ [Byte.x0a; Byte.x00; Byte.x00; Byte.x01]
  /\ lookupSorter (codec := codec) TypeIP
       (Some [Byte.x0a; Byte.x00; Byte.x00; Byte.x01])
       (Some (GoNet.v4InV6Prefix ++ [Byte.x0a; Byte.x00; Byte.x00; Byte.x02]))
     = -1
  /\ lookupSorter (codec := codec) TypeIP
       (Some [Byte.x0a; Byte.x00; Byte.x00; Byte.x01])
       (Some (GoNet.v4InV6Prefix ++ [Byte.x0a; Byte.x00; Byte.x00; Byte.x01]))
     = 0.
Proof.
  split; [reflexivity|]. split; [reflexivity|].
  pose proof (lookupSorter_IP (codec := codec) TypeIP
    (Some [Byte.x0a; Byte.x00; Byte.x00; Byte.x01])
    (Some (GoNet.v4InV6Prefix ++ [Byte.x0a; Byte.x00; Byte.x00; Byte.x02]))
    [Byte.x0a; Byte.x00; Byte.x00; Byte.x01]
    (GoNet.v4InV6Prefix ++ [Byte.x0a; Byte.x00; Byte.x00; Byte.x02])
    Byte.x0a Byte.x00 Byte.x00 Byte.x01
    eq_refl eq_refl eq_refl eq_refl (or_introl eq_refl) (or_intror eq_refl)
    eq_refl eq_refl)
    as (_ & _ & _ & _ & _ & H4 & _ & _ & _ & _ & Hlt & _ & Heq & _).
  split; [exact (H4 eq_refl)|]. split; [|exact Heq].
  apply Hlt.
  exists (GoNet.v4InV6Prefix ++ [Byte.x0a; Byte.x00; Byte.x00]),
    Byte.x01, Byte.x02, [], [].
  split; [reflexivity|]. split; [reflexivity|]. vm_compute. reflexivity.
Defined.

Lemma NewSortFn_malformed_witness :
  sortersOK (codec := codec) noSorters
  /\ decodeFails (codec := codec) (ID TypeIP)
       (Some [Byte.x01; Byte.x02; Byte.x03]) = true
  /\ cmp true [column 0] [ip3] [ip4] = -1
  /\ cmp false [column 0] [ip3] [ip4] = -1.
Proof.
  assert (Hs : sortersOK (codec := codec) noSorters) by apply noSorters_ok.
  assert (Hf : decodeFails (codec := codec) (ID TypeIP)
                 (Some [Byte.x01; Byte.x02; Byte.x03]) = true) by reflexivity.
  exact (conj Hs (conj Hf (conj
    (NewSortFn_malformed (codec := codec) true [] (column 0) [] noSorters
       [ip3] [ip4] TypeIP TypeIP _ _ Hs (Forall_nil_2 _) eq_refl eq_refl
       eq_refl eq_refl (or_introl Hf))
    (NewSortFn_malformed (codec := codec) false [] (column 0) [] noSorters
       [ip3] [ip4] TypeIP TypeIP _ _ Hs (Forall_nil_2 _) eq_refl eq_refl
       eq_refl eq_refl (or_introl Hf))))).
Defined.

(** A key that fails to decode is not ordered like a null key: with
    nulls greatest the null sorts above the address and the malformed
    payload below it. *)
Lemma malformed_as_null_counterexample :
  ~ (forall (nullsMax : bool) (ba bb : list byte),
       decodeIP (Some ba) = None -> decodeIP (Some bb) <> None ->
       cmp nullsMax [column 0] [mkValue (Some TypeIP) (Some ba)]
         [mkValue (Some TypeIP) (Some bb)]
       = cmp nullsMax [column 0] [mkValue (Some TypeIP) None]
           [mkValue (Some TypeIP) (Some bb)]).
Proof.
  intros H.
  specialize (H true [Byte.x01; Byte.x02; Byte.x03]
                [Byte.x0a; Byte.x00; Byte.x00; Byte.x01]).
  vm_compute in H. specialize (H eq_refl). 
  assert (Some [Byte.x0a; Byte.x00; Byte.x00; Byte.x01] <> None) as N by discriminate.
  specialize (H N). discriminate.
Qed.

Lemma NewSortFn_reflexive_witness :
  sortersOK (codec := codec) noSorters
  /\ Forall (fun f => wellFormedValue (codec := codec) (f [ip4; ipNull; int7])
                      = true) [column 0; column 1; column 2]
  /\ cmp true [column 0; column 1; column 2] [ip4; ipNull; int7]
       [ip4; ipNull; int7] = 0.
Proof.
  assert (Hs : sortersOK (codec := codec) noSorters) by apply noSorters_ok.
  assert (Hwf : Forall (fun f => wellFormedValue (codec := codec)
                                   (f [ip4; ipNull; int7]) = true)
                  [column 0; column 1; column 2]).
  { repeat constructor. }
  exact (conj Hs (conj Hwf
    (NewSortFn_reflexive (codec := codec) true _ noSorters _ Hs Hwf))).
Defined.

(** A record whose key fails to decode is below itself. *)
Lemma NewSortFn_reflexive_counterexample :
  ~ (forall (nullsMax : bool) (fields : list (FieldExprResolver (list Value)))
       (r : list Value), cmp nullsMax fields r r = 0).
Proof.
  intros H. specialize (H true [column 0] [ip3]). vm_compute in H.
  discriminate.
Qed.

End Examples.
(** *** More on the comparator: range, symmetry, composition *)

Lemma SFltb_asym (x y : spec_float) : SFltb x y = true -> SFltb y x = false.
Proof.
  unfold SFltb, SFcompare.
  destruct x as [[]|[]| |[] m1 e1], y as [[]|[]| |[] m2 e2]; try done.
  - rewrite (Z.compare_antisym e1 e2).
    destruct (e1 ?= e2)%Z eqn:E; simpl; try done.
    pose proof (Pos.compare_cont_antisym m1 m2 Eq) as A. simpl in A.
    rewrite <- A. by destruct (Pos.compare_cont Eq m1 m2).
  - rewrite (Z.compare_antisym e1 e2).
    destruct (e1 ?= e2)%Z eqn:E; simpl; try done.
    pose proof (Pos.compare_cont_antisym m1 m2 Eq) as A. simpl in A.
    rewrite <- A. by destruct (Pos.compare_cont Eq m1 m2).
Qed.

Section Comparator.

Context `{codec : Codec}.

Local Abbreviation sign v := (v = -1 \/ v = 0 \/ v = 1).

Lemma switchID_range (id : Z) (a b : Bytes) : sign (switchID id a b).
Proof.
  unfold switchID.
  repeat (match goal with
          | |- context [if ?c then _ else _] => destruct c
          end);
    try apply CompareList_range;
    unfold compareBool, compareDecoded, compareFloat64, compareIP;
    repeat (match goal with
            | |- context [match ?d with Some _ => _ | None => _ end] =>
                destruct d
            | |- context [if ?c then _ else _] => destruct c
            end); auto; apply CompareList_range.
Qed.

Lemma compareElems_range (compare : comparefn) (fuel : nat) :
  (forall a b, sign (compare a b)) ->
  forall ia ib, sign (compareElems fuel compare ia ib).
Proof.
  intros Hc. induction fuel as [|fuel IH]; intros ia ib; simpl; auto.
  destruct (Done ia); [destruct (Done ib); auto|].
  destruct (Done ib); auto.
  destruct (IterNext ia) as [[[va ca] ia']|]; auto.
  destruct ca; auto.
  destruct (IterNext ib) as [[[vb cb] ib']|]; auto.
  destruct cb; auto.
  destruct (negb _); auto.
Qed.

Lemma lookupSorter_range (typ : Typ) (a b : Bytes) :
  sign (lookupSorter typ a b).
Proof.
  revert a b. induction typ as [id name|id name inner IH|id name elem IH];
    intros a b; simpl.
  - apply switchID_range.
  - by apply compareElems_range.
  - by apply compareElems_range.
Qed.

Lemma switchID_antisym (id : Z) (a b : Bytes) :
  decodeFails id a = false -> decodeFails id b = false ->
  switchID id b a = - switchID id a b.
Proof.
  unfold decodeFails, switchID.
  repeat (match goal with
          | |- context [if ?c then _ else _] => destruct c
          end; try discriminate);
    try (intros _ _; apply CompareList_antisym);
    intros Ea%bool_decide_eq_false Eb%bool_decide_eq_false;
    unfold compareBool, compareDecoded, compareFloat64, compareIP;
    repeat match goal with
    | |- context [match ?d with Some _ => _ | None => _ end] =>
        destruct d as [?|]; try done
    end;
    try (apply CompareList_antisym);
    try (repeat match goal with
         | |- context [?x <? ?y] => destruct (Z.ltb_spec x y)
         | |- context [?x >? ?y] => destruct (Z.gtb_spec x y)
         end; lia).
  - by destruct b0, b1.
  - destruct (SFltb s s0) eqn:E1, (SFltb s0 s) eqn:E2; try done.
    apply SFltb_asym in E1. congruence.
Qed.

Lemma compareElems_antisym (compare : comparefn) (ok : Bytes -> bool) :
  (forall a b, ok a = true -> ok b = true -> compare b a = - compare a b) ->
  forall f1 f2 ia ib,
    (length ia < f1)%nat -> (length ib < f2)%nat ->
    elemsOK f1 ok ia = true -> elemsOK f2 ok ib = true ->
    compareElems f2 compare ib ia = - compareElems f1 compare ia ib.
Proof.
  intros Hc. induction f1 as [|f1 IH]; intros f2 ia ib L1 L2; [lia|].
  destruct f2 as [|f2]; [lia|]. simpl.
  destruct ia as [|xa ia0], ib as [|xb ib0]; simpl; try done.
  destruct (IterNext (xa :: ia0)) as [[[va ca] ia']|] eqn:Ea; [|done].
  destruct (IterNext (xb :: ib0)) as [[[vb cb] ib']|] eqn:Eb;
    [|by destruct ca].
  destruct ca; [done|]. destruct cb; [simpl; by intros _ ?|]. simpl.
  intros [Hva Ha]%andb_prop [Hvb Hb]%andb_prop.
  apply IterNext_consumes in Ea, Eb. simpl in *.
  rewrite (Hc va vb) by done.
  destruct (Z.eqb_spec (compare va vb) 0) as [E|E].
  - rewrite E. simpl. apply IH; [lia|lia|done|done].
  - destruct (Z.eqb_spec (- compare va vb) 0); [lia|]. reflexivity.
Qed.

Lemma lookupSorter_antisym (typ : Typ) (a b : Bytes) :
  wellFormed typ a = true -> wellFormed typ b = true ->
  lookupSorter typ b a = - lookupSorter typ a b.
Proof.
  revert a b. induction typ as [id name|id name inner IH|id name elem IH];
    intros a b; simpl.
  - intros Ea%negb_true_iff Eb%negb_true_iff. by apply switchID_antisym.
  - intros Ha Hb. unfold compareContainer.
    apply (compareElems_antisym _ (wellFormed inner)); auto; lia.
  - intros Ha Hb. unfold compareContainer.
    apply (compareElems_antisym _ (wellFormed elem)); auto; lia.
Qed.

Section ComparatorRecords.

Context {Record : Type}.
Implicit Types (f resolver : FieldExprResolver Record) (ra rb r : Record).
Implicit Types (fields pre post : list (FieldExprResolver Record)).

Lemma compareValues_range nullsMax (a b : Value) (v : Z) :
  compareValues nullsMax a b = Some v -> sign v.
Proof.
  unfold compareValues.
  destruct (isNull a), (isNull b); try discriminate.
  - intros [= <-]. destruct nullsMax; auto.
  - intros [= <-]. destruct nullsMax; auto.
  - destruct (VType a) as [ta|], (VType b) as [tb|]; try discriminate.
    destruct (negb (ID ta =? ID tb)).
    + intros [= <-]. apply CompareList_range.
    + destruct (negb _); [|discriminate]. intros [= <-].
      apply lookupSorter_range.
Qed.

(** X6.  The comparator of [NewSortFn] returns -1, 0 or 1 and nothing
    else, the return convention of [bytes.Compare], for all records,
    fields, payloads (well formed or not) and either null policy. *)
Theorem NewSortFn_range nullsMax fields sorters ra rb
    (Hs : sortersOK sorters) :
  compareRecords nullsMax fields sorters ra rb = -1
  \/ compareRecords nullsMax fields sorters ra rb = 0
  \/ compareRecords nullsMax fields sorters ra rb = 1.
Proof.
  induction fields as [|f fields IH]; [by right; left|].
  rewrite compareRecords_first by done.
  destruct (compareValues nullsMax (f ra) (f rb)) as [v|] eqn:E; [|exact IH].
  by apply (compareValues_range nullsMax (f ra) (f rb)).
Qed.

Lemma compareValues_antisym nullsMax (a b : Value) :
  wellFormedValue a = true -> wellFormedValue b = true ->
  sameContext a b ->
  compareValues nullsMax b a = Z.opp <$> compareValues nullsMax a b.
Proof.
  unfold compareValues, wellFormedValue, sameContext, isNull.
  destruct (VType a) as [ta|], (VBytes a) as [ba|],
           (VType b) as [tb|], (VBytes b) as [bb|]; simpl;
    try (by destruct nullsMax).
  intros Ha Hb Hty.
  rewrite (Z.eqb_sym (ID tb) (ID ta)).
  destruct (Z.eqb_spec (ID ta) (ID tb)) as [E|E]; simpl.
  - rewrite <- (Hty ta tb eq_refl eq_refl E) in *.
    rewrite (lookupSorter_antisym ta (Some ba) (Some bb)) by done.
    destruct (Z.eqb_spec (lookupSorter ta (Some ba) (Some bb)) 0) as [E0|E0].
    + by rewrite E0.
    + destruct (Z.eqb_spec (- lookupSorter ta (Some ba) (Some bb)) 0); [lia|].
      reflexivity.
  - f_equal. apply CompareList_antisym.
Qed.

(** X7.  On two records whose sort keys are null or well formed, and of
    one type whenever their types have one ID, the comparator of
    [NewSortFn] is antisymmetric: comparing them in the other order
    negates the result. *)
Theorem NewSortFn_antisymmetric nullsMax fields sorters ra rb
    (Hs : sortersOK sorters)
    (Hwa : Forall (fun f => wellFormedValue (f ra) = true) fields)
    (Hwb : Forall (fun f => wellFormedValue (f rb) = true) fields)
    (Hty : Forall (fun f => sameContext (f ra) (f rb)) fields) :
  compareRecords nullsMax fields sorters rb ra
  = - compareRecords nullsMax fields sorters ra rb.
Proof.
  induction fields as [|f fields IH]; [reflexivity|].
  inversion Hwa as [|? ? Hwa1 Hwa2]; inversion Hwb as [|? ? Hwb1 Hwb2];
    inversion Hty as [|? ? Hty1 Hty2]; subst.
  rewrite !compareRecords_first by done.
  rewrite (compareValues_antisym nullsMax (f ra) (f rb)) by done.
  destruct (compareValues nullsMax (f ra) (f rb)); simpl; auto.
Qed.

Lemma calls_spec nullsMax fields (pairs : list (Record * Record)) :
  forall sorters, sortersOK sorters ->
  fst (calls (NewSortFn nullsMax fields) sorters pairs)
  = map (fun p => compareRecords nullsMax fields noSorters p.1 p.2) pairs
  /\ sortersOK (snd (calls (NewSortFn nullsMax fields) sorters pairs)).
Proof.
  induction pairs as [|[ra rb] pairs IH]; intros sorters Hs; [by split|].
  simpl.
  pose proof (NewSortFn_ok nullsMax fields sorters ra rb Hs) as Hs'.
  pose proof (compareRecords_sorters nullsMax fields sorters noSorters ra rb
                Hs noSorters_ok) as E.
  unfold compareRecords in E at 1.
  destruct (NewSortFn nullsMax fields sorters ra rb) as [v s']. simpl in *.
  destruct (IH s' Hs') as [E1 E2].
  destruct (calls (NewSortFn nullsMax fields) s' pairs) as [vs s''].
  simpl in *. split; [by rewrite E, E1|exact E2].
Qed.

(** X5.  The memo table of the closure of [NewSortFn] does not show in
    its results: in any sequence of calls, starting with the empty table
    that [NewSortFn] makes, each call returns what a fresh closure
    returns on the same two records; and the table only ever holds the
    comparators of [lookupSorter]. *)
Theorem NewSortFn_memo_unobservable nullsMax fields
    (pairs : list (Record * Record)) :
  fst (calls (NewSortFn nullsMax fields) noSorters pairs)
  = map (fun p => compareRecords nullsMax fields noSorters p.1 p.2) pairs
  /\ sortersOK (snd (calls (NewSortFn nullsMax fields) noSorters pairs)).
Proof. apply calls_spec, noSorters_ok. Qed.

(** X8.  The null policy matters only where one record has a null and
    the other has not: on two records that have their nulls at the same
    sort fields, the comparators for [nullsMax] true and false agree. *)
Theorem NewSortFn_nulls_alike fields sorters ra rb
    (Hs : sortersOK sorters)
    (Hnull : Forall (fun f => isNull (f ra) = isNull (f rb)) fields) :
  compareRecords true fields sorters ra rb
  = compareRecords false fields sorters ra rb.
Proof.
  induction Hnull as [|f fields Hf _ IH]; [reflexivity|].
  rewrite !compareRecords_first by done.
  unfold compareValues. rewrite Hf.
  destruct (isNull (f rb)); [exact IH|].
  destruct (VType (f ra)), (VType (f rb)); try exact IH.
  destruct (negb (_ =? _)); [reflexivity|].
  destruct (negb (_ =? _)); [reflexivity|exact IH].
Qed.

Lemma compareValues_nonzero nullsMax (a b : Value) (v : Z) :
  distinctNames a b -> compareValues nullsMax a b = Some v -> v <> 0.
Proof.
  unfold compareValues, distinctNames. intros Hn.
  destruct (isNull a), (isNull b); try discriminate.
  - intros [= <-]. by destruct nullsMax.
  - intros [= <-]. by destruct nullsMax.
  - destruct (VType a) as [ta|], (VType b) as [tb|]; try discriminate.
    destruct (Z.eqb_spec (ID ta) (ID tb)) as [E|E]; simpl.
    + destruct (Z.eqb_spec (lookupSorter ta (VBytes a) (VBytes b)) 0);
        simpl; [discriminate|]. by intros [= <-].
    + intros [= <-] E0. apply (Hn ta tb eq_refl eq_refl E).
      apply CompareList_eq in E0. simpl in E0. unfold typeName in E0.
      rewrite <- (Stdlib.Strings.String.string_of_list_byte_of_string (String ta)),
              <- (Stdlib.Strings.String.string_of_list_byte_of_string (String tb)).
      by f_equal.
Qed.

(** X9.  The comparator for the fields [pre ++ post] is the comparator
    for [pre] where that is not 0 and the comparator for [post] where it
    is, provided that types with different IDs print differently on the
    keys of [pre] (else the comparison of the type names returns 0 and
    ends the comparison there). *)
Theorem NewSortFn_lexicographic nullsMax pre post sorters ra rb
    (Hs : sortersOK sorters)
    (Hn : Forall (fun f => distinctNames (f ra) (f rb)) pre) :
  compareRecords nullsMax (pre ++ post) sorters ra rb
  = if compareRecords nullsMax pre sorters ra rb =? 0
    then compareRecords nullsMax post sorters ra rb
    else compareRecords nullsMax pre sorters ra rb.
Proof.
  induction Hn as [|f pre Hf _ IH]; [reflexivity|].
  simpl. rewrite !compareRecords_first by done.
  destruct (compareValues nullsMax (f ra) (f rb)) as [v|] eqn:E; [|exact IH].
  apply (compareValues_nonzero _ _ _ _ Hf) in E.
  by destruct (Z.eqb_spec v 0).
Qed.

End ComparatorRecords.
End Comparator.

Section ComparatorExamples.
Import CodecModel.

Lemma NewSortFn_range_witness :
  sortersOK (codec := codec) noSorters
  /\ (cmp true [column 0; column 1] [ip4; int7] [ip4; strA] = -1
      \/ cmp true [column 0; column 1] [ip4; int7] [ip4; strA] = 0
      \/ cmp true [column 0; column 1] [ip4; int7] [ip4; strA] = 1).
Proof.
  assert (Hs : sortersOK (codec := codec) noSorters) by apply noSorters_ok.
  exact (conj Hs
    (NewSortFn_range (codec := codec) true [column 0; column 1] noSorters
       [ip4; int7] [ip4; strA] Hs)).
Defined.

Lemma NewSortFn_antisymmetric_witness :
  sortersOK (codec := codec) noSorters
  /\ Forall (fun f => wellFormedValue (codec := codec) (f [ip4; int7]) = true)
       [column 0; column 1]
  /\ Forall (fun f => wellFormedValue (codec := codec) (f [ip4; strA]) = true)
       [column 0; column 1]
  /\ Forall (fun f => sameContext (f [ip4; int7]) (f [ip4; strA]))
       [column 0; column 1]
  /\ cmp true [column 0; column 1] [ip4; strA] [ip4; int7]
     = - cmp true [column 0; column 1] [ip4; int7] [ip4; strA].
Proof.
  assert (Hs : sortersOK (codec := codec) noSorters) by apply noSorters_ok.
  assert (Hwa : Forall (fun f => wellFormedValue (codec := codec)
                                   (f [ip4; int7]) = true)
                  [column 0; column 1]).
  { repeat constructor. }
  assert (Hwb : Forall (fun f => wellFormedValue (codec := codec)
                                   (f [ip4; strA]) = true)
                  [column 0; column 1]).
  { repeat constructor. }
  assert (Hty : Forall (fun f => sameContext (f [ip4; int7]) (f [ip4; strA]))
                  [column 0; column 1]).
  { repeat constructor; intros ta tb [= <-] [= <-] H;
      [reflexivity|discriminate H]. }
  exact (conj Hs (conj Hwa (conj Hwb (conj Hty
    (NewSortFn_antisymmetric (codec := codec) true [column 0; column 1]
       noSorters [ip4; int7] [ip4; strA] Hs Hwa Hwb Hty))))).
Defined.

Lemma NewSortFn_nulls_alike_witness :
  sortersOK (codec := codec) noSorters
  /\ Forall (fun f => isNull (f [ip4; ipNull; int7])
                      = isNull (f [ip4; ipNull; strA]))
       [column 0; column 1; column 2]
  /\ cmp true [column 0; column 1; column 2]
       [ip4; ipNull; int7] [ip4; ipNull; strA]
     = cmp false [column 0; column 1; column 2]
         [ip4; ipNull; int7] [ip4; ipNull; strA].
Proof.
  assert (Hs : sortersOK (codec := codec) noSorters) by apply noSorters_ok.
  assert (Hnull : Forall (fun f => isNull (f [ip4; ipNull; int7])
                                   = isNull (f [ip4; ipNull; strA]))
                    [column 0; column 1; column 2]).
  { repeat constructor. }
  exact (conj Hs (conj Hnull
    (NewSortFn_nulls_alike (codec := codec) [column 0; column 1; column 2]
       noSorters [ip4; ipNull; int7] [ip4; ipNull; strA] Hs Hnull))).
Defined.

Lemma NewSortFn_lexicographic_witness :
  sortersOK (codec := codec) noSorters
  /\ Forall (fun f => distinctNames (f [ip4; int7]) (f [ip4; strA]))
       [column 0]
  /\ cmp true ([column 0] ++ [column 1]) [ip4; int7] [ip4; strA]
     = if cmp true [column 0] [ip4; int7] [ip4; strA] =? 0
       then cmp true [column 1] [ip4; int7] [ip4; strA]
       else cmp true [column 0] [ip4; int7] [ip4; strA].
Proof.
  assert (Hs : sortersOK (codec := codec) noSorters) by apply noSorters_ok.
  assert (Hn : Forall (fun f => distinctNames (f [ip4; int7]) (f [ip4; strA]))
                 [column 0]).
  { repeat constructor. intros ta tb [= <-] [= <-] H. by destruct H. }
  exact (conj Hs (conj Hn
    (NewSortFn_lexicographic (codec := codec) true [column 0] [column 1]
       noSorters [ip4; int7] [ip4; strA] Hs Hn))).
Defined.

End ComparatorExamples.

End ExprFacts.

(** ** Go's [sort.Stable] on a [RecordSlice] *)

Module SortFacts.
Import ExprSort GoSort.

Local Open Scope nat_scope.

Section Order.

Context {Record : Type} (sorter : Expr.SortFn Record).
Context (Hswo : StrictWeakOrder sorter).

Local Abbreviation lt x y := (less sorter x y = true).
Local Abbreviation le x y := (less sorter y x = false).
Implicit Types (x y z : Record) (l : list Record).

Lemma inOrder_le x y : Expr.inOrder sorter x y <-> le x y.
Proof.
  unfold Expr.inOrder, less. destruct (Z.ltb_spec (sorter y x) 0%Z).
  - split; [tauto|discriminate].
  - split; [reflexivity|lia].
Qed.

Lemma le_refl x : le x x.
Proof. apply Hswo. Qed.

Lemma le_trans x y z : le x y -> le y z -> le x z.
Proof. intros H1 H2. by apply (swo_incomparable _ Hswo z y x). Qed.

Lemma lt_le x y : lt x y -> le x y.
Proof.
  intros H. destruct (less sorter y x) eqn:E; [|reflexivity].
  pose proof (swo_trans _ Hswo x y x H E) as C.
  by rewrite (swo_irrefl _ Hswo) in C.
Qed.

Lemma lt_le_trans x y z : lt x y -> le y z -> lt x z.
Proof.
  intros H1 H2. destruct (less sorter x z) eqn:E; [reflexivity|].
  pose proof (swo_incomparable _ Hswo x z y E H2) as C. congruence.
Qed.

Lemma le_lt_trans x y z : le x y -> lt y z -> lt x z.
Proof.
  intros H1 H2. destruct (less sorter x z) eqn:E; [reflexivity|].
  pose proof (swo_incomparable _ Hswo y x z H1 E) as C. congruence.
Qed.

Lemma total x y : le x y \/ lt y x.
Proof. destruct (less sorter y x); auto. Qed.

Lemma equivalent_lt z x y : equivalent sorter z x = true -> lt x y ->
  equivalent sorter z y = false.
Proof.
  unfold equivalent. intros [H1 H2]%andb_prop Hxy.
  apply negb_true_iff in H1, H2.
  by rewrite (le_lt_trans z x y H2 Hxy).
Qed.

Lemma equivalent_gt z x y : equivalent sorter z x = true -> lt y x ->
  equivalent sorter z y = false.
Proof.
  unfold equivalent. intros [H1 H2]%andb_prop Hyx.
  apply negb_true_iff in H1, H2.
  rewrite (lt_le_trans y x z Hyx H1). apply andb_false_r.
Qed.

(** Nothing in [l] is equivalent to [z] when [z] is equivalent to an [x]
    that is below (or above) all of [l]. *)
Lemma filter_above z x l :
  equivalent sorter z x = true -> Forall (fun y => lt x y) l ->
  List.filter (equivalent sorter z) l = [].
Proof.
  intros Hz. induction 1 as [|y l Hy _ IH]; simpl; [reflexivity|].
  by rewrite (equivalent_lt z x y Hz Hy).
Qed.

Lemma filter_below z x l :
  equivalent sorter z x = true -> Forall (fun y => lt y x) l ->
  List.filter (equivalent sorter z) l = [].
Proof.
  intros Hz. induction 1 as [|y l Hy _ IH]; simpl; [reflexivity|].
  by rewrite (equivalent_gt z x y Hz Hy).
Qed.

Local Abbreviation sorted l := (StronglySorted (fun x y => le x y) l).

Lemma sorted_inOrder l : sorted l <-> StronglySorted (Expr.inOrder sorter) l.
Proof.
  split; induction 1 as [|x l Hl IH Hx]; constructor; auto;
    (eapply Forall_impl; [exact Hx|]); intros y; apply inOrder_le.
Qed.

Lemma sorted_app l1 l2 :
  sorted (l1 ++ l2) <->
  sorted l1 /\ sorted l2 /\ Forall (fun x => Forall (fun y => le x y) l2) l1.
Proof.
  induction l1 as [|x l1 IH]; simpl.
  - split; [intros H; repeat split; [constructor|exact H|constructor]|tauto].
  - split.
    + intros H. apply StronglySorted_inv in H as [H1 H2].
      apply IH in H1 as (H1 & H3 & H4). apply Forall_app in H2 as [H2 H5].
      repeat split; try constructor; auto.
    + intros (H1 & H2 & H3). apply StronglySorted_inv in H1 as [H1 H4].
      apply Forall_cons in H3 as [H3 H5]. constructor.
      * apply IH. auto.
      * apply Forall_app. auto.
Qed.

Lemma sorted_cons x l : sorted (x :: l) <-> Forall (fun y => le x y) l /\ sorted l.
Proof.
  split.
  - intros H. apply StronglySorted_inv in H. tauto.
  - intros [H1 H2]. by constructor.
Qed.

Lemma sorted_nil : sorted [].
Proof. constructor. Qed.

Lemma sorted_singleton x : sorted [x].
Proof. repeat constructor. Qed.


(** *** The slice operations of [RecordSlice] *)

Implicit Types (data : RecordSlice Record) (pre post : list Record).

Lemma Less_lookup data i j x y :
  ExprSort.sorter data = sorter ->
  records data !! i = Some x -> records data !! j = Some y ->
  Less data i j = less sorter x y.
Proof.
  intros <- Hi Hj. simpl. unfold ExprSort.Less. by rewrite Hi, Hj.
Qed.

Lemma Swap_lookup data i j x y :
  records data !! i = Some x -> records data !! j = Some y ->
  records (Swap data i j) = <[j := x]> (<[i := y]> (records data))
  /\ ExprSort.sorter (Swap data i j) = ExprSort.sorter data.
Proof. intros Hi Hj. simpl. unfold ExprSort.Swap. by rewrite Hi, Hj. Qed.

Lemma lookup_mid {A} (l1 l2 : list A) (x : A) (i : nat) :
  i = length l1 -> (l1 ++ x :: l2) !! i = Some x.
Proof. intros ->. by apply list_lookup_middle. Qed.

Lemma insert_mid {A} (l1 l2 : list A) (x y : A) (i : nat) :
  i = length l1 -> <[i := y]> (l1 ++ x :: l2) = l1 ++ y :: l2.
Proof.
  intros ->. rewrite insert_app_r_alt by lia. by rewrite Nat.sub_diag.
Qed.

Lemma app_mid2 {A} (l1 l2 l3 : list A) (x y : A) :
  l1 ++ x :: l2 ++ y :: l3 = (l1 ++ x :: l2) ++ y :: l3.
Proof. by rewrite <- app_assoc. Qed.

(** Swapping the elements at two positions of the slice. *)
Lemma Swap_spec data l1 x l2 y l3 i j :
  records data = l1 ++ x :: l2 ++ y :: l3 ->
  i = length l1 -> j = length l1 + S (length l2) ->
  records (Swap data i j) = l1 ++ y :: l2 ++ x :: l3
  /\ records (Swap data j i) = l1 ++ y :: l2 ++ x :: l3
  /\ ExprSort.sorter (Swap data i j) = ExprSort.sorter data
  /\ ExprSort.sorter (Swap data j i) = ExprSort.sorter data.
Proof.
  intros E Hi Hj.
  assert (Hj' : forall z, j = length (l1 ++ z :: l2)).
  { intros z. rewrite length_app. simpl. lia. }
  assert (Hx : records data !! i = Some x) by (rewrite E; by apply lookup_mid).
  assert (Hy : records data !! j = Some y).
  { rewrite E, app_mid2. by apply lookup_mid. }
  destruct (Swap_lookup data i j x y Hx Hy) as [-> ->].
  destruct (Swap_lookup data j i y x Hy Hx) as [-> ->].
  rewrite E. repeat split.
  - rewrite (insert_mid l1 _ x y i Hi), app_mid2.
    rewrite (insert_mid _ l3 y x j) by done. by rewrite <- app_mid2.
  - rewrite app_mid2.
    rewrite (insert_mid _ l3 y x j) by done. rewrite <- app_mid2.
    by rewrite (insert_mid l1 _ x y i Hi).
Qed.

Lemma Swap_adjacent data pre p x post j :
  ExprSort.sorter data = sorter ->
  records data = pre ++ p :: x :: post -> j = length pre ->
  records (Swap data (S j) j) = pre ++ x :: p :: post
  /\ records (Swap data j (j + 1)) = pre ++ x :: p :: post
  /\ ExprSort.sorter (Swap data (S j) j) = sorter
  /\ ExprSort.sorter (Swap data j (j + 1)) = sorter.
Proof.
  intros Hs E ->.
  destruct (Swap_spec data pre p [] x post (length pre) (S (length pre)) E)
    as (H1 & H2 & H3 & H4); [done|simpl; lia|].
  rewrite Nat.add_1_r. rewrite H1, H2, H3, H4. auto.
Qed.

(** *** [insertionSort] *)

Lemma insertDown_S data a j :
  insertDown data a (S j)
  = if (a <? S j) && Less data (S j) j then insertDown (Swap data (S j) j) a j
    else data.
Proof. reflexivity. Qed.

Lemma insertDown_spec P : forall data pre x post,
  ExprSort.sorter data = sorter ->
  records data = pre ++ P ++ x :: post ->
  exists P1 P2, P = P1 ++ P2
    /\ records (insertDown data (length pre) (length pre + length P))
       = pre ++ P1 ++ x :: P2 ++ post
    /\ ExprSort.sorter (insertDown data (length pre) (length pre + length P))
       = sorter
    /\ Forall (fun p => lt x p) P2
    /\ (forall P1' p, P1 = P1' ++ [p] -> le p x).
Proof.
  induction P as [|p P IH] using rev_ind; intros data pre x post Hs E.
  - exists [], []. rewrite Nat.add_0_r. simpl in *.
    assert (Hid : insertDown data (length pre) (length pre) = data).
    { destruct (length pre) as [|a] eqn:Ea; [reflexivity|].
      rewrite insertDown_S. by rewrite Nat.ltb_irrefl. }
    rewrite Hid. repeat split; auto.
    intros P1' p' HP. by destruct P1'.
  - rewrite length_app. simpl.
    replace (length pre + (length P + 1)) with (S (length pre + length P))
      by lia.
    rewrite insertDown_S.
    assert (Hlt : (length pre <? S (length pre + length P)) = true)
      by (apply Nat.ltb_lt; lia).
    rewrite Hlt, andb_true_l.
    rewrite <- app_assoc in E. simpl in E.
    assert (E' : records data = (pre ++ P) ++ p :: x :: post)
      by (by rewrite <- app_assoc).
    rewrite (Less_lookup data _ _ x p Hs).
    2:{ rewrite E'. rewrite (app_mid2 _ [] post p x). apply lookup_mid.
        rewrite !length_app. simpl. lia. }
    2:{ rewrite E'. apply lookup_mid. by rewrite length_app. }
    destruct (less sorter x p) eqn:Hxp.
    + destruct (Swap_adjacent data (pre ++ P) p x post (length pre + length P)
                  Hs E') as (H1 & _ & H3 & _); [by rewrite length_app|].
      rewrite <- app_assoc in H1.
      destruct (IH _ pre x (p :: post) H3 H1) as (P1 & P2 & -> & R1 & R2 & R3 & R4).
      exists P1, (P2 ++ [p]). rewrite <- !app_assoc. repeat split; auto.
      * apply Forall_app. split; [exact R3|by repeat constructor].
    + exists (P ++ [p]), []. rewrite <- !app_assoc, app_nil_r. simpl.
      repeat split; auto.
      intros P1' p' HP. apply app_inj_tail in HP as [_ <-]. exact Hxp.
Qed.


(** [out] is [l] sorted stably, in terms of [le]. *)
Local Abbreviation ssv l out :=
  (@Permutation Record l out /\ sorted out
   /\ forall z, List.filter (equivalent sorter z) out
                = List.filter (equivalent sorter z) l).

Lemma ssv_StableSorted l out : ssv l out <-> StableSorted sorter l out.
Proof. unfold StableSorted. by rewrite sorted_inOrder. Qed.

Lemma ssv_nil : ssv [] [].
Proof. split; [constructor|split; [constructor|reflexivity]]. Qed.

Lemma sorted_last_le l p y : sorted (l ++ [p]) -> y ∈ l ++ [p] -> le y p.
Proof.
  intros [H1 [_ H3]]%sorted_app [Hy|Hy]%elem_of_app.
  - rewrite Forall_forall in H3. specialize (H3 y Hy).
    by inversion H3.
  - apply list_elem_of_singleton in Hy as ->. apply le_refl.
Qed.

(** Putting [x] after the part of a sorted list that is not above it. *)
Lemma insert_sorted P1 P2 x :
  sorted (P1 ++ P2) ->
  Forall (fun p => lt x p) P2 ->
  (forall P1' p, P1 = P1' ++ [p] -> le p x) ->
  sorted (P1 ++ x :: P2)
  /\ forall z, List.filter (equivalent sorter z) (P1 ++ x :: P2)
               = List.filter (equivalent sorter z) ((P1 ++ P2) ++ [x]).
Proof.
  intros (S1 & S2 & S3)%sorted_app Hab Hbelow.
  assert (Hlow : forall p1, p1 ∈ P1 -> le p1 x).
  { clear S3. revert S1 Hbelow.
    induction P1 as [|p0 P1' _] using rev_ind; intros S1 Hbelow p1 Hp1.
    - by inversion Hp1.
    - eapply le_trans; [|by eapply Hbelow].
      by apply (sorted_last_le P1'). }
  split.
  - apply sorted_app. split; [exact S1|]. split.
    + apply sorted_cons. split; [|exact S2].
      eapply Forall_impl; [exact Hab|]. intros p. apply lt_le.
    + apply Forall_forall. intros p1 Hp1. constructor.
      * by apply Hlow.
      * exact (proj1 (Forall_forall _ _) S3 p1 Hp1).
  - intros z. rewrite !List.filter_app. simpl.
    destruct (equivalent sorter z x) eqn:Hz.
    + by rewrite (filter_above z x P2 Hz Hab), app_nil_r.
    + by rewrite app_nil_r.
Qed.

Lemma insertionLoop_S count data a i :
  insertionLoop (S count) data a i
  = insertionLoop count (insertDown data a i) a (S i).
Proof. reflexivity. Qed.

Lemma insertionLoop_spec U : forall data pre S0 S1 post,
  ExprSort.sorter data = sorter ->
  records data = pre ++ S1 ++ U ++ post ->
  ssv S0 S1 ->
  exists S',
    records (insertionLoop (length U) data (length pre)
               (length pre + length S1)) = pre ++ S' ++ post
    /\ ExprSort.sorter (insertionLoop (length U) data (length pre)
                          (length pre + length S1)) = sorter
    /\ ssv (S0 ++ U) S'.
Proof.
  induction U as [|x U IH]; intros data pre S0 S1 post Hs E Hssv.
  - exists S1. rewrite app_nil_r. simpl in *. auto.
  - simpl length. rewrite insertionLoop_S.
    destruct (insertDown_spec S1 data pre x (U ++ post) Hs E)
      as (P1 & P2 & -> & R1 & R2 & R3 & R4).
    destruct Hssv as (Hperm & Hsorted & Hfilter).
    destruct (insert_sorted P1 P2 x Hsorted R3 R4) as [I1 I2].
    destruct (IH _ pre (S0 ++ [x]) (P1 ++ x :: P2) post R2) as (S' & F1 & F2 & F3).
    { rewrite R1. by rewrite <- !app_assoc. }
    { split; [|split; [exact I1|]].
      - etrans; [apply Permutation_app_comm|]. simpl.
        etrans; [|apply Permutation_middle]. by constructor.
      - intros z.
        rewrite I2, (List.filter_app _ (P1 ++ P2)), (List.filter_app _ S0).
        by rewrite Hfilter. }
    exists S'. rewrite <- app_assoc in F3. simpl in F3.
    replace (S (length pre + length (P1 ++ P2)))
      with (length pre + length (P1 ++ x :: P2))
      by (rewrite !length_app; simpl; lia).
    auto.
Qed.

(** [insertionSort] sorts the block [a..b) stably and keeps the rest. *)
Lemma insertionSort_spec data pre B post :
  ExprSort.sorter data = sorter ->
  records data = pre ++ B ++ post ->
  exists B',
    records (insertionSort data (length pre) (length pre + length B))
    = pre ++ B' ++ post
    /\ ExprSort.sorter (insertionSort data (length pre)
                          (length pre + length B)) = sorter
    /\ ssv B B'.
Proof.
  intros Hs E. unfold insertionSort. destruct B as [|x U].
  - exists []. simpl length.
    replace (length pre + 0 - (length pre + 1)) with 0 by lia.
    simpl. split; [exact E|split; [exact Hs|apply ssv_nil]].
  - simpl length.
    replace (length pre + S (length U) - (length pre + 1)) with (length U)
      by lia.
    destruct (insertionLoop_spec U data pre [x] [x] post Hs E)
      as (S' & F1 & F2 & F3).
    { repeat split; auto. apply sorted_singleton. }
    exists S'. simpl length in F1, F2. auto.
Qed.


(** *** The loops of [symMerge] *)

Lemma swapUp_S count data k :
  swapUp (S count) data k = swapUp count (Swap data k (k + 1)) (S k).
Proof. reflexivity. Qed.

Lemma swapRangeLoop_S count data a b i :
  swapRangeLoop (S count) data a b i
  = swapRangeLoop count (Swap data (a + i) (b + i)) a b (S i).
Proof. reflexivity. Qed.

Lemma swapUp_spec R1 : forall data pre x post,
  ExprSort.sorter data = sorter ->
  records data = pre ++ x :: R1 ++ post ->
  records (swapUp (length R1) data (length pre)) = pre ++ R1 ++ x :: post
  /\ ExprSort.sorter (swapUp (length R1) data (length pre)) = sorter.
Proof.
  induction R1 as [|r R1 IH]; intros data pre x post Hs E; [by auto|].
  simpl length. rewrite swapUp_S.
  destruct (Swap_adjacent data pre x r (R1 ++ post) (length pre) Hs E eq_refl)
    as (_ & H2 & _ & H4).
  destruct (IH _ (pre ++ [r]) x post H4) as [F1 F2].
  { rewrite H2. by rewrite <- app_assoc. }
  replace (length (pre ++ [r])) with (S (length pre)) in F1, F2
    by (rewrite length_app; simpl; lia).
  rewrite F1, F2. by rewrite <- app_assoc.
Qed.

Lemma swapDown_S data i k :
  swapDown data i (S k)
  = if i <? S k then swapDown (Swap data (S k) k) i k else data.
Proof. reflexivity. Qed.

Lemma swapDown_spec L2 : forall data pre y post,
  ExprSort.sorter data = sorter ->
  records data = pre ++ L2 ++ y :: post ->
  records (swapDown data (length pre) (length pre + length L2))
  = pre ++ y :: L2 ++ post
  /\ ExprSort.sorter (swapDown data (length pre) (length pre + length L2))
     = sorter.
Proof.
  induction L2 as [|l L2 IH] using rev_ind; intros data pre y post Hs E.
  - rewrite Nat.add_0_r.
    assert (Hid : swapDown data (length pre) (length pre) = data).
    { destruct (length pre) as [|a] eqn:Ea; [reflexivity|].
      rewrite swapDown_S. by rewrite Nat.ltb_irrefl. }
    rewrite Hid. auto.
  - rewrite length_app. simpl.
    replace (length pre + (length L2 + 1)) with (S (length pre + length L2))
      by lia.
    rewrite swapDown_S.
    assert (Hlt : (length pre <? S (length pre + length L2)) = true)
      by (apply Nat.ltb_lt; lia).
    rewrite Hlt. rewrite <- app_assoc in E. simpl in E.
    assert (E' : records data = (pre ++ L2) ++ l :: y :: post)
      by (by rewrite <- app_assoc).
    destruct (Swap_adjacent data (pre ++ L2) l y post (length pre + length L2)
                Hs E') as (H1 & _ & H3 & _); [by rewrite length_app|].
    rewrite <- app_assoc in H1.
    destruct (IH _ pre y (l :: post) H3 H1) as [F1 F2].
    rewrite F1, F2. by rewrite <- !app_assoc.
Qed.

Lemma searchLoop_S (cond : nat -> bool) fuel i j :
  searchLoop (S fuel) cond i j
  = if i <? j then
      if cond ((i + j) / 2) then searchLoop fuel cond ((i + j) / 2 + 1) j
      else searchLoop fuel cond i ((i + j) / 2)
    else i.
Proof. reflexivity. Qed.

Lemma half_between i j : i < j -> i <= (i + j) / 2 < j.
Proof.
  intros H. pose proof (Nat.div_mod_eq (i + j) 2) as D.
  pose proof (Nat.mod_upper_bound (i + j) 2). lia.
Qed.

Lemma searchLoop_spec (cond : nat -> bool) fuel : forall i j,
  i <= j -> j - i <= fuel ->
  i <= searchLoop fuel cond i j <= j
  /\ (searchLoop fuel cond i j = i
      \/ cond (searchLoop fuel cond i j - 1) = true)
  /\ (searchLoop fuel cond i j = j
      \/ cond (searchLoop fuel cond i j) = false).
Proof.
  induction fuel as [|fuel IH]; intros i j Hij Hfuel.
  - simpl. assert (i = j) as -> by lia. auto.
  - rewrite searchLoop_S. destruct (Nat.ltb_spec i j) as [Hlt|Hge].
    + pose proof (half_between i j Hlt) as Hh.
      destruct (cond ((i + j) / 2)) eqn:Hc.
      * destruct (IH ((i + j) / 2 + 1) j) as (B & C & F); [lia..|].
        split; [lia|]. split; [right|exact F].
        destruct C as [E|C]; [|exact C]. rewrite E. by rewrite Nat.add_sub.
      * destruct (IH i ((i + j) / 2)) as (B & C & F); [lia..|].
        split; [lia|]. split; [exact C|right].
        destruct F as [E|F]; [|exact F]. by rewrite E.
    + assert (i = j) as -> by lia. auto.
Qed.

Lemma search_spec (cond : nat -> bool) i j :
  i <= j ->
  i <= search cond i j <= j
  /\ (search cond i j = i \/ cond (search cond i j - 1) = true)
  /\ (search cond i j = j \/ cond (search cond i j) = false).
Proof. intros H. by apply searchLoop_spec. Qed.

(** *** [rotate] *)

Lemma swapRangeLoop_spec X2 : forall Y2 data pre X1 Y1 mid post a b,
  ExprSort.sorter data = sorter ->
  length Y2 = length X2 -> length X1 = length Y1 ->
  a = length pre -> b = length pre + length X1 + length X2 + length mid ->
  records data = pre ++ Y1 ++ X2 ++ mid ++ X1 ++ Y2 ++ post ->
  records (swapRangeLoop (length X2) data a b (length X1))
  = pre ++ Y1 ++ Y2 ++ mid ++ X1 ++ X2 ++ post
  /\ ExprSort.sorter (swapRangeLoop (length X2) data a b (length X1)) = sorter.
Proof.
  induction X2 as [|x X2 IH];
    intros Y2 data pre X1 Y1 mid post a b Hs HY HX Ha Hb E.
  - destruct Y2; [|discriminate]. simpl in *. auto.
  - destruct Y2 as [|y Y2]; [discriminate|]. simpl in HY. simpl length.
    rewrite swapRangeLoop_S.
    assert (E' : records data
                 = (pre ++ Y1) ++ x :: (X2 ++ mid ++ X1) ++ y :: Y2 ++ post).
    { rewrite E. by rewrite <- !app_assoc. }
    destruct (Swap_spec data (pre ++ Y1) x (X2 ++ mid ++ X1) y (Y2 ++ post)
                (a + length X1) (b + length X1) E') as (H1 & _ & H3 & _).
    { rewrite length_app. lia. }
    { rewrite !length_app. simpl in Hb. lia. }
    destruct (IH Y2 (Swap data (a + length X1) (b + length X1))
                pre (X1 ++ [x]) (Y1 ++ [y]) mid post a b) as [F1 F2].
    { by rewrite H3. }
    { lia. }
    { rewrite !length_app. simpl. lia. }
    { exact Ha. }
    { rewrite length_app. simpl in *. lia. }
    { rewrite H1. by rewrite <- !app_assoc. }
    replace (length (X1 ++ [x])) with (S (length X1)) in F1, F2
      by (rewrite length_app; simpl; lia).
    rewrite F1, F2. by rewrite <- !app_assoc.
Qed.

(** [swapRange] exchanges two blocks of equal length. *)
Lemma swapRange_spec data pre X mid Y post a b n :
  ExprSort.sorter data = sorter ->
  length X = n -> length Y = n ->
  a = length pre -> b = length pre + n + length mid ->
  records data = pre ++ X ++ mid ++ Y ++ post ->
  records (swapRange data a b n) = pre ++ Y ++ mid ++ X ++ post
  /\ ExprSort.sorter (swapRange data a b n) = sorter.
Proof.
  intros Hs HX HY Ha Hb E. unfold swapRange. subst n.
  destruct (swapRangeLoop_spec X Y data pre [] [] mid post a b) as [F1 F2];
    simpl; auto; lia.
Qed.


Lemma rotateLoop_S fuel data m i j :
  rotateLoop (S fuel) data m i j
  = if negb (i =? j) then
      if j <? i then rotateLoop fuel (swapRange data (m - i) m j) m (i - j) j
      else rotateLoop fuel (swapRange data (m - i) (m + j - i) i) m i (j - i)
    else (data, i).
Proof. reflexivity. Qed.

Lemma rotateLoop_spec fuel : forall data pre X Y post m,
  ExprSort.sorter data = sorter ->
  0 < length X -> 0 < length Y -> length X + length Y <= fuel ->
  m = length pre + length X ->
  records data = pre ++ X ++ Y ++ post ->
  records (swapRange (rotateLoop fuel data m (length X) (length Y)).1
             (m - (rotateLoop fuel data m (length X) (length Y)).2) m
             (rotateLoop fuel data m (length X) (length Y)).2)
  = pre ++ Y ++ X ++ post
  /\ ExprSort.sorter
       (swapRange (rotateLoop fuel data m (length X) (length Y)).1
          (m - (rotateLoop fuel data m (length X) (length Y)).2) m
          (rotateLoop fuel data m (length X) (length Y)).2) = sorter.
Proof.
  induction fuel as [|fuel IH]; intros data pre X Y post m Hs HX HY Hfuel Hm E;
    [lia|].
  rewrite rotateLoop_S.
  destruct (Nat.eqb_spec (length X) (length Y)) as [Heq|Hne]; simpl negb; cbv iota.
  - simpl fst; simpl snd.
    destruct (swapRange_spec data pre X [] Y post (m - length X) m (length X))
      as [F1 F2]; simpl; auto; lia.
  - destruct (Nat.ltb_spec (length Y) (length X)) as [Hlt|Hge].
    + (* the left block is longer: its head goes where [Y] was *)
      rewrite <- (take_drop (length Y) X) in E.
      set (X1 := take (length Y) X) in E. set (X2 := drop (length Y) X) in E.
      assert (L1 : length X1 = length Y) by (apply length_take_le; lia).
      assert (L2 : length X2 = length X - length Y) by apply length_drop.
      rewrite <- app_assoc in E.
      destruct (swapRange_spec data pre X1 X2 Y post (m - length X) m
                  (length Y)) as [F1 F2]; auto; try lia.
      rewrite <- L2.
      destruct (IH _ (pre ++ Y) X2 X1 post m F2) as [G1 G2];
        try lia.
      { rewrite length_app. lia. }
      { rewrite F1. by rewrite <- !app_assoc. }
      rewrite L1 in G1, G2. rewrite G1, G2.
      split; [|reflexivity]. rewrite <- !app_assoc.
      unfold X1, X2. by rewrite (app_assoc (take _ _)), take_drop.
    + (* the right block is longer: its tail goes where [X] was *)
      assert (Hlt : length X < length Y) by lia.
      rewrite <- (take_drop (length Y - length X) Y) in E.
      set (Y1 := take (length Y - length X) Y) in E.
      set (Y2 := drop (length Y - length X) Y) in E.
      assert (L1 : length Y1 = length Y - length X)
        by (apply length_take_le; lia).
      assert (L2 : length Y2 = length X) by (unfold Y2; rewrite length_drop; lia).
      rewrite <- app_assoc in E.
      destruct (swapRange_spec data pre X Y1 Y2 post (m - length X)
                  (m + length Y - length X) (length X)) as [F1 F2];
        auto; try lia.
      set (d := swapRange data _ _ _) in *.
      rewrite <- L1, <- L2.
      destruct (IH d pre Y2 Y1 (X ++ post) m F2) as [G1 G2]; try lia.
      { exact F1. }
      rewrite G1, G2.
      split; [|reflexivity]. rewrite !app_assoc. do 2 f_equal.
      unfold Y1, Y2. rewrite <- app_assoc. by rewrite take_drop.
Qed.

(** [rotate] exchanges two adjacent blocks. *)
Lemma rotate_spec data pre X Y post a m b :
  ExprSort.sorter data = sorter ->
  0 < length X -> 0 < length Y ->
  a = length pre -> m = a + length X -> b = m + length Y ->
  records data = pre ++ X ++ Y ++ post ->
  records (rotate data a m b) = pre ++ Y ++ X ++ post
  /\ ExprSort.sorter (rotate data a m b) = sorter.
Proof.
  intros Hs HX HY -> -> -> E. unfold rotate.
  replace (length pre + length X - length pre) with (length X) by lia.
  replace (length pre + length X + length Y - (length pre + length X))
    with (length Y) by lia.
  destruct (rotateLoop_spec (length X + length Y) data pre X Y post
              (length pre + length X) Hs HX HY (le_n _) eq_refl E) as [F1 F2].
  destruct (rotateLoop _ _ _ _ _) as [data' i']. auto.
Qed.


(** *** Sorted lists and their parts *)

Lemma sorted_lookup l i j x y :
  sorted l -> i <= j -> l !! i = Some x -> l !! j = Some y -> le x y.
Proof.
  intros Hl. revert i j. induction Hl as [|a l Hl IH Ha]; intros i j Hij Hi Hj.
  - by rewrite lookup_nil in Hi.
  - destruct i as [|i], j as [|j]; simpl in *; try lia.
    + injection Hi as <-. injection Hj as <-. apply le_refl.
    + injection Hi as <-. rewrite Forall_forall in Ha. apply Ha.
      by eapply list_elem_of_lookup_2.
    + apply (IH i j); [lia|done..].
Qed.

Lemma sorted_take l k : sorted l -> sorted (take k l).
Proof.
  intros H. rewrite <- (take_drop k l) in H. by apply sorted_app in H as [? _].
Qed.

Lemma sorted_drop l k : sorted l -> sorted (drop k l).
Proof.
  intros H. rewrite <- (take_drop k l) in H.
  by apply sorted_app in H as (_ & ? & _).
Qed.

(** The elements before position [k] are below the one at [k - 1]. *)
Lemma take_le_last l k p :
  sorted l -> 0 < k -> l !! (k - 1) = Some p ->
  Forall (fun r => le r p) (take k l).
Proof.
  intros Hl Hk Hp. apply Forall_forall. intros r Hr.
  apply list_elem_of_lookup_1 in Hr as [i Hi].
  apply lookup_take_Some in Hi as [Hi Hik].
  apply (sorted_lookup l i (k - 1)); [done|lia|done..].
Qed.

(** The elements from position [k] on are above the one at [k]. *)
Lemma drop_ge_first l k p :
  sorted l -> l !! k = Some p -> Forall (fun r => le p r) (drop k l).
Proof.
  intros Hl Hp. apply Forall_forall. intros r Hr.
  apply list_elem_of_lookup_1 in Hr as [i Hi]. rewrite lookup_drop in Hi.
  apply (sorted_lookup l k (k + i)); [done|lia|done..].
Qed.

(** Putting [x] before the part of a sorted list that is not below it. *)
Lemma insert_sorted_left R1 R2 x :
  sorted (R1 ++ R2) ->
  Forall (fun r => lt r x) R1 ->
  Forall (fun r => le x r) R2 ->
  sorted (R1 ++ x :: R2)
  /\ forall z, List.filter (equivalent sorter z) (R1 ++ x :: R2)
               = List.filter (equivalent sorter z) ([x] ++ R1 ++ R2).
Proof.
  intros (S1 & S2 & S3)%sorted_app Hlow Hhigh. split.
  - apply sorted_app. split; [exact S1|]. split.
    + by apply sorted_cons.
    + apply Forall_forall. intros r Hr. constructor.
      * apply lt_le. by apply (proj1 (Forall_forall _ _) Hlow).
      * exact (proj1 (Forall_forall _ _) S3 r Hr).
  - intros z. rewrite !List.filter_app. simpl.
    destruct (equivalent sorter z x) eqn:Hz; [|reflexivity].
    by rewrite (filter_below z x R1 Hz Hlow).
Qed.

Lemma ssv_refl l : sorted l -> ssv l l.
Proof. by repeat split. Qed.

Lemma ssv_length l out : ssv l out -> length out = length l.
Proof. intros [H _]. by rewrite H. Qed.

(** Two stably sorted blocks side by side, merged. *)
Lemma ssv_app A A' B B' M :
  ssv A A' -> ssv B B' -> ssv (A' ++ B') M -> ssv (A ++ B) M.
Proof.
  intros (PA & _ & FA) (PB & _ & FB) (PM & SM & FM).
  split; [by rewrite PA, PB|]. split; [exact SM|].
  intros z. by rewrite FM, !List.filter_app, FA, FB.
Qed.

Lemma filter_elem z l x :
  x ∈ List.filter (equivalent sorter z) l ->
  x ∈ l /\ equivalent sorter z x = true.
Proof.
  rewrite list_elem_of_In, List.filter_In, <- list_elem_of_In. tauto.
Qed.

(** The two halves that [symMerge] merges on its own give the merge of
    the whole. *)
Lemma merge_split (L1 L2 R1 R2 M1 M2 : list Record) :
  sorted (L1 ++ L2) -> sorted (R1 ++ R2) ->
  Forall (fun u => Forall (fun v => le u v) R2) L1 ->
  Forall (fun v => Forall (fun u => lt v u) L2) R1 ->
  ssv (L1 ++ R1) M1 -> ssv (L2 ++ R2) M2 ->
  ssv ((L1 ++ L2) ++ R1 ++ R2) (M1 ++ M2).
Proof.
  intros (SL1 & SL2 & SL)%sorted_app (SR1 & SR2 & SR)%sorted_app HLR HRL
    (P1 & S1 & F1) (P2 & S2 & F2).
  split; [|split].
  - rewrite <- P1, <- P2. rewrite <- !app_assoc. apply Permutation_app_head.
    rewrite !app_assoc. apply Permutation_app_tail, Permutation_app_comm.
  - apply sorted_app. split; [exact S1|]. split; [exact S2|].
    apply Forall_forall. intros x Hx. apply Forall_forall. intros y Hy.
    rewrite <- P1 in Hx. rewrite <- P2 in Hy.
    apply elem_of_app in Hx as [Hx|Hx], Hy as [Hy|Hy].
    + exact (proj1 (Forall_forall _ _)
               (proj1 (Forall_forall _ _) SL x Hx) y Hy).
    + exact (proj1 (Forall_forall _ _)
               (proj1 (Forall_forall _ _) HLR x Hx) y Hy).
    + apply lt_le.
      exact (proj1 (Forall_forall _ _)
               (proj1 (Forall_forall _ _) HRL x Hx) y Hy).
    + exact (proj1 (Forall_forall _ _)
               (proj1 (Forall_forall _ _) SR x Hx) y Hy).
  - intros z. rewrite List.filter_app, F1, F2, !List.filter_app.
    rewrite <- !app_assoc. f_equal. rewrite !app_assoc. f_equal.
    destruct (List.filter (equivalent sorter z) R1) as [|r fR1] eqn:E;
      [by rewrite app_nil_r|].
    assert (Hr : r ∈ List.filter (equivalent sorter z) R1)
      by (rewrite E; constructor).
    apply filter_elem in Hr as [Hr Hz].
    rewrite (filter_above z r L2 Hz); [by rewrite app_nil_r|].
    exact (proj1 (Forall_forall _ _) HRL r Hr).
Qed.


Lemma insert_sorted_right P1 P2 x :
  sorted (P1 ++ P2) ->
  Forall (fun p => le p x) P1 ->
  Forall (fun p => lt x p) P2 ->
  sorted (P1 ++ x :: P2)
  /\ forall z, List.filter (equivalent sorter z) (P1 ++ x :: P2)
               = List.filter (equivalent sorter z) ((P1 ++ P2) ++ [x]).
Proof.
  intros Hs Hlow Hhigh. apply insert_sorted; [done..|].
  intros P1' p ->. apply Forall_app in Hlow as [_ Hp]. by inversion Hp.
Qed.

(** *** [symMerge] *)

(** The slice holds a block [L] at [a..m) and a block [R] at [m..b). *)
Lemma lookup_left data pre L R post h :
  records data = pre ++ L ++ R ++ post ->
  length pre <= h < length pre + length L ->
  records data !! h = L !! (h - length pre).
Proof.
  intros -> Hh. rewrite lookup_app_r by lia. by rewrite lookup_app_l by lia.
Qed.

Lemma lookup_right data pre L R post h :
  records data = pre ++ L ++ R ++ post ->
  length pre + length L <= h < length pre + length L + length R ->
  records data !! h = R !! (h - (length pre + length L)).
Proof.
  intros -> Hh. rewrite lookup_app_r by lia. rewrite lookup_app_r by lia.
  rewrite lookup_app_l by lia. f_equal. lia.
Qed.

Lemma symMergeRec_S fuel data a m b :
  symMergeRec (S fuel) data a m b
  = if m - a =? 1 then
      let i := search (fun h => Less data h a) m b in
      swapUp (i - 1 - a) data a
    else if b - m =? 1 then
      let i := search (fun h => negb (Less data m h)) a m in
      swapDown data i m
    else
      let mid := (a + b) / 2 in
      let n := mid + m in
      let '(start, r) := if mid <? m then (n - b, mid) else (a, m) in
      let p := n - 1 in
      let start := search (fun c => negb (Less data (p - c) c)) start r in
      let end_ := n - start in
      let data :=
        if (start <? m) && (m <? end_) then rotate data start m end_
        else data in
      let data :=
        if (a <? start) && (start <? mid)
        then symMergeRec fuel data a start mid else data in
      if (mid <? end_) && (end_ <? b)
      then symMergeRec fuel data mid end_ b else data.
Proof. reflexivity. Qed.

(** A single element on the left: it is inserted into [R] by binary
    search, before the first element that is not below it. *)
Lemma symMerge_single_left data pre x R post a m b :
  ExprSort.sorter data = sorter ->
  records data = pre ++ [x] ++ R ++ post ->
  a = length pre -> m = a + 1 -> b = m + length R ->
  sorted R ->
  exists M,
    records (swapUp (search (fun h => Less data h a) m b - 1 - a) data a)
    = pre ++ M ++ post
    /\ ExprSort.sorter
         (swapUp (search (fun h => Less data h a) m b - 1 - a) data a) = sorter
    /\ ssv ([x] ++ R) M.
Proof.
  intros Hs E -> -> -> HR.
  set (a := length pre). set (m := a + 1).
  destruct (search_spec (fun h => Less data h a) m (m + length R))
    as (B & C & F); [lia|].
  set (i := search _ m _) in *.
  set (k := i - m).
  assert (Hx : records data !! a = Some x).
  { rewrite (lookup_left data pre [x] R post a E) by (simpl; lia).
    by rewrite Nat.sub_diag. }
  assert (Hless : forall h r, m <= h < m + length R -> R !! (h - m) = Some r ->
            Less data h a = less sorter r x).
  { intros h r Hh Hr. apply Less_lookup; [done| |done].
    rewrite (lookup_right data pre [x] R post h E) by (simpl; lia).
    rewrite <- Hr. f_equal; simpl; lia. }
  assert (Hlow : Forall (fun r => lt r x) (take k R)).
  { destruct (decide (k = 0)) as [->|Hk]; [constructor|].
    destruct C as [C|C]; [lia|].
    destruct (lookup_lt_is_Some_2 R (k - 1)) as [p Hp]; [lia|].
    rewrite (Hless (i - 1) p) in C; [|lia|rewrite <- Hp; f_equal; lia].
    eapply Forall_impl; [apply (take_le_last R k p HR); [lia|done]|].
    intros r Hr. by apply (le_lt_trans r p x). }
  assert (Hhigh : Forall (fun r => le x r) (drop k R)).
  { destruct F as [F|F].
    - rewrite drop_ge by lia. constructor.
    - destruct (decide (k < length R)) as [Hk|Hk];
        [|rewrite drop_ge by lia; constructor].
      destruct (lookup_lt_is_Some_2 R k) as [p Hp]; [lia|].
      rewrite (Hless i p) in F; [|lia|done].
      eapply Forall_impl; [apply (drop_ge_first R k p HR Hp)|].
      intros r Hr. by apply (le_trans x p r). }
  assert (HR' : sorted (take k R ++ drop k R)) by (by rewrite take_drop).
  destruct (insert_sorted_left _ _ x HR' Hlow Hhigh) as [I1 I2].
  assert (Hlen : length (take k R) = i - 1 - a)
    by (rewrite length_take_le; lia).
  destruct (swapUp_spec (take k R) data pre x (drop k R ++ post) Hs)
    as [F1 F2].
  { rewrite E. simpl. by rewrite app_assoc, take_drop. }
  rewrite Hlen in F1, F2. fold a in F1, F2.
  exists (take k R ++ x :: drop k R). rewrite F1, F2.
  split; [by rewrite <- app_assoc|]. split; [reflexivity|].
  split; [|split; [exact I1|]].
  - simpl. etrans; [|apply Permutation_middle]. by rewrite take_drop.
  - intros z. rewrite I2. by rewrite take_drop.
Qed.

(** A single element on the right: it is inserted into [L] by binary
    search, before the first element above it. *)
Lemma symMerge_single_right data pre L y post a m b :
  ExprSort.sorter data = sorter ->
  records data = pre ++ L ++ [y] ++ post ->
  a = length pre -> m = a + length L -> b = m + 1 ->
  sorted L ->
  exists M,
    records (swapDown data (search (fun h => negb (Less data m h)) a m) m)
    = pre ++ M ++ post
    /\ ExprSort.sorter
         (swapDown data (search (fun h => negb (Less data m h)) a m) m)
       = sorter
    /\ ssv (L ++ [y]) M.
Proof.
  intros Hs E -> -> -> HL.
  set (a := length pre). set (m := a + length L).
  destruct (search_spec (fun h => negb (Less data m h)) a m)
    as (B & C & F); [lia|].
  set (i := search _ a m) in *.
  set (k := i - a).
  assert (Hy : records data !! m = Some y).
  { rewrite (lookup_right data pre L [y] post m E) by (simpl; lia).
    by rewrite Nat.sub_diag. }
  assert (Hless : forall h r, a <= h < m -> L !! (h - a) = Some r ->
            Less data m h = less sorter y r).
  { intros h r Hh Hl. apply Less_lookup; [done..|].
    by rewrite (lookup_left data pre L [y] post h E) by lia. }
  assert (Hlow : Forall (fun r => le r y) (take k L)).
  { destruct (decide (k = 0)) as [->|Hk]; [constructor|].
    destruct C as [C|C]; [lia|].
    destruct (lookup_lt_is_Some_2 L (k - 1)) as [p Hp]; [lia|].
    rewrite (Hless (i - 1) p) in C; [|lia|rewrite <- Hp; f_equal; lia].
    apply negb_true_iff in C.
    eapply Forall_impl; [apply (take_le_last L k p HL); [lia|done]|].
    intros r Hr. by apply (le_trans r p y). }
  assert (Hhigh : Forall (fun r => lt y r) (drop k L)).
  { destruct (decide (k < length L)) as [Hk|Hk];
      [|rewrite drop_ge by lia; constructor].
    destruct F as [F|F]; [lia|].
    destruct (lookup_lt_is_Some_2 L k) as [p Hp]; [lia|].
    rewrite (Hless i p) in F; [|lia|done].
    apply negb_false_iff in F.
    eapply Forall_impl; [apply (drop_ge_first L k p HL Hp)|].
    intros r Hr. by apply (lt_le_trans y p r). }
  assert (HL' : sorted (take k L ++ drop k L)) by (by rewrite take_drop).
  destruct (insert_sorted_right _ _ y HL' Hlow Hhigh) as [I1 I2].
  destruct (swapDown_spec (drop k L) data (pre ++ take k L) y post Hs)
    as [F1 F2].
  { rewrite E. rewrite <- !app_assoc. by rewrite (app_assoc (take k L)), take_drop. }
  replace (length (pre ++ take k L)) with i in F1, F2
    by (rewrite length_app, length_take_le; lia).
  replace (i + length (drop k L)) with m in F1, F2
    by (rewrite length_drop; lia).
  exists (take k L ++ y :: drop k L). rewrite F1, F2.
  split; [by rewrite <- !app_assoc|]. split; [reflexivity|].
  split; [|split; [exact I1|]].
  - etrans; [apply Permutation_app_comm|]. simpl.
    etrans; [|apply Permutation_middle]. by rewrite take_drop.
  - intros z. rewrite I2. by rewrite take_drop.
Qed.


(** What [symMerge] promises for blocks [L] at [a..m) and [R] at [m..b),
    both sorted and not empty. *)
Local Abbreviation symMerge_ok fuel :=
  (forall data pre L R post a m b,
    ExprSort.sorter data = sorter ->
    records data = pre ++ L ++ R ++ post ->
    a = length pre -> m = a + length L -> b = m + length R ->
    0 < length L -> 0 < length R -> length L + length R <= fuel ->
    sorted L -> sorted R ->
    exists M,
      records (symMergeRec fuel data a m b) = pre ++ M ++ post
      /\ ExprSort.sorter (symMergeRec fuel data a m b) = sorter
      /\ ssv (L ++ R) M).

(** Comparing an element of the right block with one of the left. *)
Lemma Less_blocks data pre L R post i j u v :
  ExprSort.sorter data = sorter ->
  records data = pre ++ L ++ R ++ post ->
  R !! i = Some v -> L !! j = Some u ->
  Less data (length pre + length L + i) (length pre + j) = less sorter v u.
Proof.
  intros Hs E Hv Hu.
  pose proof (lookup_lt_Some _ _ _ Hv) as Hi.
  pose proof (lookup_lt_Some _ _ _ Hu) as Hj.
  apply Less_lookup; [done|..].
  - rewrite (lookup_right data pre L R post _ E) by lia.
    rewrite <- Hv. f_equal. lia.
  - rewrite (lookup_left data pre L R post _ E) by lia.
    rewrite <- Hu. f_equal. lia.
Qed.

(** The general case: the binary search finds where to cut both blocks;
    a rotation brings the lower parts together, and each side is merged
    on its own. *)
Lemma symMerge_divide fuel data pre L R post a m b mid start0 r0 :
  symMerge_ok fuel ->
  ExprSort.sorter data = sorter ->
  records data = pre ++ L ++ R ++ post ->
  a = length pre -> m = a + length L -> b = m + length R ->
  2 <= length L -> 2 <= length R -> length L + length R <= S fuel ->
  sorted L -> sorted R ->
  2 * mid <= a + b <= 2 * mid + 1 ->
  a <= start0 -> start0 <= r0 -> r0 <= m -> r0 <= mid ->
  mid + m <= start0 + b ->
  (start0 = a \/ start0 + b = mid + m) ->
  (r0 = m \/ r0 = mid) ->
  let n := mid + m in
  let p := n - 1 in
  let start := search (fun c => negb (Less data (p - c) c)) start0 r0 in
  let end_ := n - start in
  let data1 :=
    if (start <? m) && (m <? end_) then rotate data start m end_ else data in
  let data2 :=
    if (a <? start) && (start <? mid)
    then symMergeRec fuel data1 a start mid else data1 in
  let data3 :=
    if (mid <? end_) && (end_ <? b)
    then symMergeRec fuel data2 mid end_ b else data2 in
  exists M,
    records data3 = pre ++ M ++ post
    /\ ExprSort.sorter data3 = sorter
    /\ ssv (L ++ R) M.
Proof.
  intros Hrec Hs E Ha Hm Hb HL2 HR2 Hfuel HL HR Hmid H1 H2 H3 H4 H5 H6 H7.
  cbv zeta.
  destruct (search_spec (fun c => negb (Less data (mid + m - 1 - c) c))
              start0 r0 H2) as (B & C & F).
  set (start := search _ start0 r0) in *. clearbody start.
  assert (exists kL, start = a + kL) as [kL HkL]
    by (exists (start - a); lia).
  assert (exists kR, mid = start + kR) as [kR HkR]
    by (exists (mid - start); lia).
  replace (mid + m - start) with (m + kR) by lia.
  assert (HkLle : kL <= length L) by lia.
  assert (HkRle : kR <= length R) by lia.
  (* what the search found, in terms of the two cuts *)
  assert (C' : kL = 0 \/ kR = length R
               \/ Less data (m + kR) (a + (kL - 1)) = false).
  { destruct (decide (kL = 0)) as [?|HkL0]; [by left|right].
    destruct C as [C|C]; [left; lia|right].
    apply negb_true_iff in C. rewrite <- C. f_equal; lia. }
  assert (F' : kR = 0 \/ kL = length L
               \/ Less data (m + (kR - 1)) (a + kL) = true).
  { destruct (decide (kR = 0)) as [?|HkR0]; [by left|right].
    destruct F as [F|F]; [left; lia|right].
    apply negb_false_iff in F. rewrite <- F. f_equal; lia. }
  clear B C F H1 H2 H3 H4 H5 H6 H7.
  set (L1 := take kL L). set (L2 := drop kL L).
  set (R1 := take kR R). set (R2 := drop kR R).
  assert (EL : L1 ++ L2 = L) by apply take_drop.
  assert (ER : R1 ++ R2 = R) by apply take_drop.
  assert (lL1 : length L1 = kL) by (by apply length_take_le).
  assert (lL2 : length L2 + kL = length L)
    by (unfold L2; rewrite length_drop; lia).
  assert (lR1 : length R1 = kR) by (by apply length_take_le).
  assert (lR2 : length R2 + kR = length R)
    by (unfold R2; rewrite length_drop; lia).
  assert (HLR : Forall (fun u => Forall (fun v => le u v) R2) L1).
  { destruct C' as [Hk|[Hk|C]].
    { unfold L1. rewrite Hk. constructor. }
    { unfold R2. rewrite drop_ge by lia. apply Forall_forall.
      intros; constructor. }
    destruct (decide (kL = 0)) as [Hk|Hk].
    { unfold L1. rewrite Hk. constructor. }
    destruct (decide (kR = length R)) as [Hk'|Hk'].
    { unfold R2. rewrite drop_ge by lia. apply Forall_forall.
      intros; constructor. }
    destruct (lookup_lt_is_Some_2 L (kL - 1)) as [u0 Hu0]; [lia|].
    destruct (lookup_lt_is_Some_2 R kR) as [v0 Hv0]; [lia|].
    rewrite Hm, Ha, (Less_blocks data pre L R post kR (kL - 1) u0 v0) in C
      by done.
    pose proof (take_le_last L kL u0 HL ltac:(lia) Hu0) as T1.
    pose proof (drop_ge_first R kR v0 HR Hv0) as T2.
    eapply Forall_impl; [exact T1|]. intros u Hu. simpl.
    eapply Forall_impl; [exact T2|]. intros v Hv. simpl.
    apply (le_trans u u0 v); [done|]. by apply (le_trans u0 v0 v). }
  assert (HRL : Forall (fun v => Forall (fun u => lt v u) L2) R1).
  { destruct F' as [Hk|[Hk|F]].
    { unfold R1. rewrite Hk. constructor. }
    { unfold L2. rewrite drop_ge by lia. apply Forall_forall.
      intros; constructor. }
    destruct (decide (kR = 0)) as [Hk|Hk].
    { unfold R1. rewrite Hk. constructor. }
    destruct (decide (kL = length L)) as [Hk'|Hk'].
    { unfold L2. rewrite drop_ge by lia. apply Forall_forall.
      intros; constructor. }
    destruct (lookup_lt_is_Some_2 L kL) as [u0 Hu0]; [lia|].
    destruct (lookup_lt_is_Some_2 R (kR - 1)) as [v0 Hv0]; [lia|].
    rewrite Hm, Ha, (Less_blocks data pre L R post (kR - 1) kL u0 v0) in F
      by done.
    pose proof (take_le_last R kR v0 HR ltac:(lia) Hv0) as T1.
    pose proof (drop_ge_first L kL u0 HL Hu0) as T2.
    eapply Forall_impl; [exact T1|]. intros v Hv. simpl.
    eapply Forall_impl; [exact T2|]. intros u Hu. simpl.
    apply (le_lt_trans v v0 u); [done|]. by apply (lt_le_trans v0 u0 u). }
  clear C' F'.
  assert (SL1 : sorted L1) by (by apply sorted_take).
  assert (SL2 : sorted L2) by (by apply sorted_drop).
  assert (SR1 : sorted R1) by (by apply sorted_take).
  assert (SR2 : sorted R2) by (by apply sorted_drop).
  assert (E' : records data = pre ++ L1 ++ L2 ++ R1 ++ R2 ++ post).
  { rewrite E, <- EL, <- ER. by rewrite <- !app_assoc. }
  clearbody L1 L2 R1 R2. subst L R. clear E.
  rewrite !length_app in *.
  assert (Hfuel' : length L1 + length R1 <= fuel
                   /\ length L2 + length R2 <= fuel) by lia.
  clear HL2 HR2 Hfuel HkLle HkRle lL2 lR2 Hmid.
  subst kL kR.
  (* the rotation *)
  set (data1 := if (start <? m) && (m <? m + length R1)
                then rotate data start m (m + length R1) else data).
  assert (D1 : records data1 = pre ++ L1 ++ R1 ++ L2 ++ R2 ++ post
               /\ ExprSort.sorter data1 = sorter).
  { unfold data1.
    destruct (Nat.ltb_spec start m) as [Q1|Q1];
      [destruct (Nat.ltb_spec m (m + length R1)) as [Q2|Q2]|]; simpl.
    - destruct (rotate_spec data (pre ++ L1) L2 R1 (R2 ++ post) start m
                  (m + length R1)) as [F1 F2]; try done.
      + lia.
      + lia.
      + rewrite length_app. lia.
      + lia.
      + rewrite E'. by rewrite <- !app_assoc.
      + rewrite F1, F2. by rewrite <- !app_assoc.
    - assert (R1 = []) as -> by (apply length_zero_iff_nil; lia).
      by split.
    - assert (L2 = []) as -> by (apply length_zero_iff_nil; lia).
      by split. }
  destruct D1 as [D1 D1s]. clearbody data1. clear E' Hs data.
  (* the left halves *)
  set (data2 := if (a <? start) && (start <? mid)
                then symMergeRec fuel data1 a start mid else data1).
  assert (D2 : exists M1, records data2 = pre ++ M1 ++ L2 ++ R2 ++ post
               /\ ExprSort.sorter data2 = sorter /\ ssv (L1 ++ R1) M1).
  { unfold data2.
    destruct (Nat.ltb_spec a start) as [Q1|Q1];
      [destruct (Nat.ltb_spec start mid) as [Q2|Q2]|]; simpl.
    - apply (Hrec data1 pre L1 R1 (L2 ++ R2 ++ post)); try done; lia.
    - assert (R1 = []) as -> by (apply length_zero_iff_nil; lia).
      exists L1. rewrite app_nil_r. split; [done|]. split; [done|].
      by apply ssv_refl.
    - assert (L1 = []) as -> by (apply length_zero_iff_nil; lia).
      exists R1. split; [done|]. split; [done|]. by apply ssv_refl. }
  destruct D2 as (M1 & D2 & D2s & HM1). clearbody data2. clear D1 D1s data1.
  pose proof (ssv_length _ _ HM1) as lM1. rewrite length_app in lM1.
  (* the right halves *)
  set (data3 := if (mid <? m + length R1) && (m + length R1 <? b)
                then symMergeRec fuel data2 mid (m + length R1) b else data2).
  assert (D3 : exists M2, records data3 = (pre ++ M1) ++ M2 ++ post
               /\ ExprSort.sorter data3 = sorter /\ ssv (L2 ++ R2) M2).
  { unfold data3.
    destruct (Nat.ltb_spec mid (m + length R1)) as [Q1|Q1];
      [destruct (Nat.ltb_spec (m + length R1) b) as [Q2|Q2]|]; simpl.
    - apply (Hrec data2 (pre ++ M1) L2 R2 post); try done.
      + rewrite D2. by rewrite <- !app_assoc.
      + rewrite length_app. lia.
      + lia.
      + lia.
      + lia.
      + lia.
      + lia.
    - assert (R2 = []) as -> by (apply length_zero_iff_nil; lia).
      exists L2. rewrite app_nil_r. split; [|split; [done|by apply ssv_refl]].
      rewrite D2. by rewrite <- !app_assoc.
    - assert (L2 = []) as -> by (apply length_zero_iff_nil; lia).
      exists R2. split; [|split; [done|by apply ssv_refl]].
      rewrite D2. by rewrite <- !app_assoc. }
  destruct D3 as (M2 & D3 & D3s & HM2).
  exists (M1 ++ M2). split; [rewrite D3; by rewrite <- !app_assoc|].
  split; [done|]. by apply merge_split.
Qed.

Lemma symMergeRec_spec fuel : symMerge_ok fuel.
Proof.
  induction fuel as [|fuel IH];
    intros data pre L R post a m b Hs E Ha Hm Hb HL0 HR0 Hfuel HL HR; [lia|].
  rewrite symMergeRec_S.
  destruct (Nat.eqb_spec (m - a) 1) as [Q1|Q1].
  { destruct L as [|x [|? ?]]; simpl in *; try lia.
    by apply (symMerge_single_left data pre x R post a m b). }
  destruct (Nat.eqb_spec (b - m) 1) as [Q2|Q2].
  { destruct R as [|y [|? ?]]; simpl in *; try lia.
    by apply (symMerge_single_right data pre L y post a m b). }
  pose proof (Nat.div_mod_eq (a + b) 2) as D.
  pose proof (Nat.mod_upper_bound (a + b) 2 ltac:(lia)) as D'.
  cbv zeta. set (mid := (a + b) / 2) in *.
  destruct (Nat.ltb_spec mid m) as [Q3|Q3].
  - apply (symMerge_divide fuel data pre L R post a m b mid (mid + m - b) mid);
      try done; try lia.
  - apply (symMerge_divide fuel data pre L R post a m b mid a m);
      try done; try lia.
Qed.

(** [symMerge] merges two adjacent sorted blocks stably. *)
Lemma symMerge_spec data pre L R post a m b :
  ExprSort.sorter data = sorter ->
  records data = pre ++ L ++ R ++ post ->
  a = length pre -> m = a + length L -> b = m + length R ->
  0 < length L -> 0 < length R ->
  sorted L -> sorted R ->
  exists M,
    records (symMerge data a m b) = pre ++ M ++ post
    /\ ExprSort.sorter (symMerge data a m b) = sorter
    /\ ssv (L ++ R) M.
Proof.
  intros Hs E Ha Hm Hb HL0 HR0 HL HR. unfold symMerge.
  apply (symMergeRec_spec (b - a) data pre L R post a m b); try done. lia.
Qed.


(** *** The passes of [stable] *)

Local Abbreviation blocks bs l out := (Blocks sorter bs l out).

Lemma Blocks_length bs l out : blocks bs l out -> length out = length l.
Proof.
  induction 1 as [l out _ H|B B' l out _ HB _ IH].
  - apply ssv_length. by apply ssv_StableSorted.
  - apply ssv_StableSorted, ssv_length in HB. rewrite !length_app. lia.
Qed.

Lemma Blocks_nil bs : blocks bs [] [].
Proof. apply Blocks_last; [simpl; lia|]. apply ssv_StableSorted, ssv_nil. Qed.

(** A first full block can be split off. *)
Lemma Blocks_split bs l out :
  blocks bs l out -> bs <= length l ->
  exists B B' l1 out1,
    l = B ++ l1 /\ out = B' ++ out1 /\ length B = bs
    /\ ssv B B' /\ blocks bs l1 out1.
Proof.
  destruct 1 as [l out Hl H|B B' l out HB H Hrest]; intros Hbs.
  - exists l, out, [], []. rewrite !app_nil_r.
    split; [done|]. split; [done|]. split; [lia|].
    split; [by apply ssv_StableSorted|apply Blocks_nil].
  - exists B, B', l, out.
    split; [done|]. split; [done|]. split; [done|].
    split; [by apply ssv_StableSorted|done].
Qed.

(** What fits one block is sorted. *)
Lemma Blocks_small bs l out :
  blocks bs l out -> length l <= bs -> ssv l out.
Proof.
  destruct 1 as [l out Hl H|B B' l out HB H Hrest]; intros Hbs.
  - by apply ssv_StableSorted.
  - rewrite length_app in Hbs.
    assert (l = []) as -> by (apply length_zero_iff_nil; lia).
    apply Blocks_length in Hrest.
    assert (out = []) as -> by (by apply length_zero_iff_nil).
    rewrite !app_nil_r. by apply ssv_StableSorted.
Qed.

Lemma blocksLoop_S fuel data bs a b n :
  blocksLoop (S fuel) data bs a b n
  = if b <=? n
    then blocksLoop fuel (insertionSort data a b) bs b (b + bs) n
    else (data, a).
Proof. reflexivity. Qed.

(** The first phase: insertion sort of every block. *)
Lemma blocksLoop_spec bs fuel : forall data pre rest a n,
  0 < bs ->
  ExprSort.sorter data = sorter ->
  records data = pre ++ rest ->
  a = length pre -> n = a + length rest -> length rest <= fuel ->
  exists out,
    records (insertionSort (blocksLoop fuel data bs a (a + bs) n).1
               (blocksLoop fuel data bs a (a + bs) n).2 n) = pre ++ out
    /\ ExprSort.sorter
         (insertionSort (blocksLoop fuel data bs a (a + bs) n).1
            (blocksLoop fuel data bs a (a + bs) n).2 n) = sorter
    /\ blocks bs rest out.
Proof.
  induction fuel as [|fuel IH]; intros data pre rest a n Hbs Hs E Ha Hn Hfuel.
  - assert (rest = []) as -> by (apply length_zero_iff_nil; lia).
    simpl fst; simpl snd.
    destruct (insertionSort_spec data pre [] [] Hs) as (B' & F1 & F2 & F3).
    { by rewrite E. }
    simpl in F1, F2. rewrite Nat.add_0_r in F1, F2.
    simpl in Hn. rewrite Nat.add_0_r in Hn. subst a n.
    exists B'. rewrite app_nil_r in F1.
    split; [done|]. split; [done|].
    apply Blocks_last; [simpl; lia|]. by apply ssv_StableSorted.
  - rewrite blocksLoop_S. destruct (Nat.leb_spec (a + bs) n) as [Q|Q].
    + rewrite <- (take_drop bs rest) in E.
      set (B := take bs rest) in *. set (rest1 := drop bs rest) in *.
      assert (lB : length B = bs) by (apply length_take_le; lia).
      assert (lrest1 : length rest1 = length rest - bs) by apply length_drop.
      destruct (insertionSort_spec data pre B rest1 Hs E) as (B' & F1 & F2 & F3).
      rewrite <- Ha, lB in F1, F2.
      pose proof (ssv_length _ _ F3) as lB'.
      destruct (IH (insertionSort data a (a + bs)) (pre ++ B') rest1
                  (a + bs) n Hbs F2) as (out & G1 & G2 & G3).
      { by rewrite F1, app_assoc. }
      { rewrite length_app. lia. }
      { lia. }
      { lia. }
      exists (B' ++ out). rewrite G1, G2. split; [by rewrite app_assoc|].
      split; [done|]. rewrite <- (take_drop bs rest). fold B rest1.
      apply Blocks_cons; [done|by apply ssv_StableSorted|done].
    + simpl fst; simpl snd.
      destruct (insertionSort_spec data pre rest [] Hs) as (B' & F1 & F2 & F3).
      { by rewrite app_nil_r. }
      rewrite <- Ha, <- Hn in F1, F2. rewrite app_nil_r in F1.
      exists B'. split; [done|]. split; [done|].
      apply Blocks_last; [lia|]. by apply ssv_StableSorted.
Qed.


Lemma mergeLoop_S fuel data bs a b n :
  mergeLoop (S fuel) data bs a b n
  = if b <=? n
    then mergeLoop fuel (symMerge data a (a + bs) b) bs b (b + 2 * bs) n
    else (data, a).
Proof. reflexivity. Qed.

(** One pass: blocks are merged two by two, and a shorter rest with the
    block before it. *)
Lemma mergeLoop_spec bs fuel : forall data pre rest cur a n,
  0 < bs ->
  ExprSort.sorter data = sorter ->
  records data = pre ++ cur ->
  blocks bs rest cur ->
  a = length pre -> n = a + length rest -> length rest <= fuel ->
  exists out,
    records
      (let '(data', a') := mergeLoop fuel data bs a (a + 2 * bs) n in
       if a' + bs <? n then symMerge data' a' (a' + bs) n else data')
    = pre ++ out
    /\ ExprSort.sorter
         (let '(data', a') := mergeLoop fuel data bs a (a + 2 * bs) n in
          if a' + bs <? n then symMerge data' a' (a' + bs) n else data')
       = sorter
    /\ blocks (2 * bs) rest out.
Proof.
  induction fuel as [|fuel IH];
    intros data pre rest cur a n Hbs Hs E Hcur Ha Hn Hfuel.
  - assert (rest = []) as -> by (apply length_zero_iff_nil; lia).
    pose proof (Blocks_length _ _ _ Hcur) as lcur.
    assert (cur = []) as -> by (by apply length_zero_iff_nil).
    simpl in Hn. cbn [mergeLoop].
    destruct (Nat.ltb_spec (a + bs) n) as [Q|Q]; [lia|].
    exists []. split; [done|]. split; [done|]. apply Blocks_nil.
  - rewrite mergeLoop_S.
    pose proof (Blocks_length _ _ _ Hcur) as lcur.
    destruct (Nat.leb_spec (a + 2 * bs) n) as [Q|Q].
    + destruct (Blocks_split bs rest cur Hcur)
        as (B1 & B1' & rest1 & cur1 & -> & -> & lB1 & HB1 & Hcur1); [lia|].
      rewrite length_app in Hn, Hfuel.
      destruct (Blocks_split bs rest1 cur1 Hcur1)
        as (B2 & B2' & rest2 & cur2 & -> & -> & lB2 & HB2 & Hcur2); [lia|].
      rewrite length_app in Hn, Hfuel.
      pose proof (ssv_length _ _ HB1) as lB1'.
      pose proof (ssv_length _ _ HB2) as lB2'.
      destruct (symMerge_spec data pre B1' B2' cur2 a (a + bs) (a + 2 * bs))
        as (M & F1 & F2 & F3); try done; try lia.
      { by destruct HB1 as (_ & ? & _). }
      { by destruct HB2 as (_ & ? & _). }
      pose proof (ssv_length _ _ F3) as lM. rewrite length_app in lM.
      destruct (IH (symMerge data a (a + bs) (a + 2 * bs)) (pre ++ M)
                  rest2 cur2 (a + 2 * bs) n Hbs F2) as (out & G1 & G2 & G3);
        try done; try (rewrite ?length_app; lia).
      { by rewrite F1, app_assoc. }
      exists (M ++ out). rewrite G1, G2. split; [by rewrite app_assoc|].
      split; [done|]. rewrite (app_assoc B1).
      apply Blocks_cons; [rewrite length_app; lia| |done].
      apply ssv_StableSorted. by apply (ssv_app B1 B1' B2 B2').
    + destruct (Nat.ltb_spec (a + bs) n) as [Q'|Q'].
      * destruct (Blocks_split bs rest cur Hcur)
          as (B1 & B1' & rest1 & cur1 & -> & -> & lB1 & HB1 & Hcur1); [lia|].
        rewrite length_app in Hn, Hfuel.
        pose proof (Blocks_length _ _ _ Hcur1) as lcur1.
        pose proof (Blocks_small bs rest1 cur1 Hcur1 ltac:(lia)) as Hrest1.
        pose proof (ssv_length _ _ HB1) as lB1'.
        destruct (symMerge_spec data pre B1' cur1 [] a (a + bs) n)
          as (M & F1 & F2 & F3); try done; try lia.
        { by rewrite app_nil_r. }
        { by destruct HB1 as (_ & ? & _). }
        { by destruct Hrest1 as (_ & ? & _). }
        rewrite app_nil_r in F1.
        exists M. split; [done|]. split; [done|].
        apply Blocks_last; [rewrite length_app; lia|].
        apply ssv_StableSorted. by apply (ssv_app B1 B1' rest1 cur1).
      * exists cur. split; [done|]. split; [done|].
        apply Blocks_last; [lia|].
        apply ssv_StableSorted. apply (Blocks_small bs); [done|lia].
Qed.

Lemma passLoop_S fuel data bs n :
  passLoop (S fuel) data bs n
  = if bs <? n then
      let '(data, a) := mergeLoop n data bs 0 (2 * bs) n in
      let m := a + bs in
      let data := if m <? n then symMerge data a m n else data in
      passLoop fuel data (bs * 2) n
    else data.
Proof. reflexivity. Qed.

(** The passes double the block size until one block holds the slice. *)
Lemma passLoop_spec fuel : forall data l bs n,
  0 < bs ->
  ExprSort.sorter data = sorter ->
  blocks bs l (records data) ->
  n = length l -> n <= fuel + bs ->
  ssv l (records (passLoop fuel data bs n))
  /\ ExprSort.sorter (passLoop fuel data bs n) = sorter.
Proof.
  induction fuel as [|fuel IH]; intros data l bs n Hbs Hs Hb Hn Hfuel.
  - simpl. split; [|done]. apply (Blocks_small bs); [done|lia].
  - rewrite passLoop_S. destruct (Nat.ltb_spec bs n) as [Q|Q].
    + destruct (mergeLoop_spec bs n data [] l (records data) 0 n)
        as (out & F1 & F2 & F3); try done; try lia.
      change (0 + 2 * bs) with (2 * bs) in F1, F2.
      destruct (mergeLoop n data bs 0 (2 * bs) n) as [data' a'].
      cbv zeta. simpl app in F1.
      apply IH; try done; try lia.
      rewrite F1. by replace (bs * 2) with (2 * bs) by lia.
    + split; [|done]. apply (Blocks_small bs); [done|lia].
Qed.

(** [stable] sorts the whole slice stably. *)
Lemma stableWith_spec bs data :
  0 < bs ->
  ExprSort.sorter data = sorter ->
  ssv (records data) (records (stableWith bs data (length (records data)))).
Proof.
  intros Hbs Hs. unfold stableWith.
  set (n := length (records data)).
  destruct (blocksLoop_spec bs n data [] (records data) 0 n)
    as (out & F1 & F2 & F3); try done.
  change (0 + bs) with bs in F1, F2.
  destruct (blocksLoop n data bs 0 bs n) as [data' a'].
  simpl fst in F1, F2; simpl snd in F1, F2. simpl app in F1.
  apply passLoop_spec; try done; try lia. by rewrite F1.
Qed.

End Order.

(** C3, as amended.  For every slice of records and every comparator
    whose "less" is a strict weak order, [SortStable] leaves a permutation
    of the slice in which no record is less than one before it, and in
    which the records equivalent to any given record (neither less than
    the other, as when the comparator returns 0 on them) stand in their
    input order. *)
Theorem SortStable_stable {Record : Type} (recs : list Record)
    (sorter : Expr.SortFn Record) (Hswo : StrictWeakOrder sorter) :
  StableSorted sorter recs (SortStable recs sorter).
Proof.
  apply ssv_StableSorted. unfold SortStable, Stable, stable.
  apply (stableWith_spec sorter Hswo 20 (mkRecordSlice recs sorter));
    [lia|done].
Qed.

Local Open Scope Z_scope.

Lemma byN_order : StrictWeakOrder CodecModel.byN.
Proof.
  assert (L : forall x y, less CodecModel.byN x y = (x.2 <? y.2)).
  { intros x y. unfold less, CodecModel.byN.
    destruct (Z.ltb_spec x.2 y.2); [reflexivity|].
    destruct (Z.gtb_spec x.2 y.2); reflexivity. }
  split; intros *; rewrite !L.
  - apply Z.ltb_irrefl.
  - rewrite !Z.ltb_lt. lia.
  - rewrite !Z.ltb_ge. lia.
Qed.

(** The spec's sort scenario: [sort n] on the three records. *)
Lemma SortStable_stable_witness :
  StrictWeakOrder CodecModel.byN
  /\ StableSorted CodecModel.byN CodecModel.scenario
       [(2, "a", 1); (3, "b", 2); (1, "a", 3)]%string.
Proof.
  split; [exact byN_order|].
  assert (E : SortStable CodecModel.scenario CodecModel.byN
              = [(2, "a", 1); (3, "b", 2); (1, "a", 3)]%string)
    by (vm_compute; reflexivity).
  rewrite <- E.
  exact (SortStable_stable CodecModel.scenario CodecModel.byN byN_order).
Defined.

(** Two records whose key fails to decode: the comparator of [NewSortFn]
    orders each below the other, [SortStable] swaps them, and the output
    is not in comparator order. *)
Lemma SortStable_stable_counterexample :
  ~ (forall (Record : Type) (recs : list Record) (sorter : Expr.SortFn Record),
       StableSorted sorter recs (SortStable recs sorter)).
Proof.
  intros H.
  specialize (H (list Zng.Value)
                [[CodecModel.ip3; CodecModel.int7];
                 [CodecModel.ip3; CodecModel.strA]]
                (CodecModel.cmp true [CodecModel.column 0])).
  destruct H as (_ & Hsorted & _).
  assert (E : SortStable [[CodecModel.ip3; CodecModel.int7];
                          [CodecModel.ip3; CodecModel.strA]]
                (CodecModel.cmp true [CodecModel.column 0])
              = [[CodecModel.ip3; CodecModel.strA];
                 [CodecModel.ip3; CodecModel.int7]])
    by (vm_compute; reflexivity).
  rewrite E in Hsorted.
  apply StronglySorted_inv in Hsorted as [_ Hhd].
  apply Forall_cons in Hhd as [Hhd _]. apply Hhd.
  vm_compute. reflexivity.
Qed.

(** ** [SortStable]: what it keeps for every comparator, and what a
    consistent comparator adds *)

Local Open Scope nat_scope.

(** *** What [sort.Stable] does to the data: only [Swap] *)

Section SwapOnly.

Context {D : Type} `{Interface D} (R : D -> D -> Prop).
Context (Rrefl : forall d, R d d).
Context (Rtrans : forall d1 d2 d3, R d1 d2 -> R d2 d3 -> R d1 d3).
Context (Rswap : forall d i j, R d (Swap d i j)).

Lemma R_if (c : bool) d d' : R d d' -> R d (if c then d' else d).
Proof. destruct c; [done|intros _; apply Rrefl]. Qed.

Lemma insertDown_swaps j : forall data a, R data (insertDown data a j).
Proof.
  induction j as [|j IH]; intros data a; simpl; [apply Rrefl|].
  destruct (_ && _); [|apply Rrefl].
  eapply Rtrans; [apply Rswap|apply IH].
Qed.

Lemma insertionLoop_swaps count : forall data a i,
  R data (insertionLoop count data a i).
Proof.
  induction count as [|count IH]; intros data a i; simpl; [apply Rrefl|].
  eapply Rtrans; [apply insertDown_swaps|apply IH].
Qed.

Lemma insertionSort_swaps data a b : R data (insertionSort data a b).
Proof. apply insertionLoop_swaps. Qed.

Lemma swapRangeLoop_swaps count : forall data a b i,
  R data (swapRangeLoop count data a b i).
Proof.
  induction count as [|count IH]; intros data a b i; simpl; [apply Rrefl|].
  eapply Rtrans; [apply Rswap|apply IH].
Qed.

Lemma swapRange_swaps data a b n : R data (swapRange data a b n).
Proof. apply swapRangeLoop_swaps. Qed.

Lemma rotateLoop_swaps fuel : forall data m i j,
  R data (rotateLoop fuel data m i j).1.
Proof.
  induction fuel as [|fuel IH]; intros data m i j; simpl; [apply Rrefl|].
  destruct (negb _); [|apply Rrefl].
  destruct (j <? i); (eapply Rtrans; [apply swapRange_swaps|apply IH]).
Qed.

Lemma rotate_swaps data a m b : R data (rotate data a m b).
Proof.
  unfold rotate.
  pose proof (rotateLoop_swaps (m - a + (b - m)) data m (m - a) (b - m)) as E.
  destruct (rotateLoop _ _ _ _ _) as [data' i']. simpl in E.
  eapply Rtrans; [exact E|apply swapRange_swaps].
Qed.

Lemma swapUp_swaps count : forall data k, R data (swapUp count data k).
Proof.
  induction count as [|count IH]; intros data k; simpl; [apply Rrefl|].
  eapply Rtrans; [apply Rswap|apply IH].
Qed.

Lemma swapDown_swaps k : forall data i, R data (swapDown data i k).
Proof.
  induction k as [|k IH]; intros data i; simpl; [apply Rrefl|].
  destruct (i <? S k); [|apply Rrefl].
  eapply Rtrans; [apply Rswap|apply IH].
Qed.

Lemma symMergeRec_swaps fuel : forall data a m b,
  R data (symMergeRec fuel data a m b).
Proof.
  induction fuel as [|fuel IH]; intros data a m b; [apply Rrefl|].
  cbn [symMergeRec].
  destruct (m - a =? 1); [apply swapUp_swaps|].
  destruct (b - m =? 1); [apply swapDown_swaps|].
  destruct (if (a + b) / 2 <? m then _ else _) as [start r]. cbv zeta.
  eapply Rtrans; [|apply R_if, IH].
  eapply Rtrans; [|apply R_if, IH].
  apply R_if, rotate_swaps.
Qed.

Lemma symMerge_swaps data a m b : R data (symMerge data a m b).
Proof. apply symMergeRec_swaps. Qed.

Lemma blocksLoop_swaps fuel : forall data bs a b n,
  R data (blocksLoop fuel data bs a b n).1.
Proof.
  induction fuel as [|fuel IH]; intros data bs a b n; simpl; [apply Rrefl|].
  destruct (b <=? n); [|apply Rrefl].
  eapply Rtrans; [apply insertionSort_swaps|apply IH].
Qed.

Lemma mergeLoop_swaps fuel : forall data bs a b n,
  R data (mergeLoop fuel data bs a b n).1.
Proof.
  induction fuel as [|fuel IH]; intros data bs a b n; [apply Rrefl|].
  cbn [mergeLoop]. destruct (b <=? n); [|apply Rrefl].
  eapply Rtrans; [apply symMerge_swaps|apply IH].
Qed.

Lemma passLoop_swaps fuel : forall data bs n, R data (passLoop fuel data bs n).
Proof.
  induction fuel as [|fuel IH]; intros data bs n; [apply Rrefl|].
  cbn [passLoop]. destruct (bs <? n); [|apply Rrefl].
  pose proof (mergeLoop_swaps n data bs 0 (2 * bs) n) as E.
  destruct (mergeLoop n data bs 0 (2 * bs) n) as [data' a]. simpl in E.
  eapply Rtrans; [exact E|].
  eapply Rtrans; [|apply IH].
  destruct (_ <? n); [apply symMerge_swaps|apply Rrefl].
Qed.

Lemma stableWith_swaps bs data n : R data (stableWith bs data n).
Proof.
  unfold stableWith.
  pose proof (blocksLoop_swaps n data bs 0 bs n) as E.
  destruct (blocksLoop n data bs 0 bs n) as [data' a]. simpl in E.
  eapply Rtrans; [exact E|].
  eapply Rtrans; [apply insertionSort_swaps|apply passLoop_swaps].
Qed.

Lemma Stable_swaps data : R data (Stable data).
Proof. apply stableWith_swaps. Qed.

End SwapOnly.

Section Any.
Context {Record : Type}.
Implicit Types (data : RecordSlice Record) (l : list Record).

Lemma insert_swap_lt l (i j : nat) (x y : Record) :
  i < j -> l !! i = Some x -> l !! j = Some y ->
  <[j := x]> (<[i := y]> l) ≡ₚ l.
Proof.
  intros Hij Hi Hj.
  pose proof (take_drop_middle l i x Hi) as E1.
  assert (Hj' : drop (S i) l !! (j - S i) = Some y).
  { rewrite lookup_drop. rewrite <- Hj. f_equal. lia. }
  pose proof (take_drop_middle _ _ y Hj') as E2.
  assert (Li : length (take i l) = i).
  { apply length_take_le. apply lookup_lt_Some in Hi. lia. }
  assert (Lj : length (take (j - S i) (drop (S i) l)) = j - S i).
  { apply length_take_le. apply lookup_lt_Some in Hj'. lia. }
  set (l1 := take i l) in *. set (l2 := take (j - S i) (drop (S i) l)) in *.
  set (l3 := drop (S (j - S i)) (drop (S i) l)) in *.
  rewrite <- E2 in E1. rewrite <- E1.
  rewrite (insert_mid l1 _ x y i) by done.
  rewrite app_mid2.
  rewrite (insert_mid _ l3 y x j) by (rewrite length_app; simpl; lia).
  rewrite <- !app_mid2.
  apply Permutation_app_head.
  rewrite !Permutation_middle. apply Permutation_app_head, perm_swap.
Qed.

Lemma Swap_permutation data (i j : nat) :
  ExprSort.sorter (ExprSort.Swap data i j) = ExprSort.sorter data
  /\ records data ≡ₚ records (ExprSort.Swap data i j).
Proof.
  unfold ExprSort.Swap.
  destruct (records data !! i) as [x|] eqn:Hi; [|done].
  destruct (records data !! j) as [y|] eqn:Hj; [|done].
  split; [reflexivity|]. simpl. symmetry.
  destruct (Nat.lt_total i j) as [L|[->|L]].
  - by apply insert_swap_lt.
  - rewrite Hi in Hj. injection Hj as ->.
    by rewrite !list_insert_id; [| |rewrite list_insert_id].
  - rewrite list_insert_insert_ne by lia. by apply insert_swap_lt.
Qed.

(** X10.  For every comparator, consistent or not, [SortStable] leaves
    a permutation of the slice: it moves the records by [Swap] only, so
    that none is lost, added or repeated. *)
Theorem SortStable_permutation (recs : list Record)
    (sorter : Expr.SortFn Record) :
  recs ≡ₚ SortStable recs sorter
  /\ length (SortStable recs sorter) = length recs.
Proof.
  assert (P : recs ≡ₚ SortStable recs sorter).
  { unfold SortStable.
    pose proof (Stable_swaps
      (fun d d' : RecordSlice Record =>
         ExprSort.sorter d' = ExprSort.sorter d /\ records d ≡ₚ records d'))
      as S.
    apply (S ltac:(by intros d)
             ltac:(by intros d1 d2 d3 [E1 P1] [E2 P2];
                     split; [congruence|rewrite P1])
             ltac:(intros d i j; apply Swap_permutation)
             (mkRecordSlice recs sorter)). }
  split; [exact P|]. by rewrite <- P.
Qed.

End Any.

Section Unique.
Context {Record : Type} (sorter : Expr.SortFn Record).
Context (Hswo : StrictWeakOrder sorter).
Implicit Types (x y z : Record) (l out : list Record).

Lemma equivalent_refl x : equivalent sorter x x = true.
Proof. unfold equivalent. by rewrite (swo_irrefl _ Hswo). Qed.

Lemma sorted_unique out1 : forall out2,
  out1 ≡ₚ out2 ->
  StronglySorted (fun x y => less sorter y x = false) out1 ->
  StronglySorted (fun x y => less sorter y x = false) out2 ->
  (forall z, List.filter (equivalent sorter z) out1
             = List.filter (equivalent sorter z) out2) ->
  out1 = out2.
Proof.
  induction out1 as [|x t1 IH]; intros out2 P S1 S2 F.
  - by apply Permutation_nil in P.
  - destruct out2 as [|y t2].
    { symmetry in P. by apply Permutation_nil in P. }
    apply StronglySorted_inv in S1 as [S1 L1].
    apply StronglySorted_inv in S2 as [S2 L2].
    assert (Hyx : less sorter x y = false).
    { assert (Hin : x ∈ y :: t2) by (rewrite <- P; constructor).
      apply elem_of_cons in Hin as [->|Hin]; [apply Hswo|].
      by apply (proj1 (Forall_forall _ _) L2). }
    assert (Hxy : less sorter y x = false).
    { assert (Hin : y ∈ x :: t1) by (rewrite P; constructor).
      apply elem_of_cons in Hin as [->|Hin]; [apply Hswo|].
      by apply (proj1 (Forall_forall _ _) L1). }
    assert (E : x = y).
    { pose proof (F x) as Fx. simpl in Fx.
      rewrite equivalent_refl in Fx.
      unfold equivalent at 2 in Fx. rewrite Hxy, Hyx in Fx. simpl in Fx.
      by injection Fx. }
    subst y. f_equal. apply IH; auto.
    + by apply Permutation_cons_inv in P.
    + intros z. specialize (F z). simpl in F.
      destruct (equivalent sorter z x); [by injection F|exact F].
Qed.

Lemma StableSorted_unique l out1 out2 :
  StableSorted sorter l out1 -> StableSorted sorter l out2 -> out1 = out2.
Proof.
  intros (P1 & S1 & F1)%ssv_StableSorted (P2 & S2 & F2)%ssv_StableSorted.
  apply sorted_unique; auto.
  - by rewrite <- P1.
  - intros z. by rewrite F1, F2.
Qed.

Lemma SortStable_StableSorted l :
  StableSorted sorter l (SortStable l sorter).
Proof.
  apply ssv_StableSorted. unfold SortStable, Stable, stable.
  apply (stableWith_spec sorter Hswo 20 (mkRecordSlice l sorter));
    [lia|done].
Qed.

End Unique.

(** X11.  For a comparator whose "less" is a strict weak order, the
    result of [SortStable] is the only stably sorted arrangement of the
    slice: every list that is the slice sorted stably is what
    [SortStable] leaves. *)
Theorem SortStable_unique {Record : Type} (recs out : list Record)
    (sorter : Expr.SortFn Record) (Hswo : StrictWeakOrder sorter)
    (Hout : StableSorted sorter recs out) :
  SortStable recs sorter = out.
Proof.
  apply (StableSorted_unique sorter Hswo recs); [|exact Hout].
  by apply SortStable_StableSorted.
Qed.

(** X12.  [SortStable] leaves a slice that is in comparator order as it
    is (the comparator's "less" being a strict weak order). *)
Theorem SortStable_sorted_fixed {Record : Type} (recs : list Record)
    (sorter : Expr.SortFn Record) (Hswo : StrictWeakOrder sorter)
    (Hsorted : StronglySorted (Expr.inOrder sorter) recs) :
  SortStable recs sorter = recs.
Proof.
  apply (StableSorted_unique sorter Hswo recs).
  - by apply SortStable_StableSorted.
  - by repeat split.
Qed.

(** X13.  [SortStable] is idempotent: sorting the sorted slice again
    changes nothing (the comparator's "less" being a strict weak
    order). *)
Theorem SortStable_idempotent {Record : Type} (recs : list Record)
    (sorter : Expr.SortFn Record) (Hswo : StrictWeakOrder sorter) :
  SortStable (SortStable recs sorter) sorter = SortStable recs sorter.
Proof.
  apply (StableSorted_unique sorter Hswo (SortStable recs sorter)).
  - by apply SortStable_StableSorted.
  - destruct (SortStable_StableSorted sorter Hswo recs) as (_ & S & _).
    by repeat split.
Qed.

(** X14.  With the comparator that [NewSortFn] makes for an empty list
    of fields, which returns 0 on all records, [SortStable] leaves every
    slice as it is. *)
Theorem SortStable_no_fields `{codec : Zng.Codec} {Record : Type}
    (nullsMax : bool) (sorters : Expr.Sorters) (recs : list Record) :
  SortStable recs (Expr.compareRecords nullsMax [] sorters) = recs.
Proof.
  assert (Hswo : StrictWeakOrder
            (Expr.compareRecords (Record := Record) nullsMax [] sorters)).
  { by split. }
  apply (StableSorted_unique _ Hswo recs).
  - by apply SortStable_StableSorted.
  - repeat split; [done|].
    induction recs as [|r recs IH]; constructor; [exact IH|].
    apply Forall_forall. intros y _. unfold Expr.inOrder.
    rewrite ExprFacts.compareRecords_nil. lia.
Qed.

(** *** Sorting by two keys *)

Lemma StronglySorted_filter {A} (R : A -> A -> Prop) (p : A -> bool)
    (l : list A) :
  StronglySorted R l -> StronglySorted R (List.filter p l).
Proof.
  induction 1 as [|x l Hl IH Hx]; simpl; [constructor|].
  destruct (p x); [|exact IH]. constructor; [exact IH|].
  apply Forall_forall. intros y Hy.
  apply list_elem_of_In, List.filter_In in Hy as [Hy _].
  apply list_elem_of_In in Hy. by apply (proj1 (Forall_forall _ _) Hx).
Qed.

Lemma StronglySorted_split {A} (R : A -> A -> Prop) (l : list A) :
  StronglySorted R l <->
  forall l1 x l2, l = l1 ++ x :: l2 -> Forall (R x) l2.
Proof.
  split.
  - induction 1 as [|x l Hl IH Hx]; intros l1 y l2 E.
    + by destruct l1.
    + destruct l1 as [|z l1]; simpl in E; injection E as -> ->; [exact Hx|].
      by apply (IH l1 y l2).
  - induction l as [|x l IH]; intros Hs; constructor.
    + apply IH. intros l1 y l2 ->. by apply (Hs (x :: l1) y l2).
    + by apply (Hs [] x l).
Qed.

Lemma filter_comm {A} (p q : A -> bool) (l : list A) :
  List.filter p (List.filter q l) = List.filter q (List.filter p l).
Proof.
  induction l as [|x l IH]; simpl; [reflexivity|].
  destruct (p x) eqn:Ep, (q x) eqn:Eq; simpl; rewrite ?Ep, ?Eq, IH; done.
Qed.

Lemma filter_and {A} (p q : A -> bool) (l : list A) :
  List.filter (fun x => p x && q x) l = List.filter q (List.filter p l).
Proof.
  induction l as [|x l IH]; simpl; [reflexivity|].
  destruct (p x) eqn:Ep, (q x) eqn:Eq; simpl; rewrite ?Ep, ?Eq, IH; done.
Qed.

Section Chain.
Context {Record : Type} (c1 c2 : Expr.SortFn Record).
Context (H1 : StrictWeakOrder c1) (H2 : StrictWeakOrder c2).
Context (Hc : Consistent c1).
Implicit Types (x y z : Record) (l out : list Record).

Local Open Scope Z_scope.

Lemma zero_equivalent x y : c1 x y = 0 <-> equivalent c1 x y = true.
Proof.
  unfold equivalent, less. pose proof (Hc x y). pose proof (Hc y x).
  destruct (Z.ltb_spec (c1 x y) 0), (Z.ltb_spec (c1 y x) 0); simpl;
    split; try done; lia.
Qed.

Lemma less_lexicographic x y :
  less (lexicographic c1 c2) x y
  = if equivalent c1 x y then less c2 x y else less c1 x y.
Proof.
  unfold less at 1, lexicographic.
  pose proof (zero_equivalent x y) as E.
  destruct (Z.eqb_spec (c1 x y) 0) as [E0|E0].
  - by rewrite (proj1 E E0).
  - destruct (equivalent c1 x y); [|reflexivity]. exfalso. by apply E0, E.
Qed.

Lemma equivalent_sym (c : Expr.SortFn Record) x y :
  equivalent c x y = equivalent c y x.
Proof. unfold equivalent. apply andb_comm. Qed.

Lemma equivalent_lexicographic x y :
  equivalent (lexicographic c1 c2) x y
  = equivalent c1 x y && equivalent c2 x y.
Proof.
  unfold equivalent at 1. rewrite !less_lexicographic.
  rewrite (equivalent_sym c1 y x).
  destruct (equivalent c1 x y) eqn:E; [reflexivity|].
  unfold equivalent in E. by rewrite E.
Qed.

Lemma lexicographic_order : StrictWeakOrder (lexicographic c1 c2).
Proof.
  assert (T1 : forall x y z, equivalent c1 x y = true ->
             equivalent c1 y z = true -> equivalent c1 x z = true).
  { unfold equivalent. intros x y z [A B]%andb_prop [C D]%andb_prop.
    apply negb_true_iff in A, B, C, D.
    by rewrite (swo_incomparable _ H1 x y z A C),
               (swo_incomparable _ H1 z y x D B). }
  split.
  - intros x. rewrite less_lexicographic.
    rewrite (equivalent_refl c1 H1). apply H2.
  - intros x y z. rewrite !less_lexicographic.
    destruct (equivalent c1 x y) eqn:Exy, (equivalent c1 y z) eqn:Eyz.
    + rewrite (T1 x y z Exy Eyz). apply H2.
    + intros _ L. rewrite equivalent_sym in Exy.
      pose proof (equivalent_lt c1 H1) as Q.
      assert (E : equivalent c1 x z = false).
      { destruct (equivalent c1 x z) eqn:E; [|reflexivity].
        rewrite (equivalent_sym c1 y x) in Exy.
        rewrite (T1 y x z) in Eyz; [done| |done].
        by rewrite equivalent_sym. }
      rewrite E. unfold equivalent in Exy.
      apply andb_prop in Exy as [A B]. apply negb_true_iff in A, B.
      by apply (le_lt_trans c1 H1 x y z).
    + intros L _.
      assert (E : equivalent c1 x z = false).
      { destruct (equivalent c1 x z) eqn:E; [|reflexivity].
        rewrite (T1 x z y) in Exy; [done|done|].
        by rewrite equivalent_sym. }
      rewrite E. unfold equivalent in Eyz.
      apply andb_prop in Eyz as [A B]. apply negb_true_iff in A, B.
      by apply (lt_le_trans c1 H1 x y z).
    + intros L1 L2.
      pose proof (swo_trans _ H1 x y z L1 L2) as L.
      assert (E : equivalent c1 x z = false).
      { unfold equivalent. by rewrite L. }
      by rewrite E.
  - intros x y z. rewrite !less_lexicographic.
    destruct (equivalent c1 x y) eqn:Exy, (equivalent c1 y z) eqn:Eyz.
    + rewrite (T1 x y z Exy Eyz). apply H2.
    + intros _ L.
      assert (E : equivalent c1 x z = false).
      { destruct (equivalent c1 x z) eqn:E; [|reflexivity].
        rewrite (T1 y x z) in Eyz; [done| |done].
        by rewrite equivalent_sym. }
      rewrite E. unfold equivalent in Exy.
      apply andb_prop in Exy as [A B]. apply negb_true_iff in A, B.
      by apply (swo_incomparable _ H1 x y z).
    + intros L _.
      assert (E : equivalent c1 x z = false).
      { destruct (equivalent c1 x z) eqn:E; [|reflexivity].
        rewrite (T1 x z y) in Exy; [done|done|].
        by rewrite equivalent_sym. }
      rewrite E. unfold equivalent in Eyz.
      apply andb_prop in Eyz as [A B]. apply negb_true_iff in A, B.
      by apply (swo_incomparable _ H1 x y z).
    + intros L1 L2.
      assert (A : less c1 y x = true).
      { unfold equivalent in Exy. rewrite L1 in Exy. simpl in Exy.
        by apply negb_false_iff in Exy. }
      assert (B : less c1 z y = true).
      { unfold equivalent in Eyz. rewrite L2 in Eyz. simpl in Eyz.
        by apply negb_false_iff in Eyz. }
      pose proof (swo_trans _ H1 z y x B A) as L.
      assert (E : equivalent c1 x z = false).
      { unfold equivalent. rewrite L. apply andb_false_r. }
      rewrite E. by apply (swo_incomparable _ H1 x y z).
Qed.

Lemma chain_StableSorted l :
  StableSorted (lexicographic c1 c2) l (SortStable (SortStable l c2) c1).
Proof.
  destruct (proj2 (ssv_StableSorted c2 l _) (SortStable_StableSorted c2 H2 l))
    as (P2 & S2 & F2).
  set (mid := SortStable l c2) in *.
  destruct (proj2 (ssv_StableSorted c1 mid _)
              (SortStable_StableSorted c1 H1 mid)) as (P1 & S1 & F1).
  set (out := SortStable mid c1) in *.
  apply (ssv_StableSorted _ l out). split; [by rewrite P2|]. split.
  - apply StronglySorted_split. intros l1 x l2 E.
    apply Forall_forall. intros y Hy.
    pose proof (proj1 (StronglySorted_split _ _) S1 l1 x l2 E) as L1.
    pose proof (proj1 (Forall_forall _ _) L1 y Hy) as Lyx. simpl in Lyx.
    rewrite less_lexicographic.
    destruct (equivalent c1 y x) eqn:Eyx; [|exact Lyx].
    rewrite equivalent_sym in Eyx.
    pose proof (F1 x) as Fx. rewrite E in Fx.
    rewrite List.filter_app in Fx. simpl in Fx.
    rewrite (equivalent_refl c1 H1) in Fx.
    pose proof (StronglySorted_filter _ (equivalent c1 x) mid S2) as Sm.
    pose proof (proj1 (StronglySorted_split _ _) Sm _ _ _ (eq_sym Fx)) as L2.
    apply (proj1 (Forall_forall _ _) L2 y).
    apply list_elem_of_In, List.filter_In. split; [|exact Eyx].
    by apply list_elem_of_In.
  - intros z.
    rewrite (List.filter_ext _ _ (equivalent_lexicographic z) out).
    rewrite (List.filter_ext _ _ (equivalent_lexicographic z) l).
    rewrite !filter_and. rewrite F1.
    rewrite (filter_comm (equivalent c2 z) (equivalent c1 z) mid).
    rewrite F2. apply filter_comm.
Qed.

End Chain.

(** X15.  Sorting by a secondary comparator and then, stably, by a
    primary one is sorting by the two keys at once: [SortStable] with
    [second] followed by [SortStable] with [first] gives what
    [SortStable] gives with the comparator that orders by [first] and,
    where [first] returns 0, by [second].  Both comparators are strict
    weak orders, and [first] returns a positive value exactly when the
    reversed comparison returns a negative one. *)
Theorem SortStable_chain {Record : Type} (recs : list Record)
    (first second : Expr.SortFn Record)
    (Hfirst : StrictWeakOrder first) (Hsecond : StrictWeakOrder second)
    (Hsigns : Consistent first) :
  SortStable (SortStable recs second) first
  = SortStable recs (lexicographic first second).
Proof.
  symmetry.
  apply (StableSorted_unique _
           (lexicographic_order first second Hfirst Hsecond Hsigns) recs).
  - apply SortStable_StableSorted.
    by apply lexicographic_order.
  - by apply chain_StableSorted.
Qed.

(** *** [RecordSlice] as a stack: [Push], [Pop], [Index] *)

Section Stack.

Context {Record : Type}.

Local Open Scope Z_scope.

Implicit Types (r : RecordSlice Record) (rec : Record).

Lemma Pop_Push r rec : Pop (Push r rec) = Zson.Returns (rec, r).
Proof.
  destruct r as [l s]. unfold Pop, Push, Zson.index_slice. simpl.
  rewrite length_app. simpl.
  replace (Z.of_nat (length l + 1) - 1) with (Z.of_nat (length l)) by lia.
  destruct (Z.ltb_spec (Z.of_nat (length l)) 0); [lia|].
  rewrite Nat2Z.id. rewrite list_lookup_middle by done.
  by rewrite take_app_length.
Qed.

Lemma Pop_empty r : ExprSort.records r = [] -> Pop r = Zson.Panics.
Proof. unfold Pop, Zson.index_slice. by intros ->. Qed.

(** X16.  [Push] and [Pop] make the slice a stack: after pushing
    records, as many calls of [Pop] return them last pushed first and
    leave the slice as it was; [Len] grows by the number of records
    pushed; and one more [Pop] than there are records panics.  [Pop]
    removes the last record of the slice, not the first. *)
Theorem Push_Pop_stack r (recs : list Record) :
  pops (length recs) (fold_left Push recs r) = Zson.Returns (rev recs, r)
  /\ ExprSort.Len (fold_left Push recs r)
     = (ExprSort.Len r + length recs)%nat
  /\ pops (S (length recs)) (fold_left Push recs (NewRecordSlice (sorter r)))
     = Zson.Panics.
Proof.
  assert (A : forall r0, pops (length recs) (fold_left Push recs r0)
                         = Zson.Returns (rev recs, r0)).
  { induction recs as [|rec recs IH] using rev_ind; intros r0; [reflexivity|].
    rewrite fold_left_app, length_app. simpl.
    rewrite Nat.add_1_r. simpl. rewrite Pop_Push, IH.
    by rewrite rev_unit. }
  split; [apply A|]. split.
  - clear A. revert r. induction recs as [|rec recs IH]; intros r; simpl; [lia|].
    rewrite IH. unfold ExprSort.Len, Push. simpl. rewrite length_app. simpl.
    lia.
  - assert (B : forall n r0, pops (n + 1) r0
              = match pops n r0 with
                | Zson.Panics => Zson.Panics
                | Zson.Returns (l, r1) =>
                    match Pop r1 with
                    | Zson.Panics => Zson.Panics
                    | Zson.Returns (rec, r2) => Zson.Returns (l ++ [rec], r2)
                    end
                end).
    { induction n as [|n IHn]; intros r0; simpl.
      - destruct (Pop r0) as [[rec r1]|]; reflexivity.
      - destruct (Pop r0) as [[rec r1]|]; [|reflexivity].
        rewrite IHn. destruct (pops n r1) as [[l r2]|]; [|reflexivity].
        destruct (Pop r2) as [[rec' r3]|]; reflexivity. }
    rewrite <- Nat.add_1_r, B, A. by rewrite Pop_empty.
Qed.

Lemma records_Push r (recs : list Record) :
  ExprSort.records (fold_left Push recs r) = ExprSort.records r ++ recs.
Proof.
  revert r. induction recs as [|rec recs IH]; intros r; simpl.
  - by rewrite app_nil_r.
  - rewrite IH. simpl. by rewrite <- app_assoc.
Qed.

(** X17.  [Index(i)] on a slice made by pushing records onto a new one
    returns the record pushed at position [i]; it has no bound check,
    and panics for every [i] that is negative or not below the number
    of records pushed. *)
Theorem Push_Index (sorter : Expr.SortFn Record) (recs : list Record)
    (i : Z) :
  ExprSort.Index (fold_left Push recs (NewRecordSlice sorter)) i
  = if (0 <=? i) && (i <? Z.of_nat (length recs))
    then match recs !! Z.to_nat i with
         | Some rec => Zson.Returns rec
         | None => Zson.Panics
         end
    else Zson.Panics.
Proof.
  unfold ExprSort.Index, Zson.index_slice. rewrite records_Push. simpl.
  destruct (Z.ltb_spec i 0) as [L|L].
  - by destruct (Z.leb_spec 0 i); [lia|].
  - destruct (Z.leb_spec 0 i); [|lia]. simpl.
    destruct (Z.ltb_spec i (Z.of_nat (length recs))) as [U|U]; [done|].
    by rewrite lookup_ge_None_2 by lia.
Qed.

End Stack.

(** ** [SortStable] and a class of records that the comparator separates

    A comparator that is no consistent order on all records can still
    order every record of a class after all the others, as the
    comparator of [NewSortFn] does with the records whose keys are all
    null.  [sort.Stable] then moves the class behind the others. *)

Section Partition.

Context {Record : Type} (sorter : Expr.SortFn Record) (cls : Record -> bool).
Context (Hsep : Separates sorter cls).

Implicit Types (x y z : Record) (l : list Record).
Implicit Types (data : RecordSlice Record) (pre post : list Record).

Local Abbreviation cs := (coarse cls).
Local Abbreviation cle x y := (less cs y x = false).
Local Abbreviation csorted l := (StronglySorted (fun x y => cle x y) l).
Local Abbreviation ps l out := (Partitioned cls l out).

Lemma less_coarse x y : less cs x y = negb (cls x) && cls y.
Proof. unfold less, coarse. by destruct (cls x), (cls y). Qed.

Lemma coarse_order : StrictWeakOrder cs.
Proof.
  split; intros *; rewrite !less_coarse.
  - by destruct (cls x).
  - by destruct (cls x), (cls y), (cls z).
  - by destruct (cls x), (cls y), (cls z).
Qed.

(** What a comparison with [sorter] says about the classes. *)
Lemma less_cle x y : less sorter x y = true -> cle x y.
Proof.
  intros H. rewrite less_coarse.
  destruct (cls y) eqn:Ey, (cls x) eqn:Ex; try done.
  destruct (Hsep y x Ey Ex) as [_ C]. congruence.
Qed.

Lemma not_less_cle x y : less sorter x y = false -> cle y x.
Proof.
  intros H. rewrite less_coarse.
  destruct (cls x) eqn:Ex, (cls y) eqn:Ey; try done.
  destruct (Hsep x y Ex Ey) as [C _]. congruence.
Qed.

Lemma Less_at data i j x y :
  records data !! i = Some x -> records data !! j = Some y ->
  Less data i j = less (ExprSort.sorter data) x y.
Proof. intros Hi Hj. simpl. unfold ExprSort.Less. by rewrite Hi, Hj. Qed.

Lemma ps_refl l : csorted l -> ps l l.
Proof. by split. Qed.

Lemma ps_length l out : ps l out -> length out = length l.
Proof. intros [H _]. by rewrite H. Qed.

Lemma ps_nil : ps [] [].
Proof. split; constructor. Qed.

Lemma ps_app A A' B B' M : ps A A' -> ps B B' -> ps (A' ++ B') M -> ps (A ++ B) M.
Proof.
  intros [PA _] [PB _] [PM SM]. split; [by rewrite PA, PB|exact SM].
Qed.

(** Putting [x] between a part that is not above it and one that is not
    below it. *)
Lemma insert_between P1 P2 x :
  csorted (P1 ++ P2) ->
  Forall (fun p => cle p x) P1 -> Forall (fun p => cle x p) P2 ->
  csorted (P1 ++ x :: P2).
Proof.
  intros (S1 & S2 & S3)%sorted_app Hlow Hhigh.
  apply sorted_app. split; [exact S1|]. split.
  - by apply sorted_cons.
  - apply Forall_forall. intros p Hp. constructor.
    + exact (proj1 (Forall_forall _ _) Hlow p Hp).
    + exact (proj1 (Forall_forall _ _) S3 p Hp).
Qed.

(** *** [insertionSort] *)

Lemma insertDown_cut P : forall data pre x post,
  ExprSort.sorter data = sorter ->
  records data = pre ++ P ++ x :: post ->
  exists P1 P2, P = P1 ++ P2
    /\ records (insertDown data (length pre) (length pre + length P))
       = pre ++ P1 ++ x :: P2 ++ post
    /\ ExprSort.sorter (insertDown data (length pre) (length pre + length P))
       = sorter
    /\ Forall (fun p => cle x p) P2
    /\ (forall P1' p, P1 = P1' ++ [p] -> cle p x).
Proof.
  induction P as [|p P IH] using rev_ind; intros data pre x post Hs E.
  - exists [], []. rewrite Nat.add_0_r. simpl in *.
    assert (Hid : insertDown data (length pre) (length pre) = data).
    { destruct (length pre) as [|a] eqn:Ea; [reflexivity|].
      rewrite insertDown_S. by rewrite Nat.ltb_irrefl. }
    rewrite Hid. repeat split; auto.
    intros P1' p' HP. by destruct P1'.
  - rewrite length_app. simpl.
    replace (length pre + (length P + 1)) with (S (length pre + length P))
      by lia.
    rewrite insertDown_S.
    assert (Hlt : (length pre <? S (length pre + length P)) = true)
      by (apply Nat.ltb_lt; lia).
    rewrite Hlt, andb_true_l.
    rewrite <- app_assoc in E. simpl in E.
    assert (E' : records data = (pre ++ P) ++ p :: x :: post)
      by (by rewrite <- app_assoc).
    rewrite (Less_at data _ _ x p), Hs.
    2:{ rewrite E'. rewrite (app_mid2 _ [] post p x). apply lookup_mid.
        rewrite !length_app. simpl. lia. }
    2:{ rewrite E'. apply lookup_mid. by rewrite length_app. }
    destruct (less sorter x p) eqn:Hxp.
    + destruct (Swap_adjacent sorter data (pre ++ P) p x post
                  (length pre + length P) Hs E')
        as (H1 & _ & H3 & _); [by rewrite length_app|].
      rewrite <- app_assoc in H1.
      destruct (IH _ pre x (p :: post) H3 H1)
        as (P1 & P2 & -> & R1 & R2 & R3 & R4).
      exists P1, (P2 ++ [p]). rewrite <- !app_assoc. repeat split; auto.
      apply Forall_app. split; [exact R3|].
      constructor; [by apply less_cle|constructor].
    + exists (P ++ [p]), []. rewrite <- !app_assoc, app_nil_r. simpl.
      repeat split; auto.
      intros P1' p' HP. apply app_inj_tail in HP as [_ <-].
      by apply not_less_cle.
Qed.

Lemma insertionLoop_part U : forall data pre S0 S1 post,
  ExprSort.sorter data = sorter ->
  records data = pre ++ S1 ++ U ++ post ->
  ps S0 S1 ->
  exists S',
    records (insertionLoop (length U) data (length pre)
               (length pre + length S1)) = pre ++ S' ++ post
    /\ ExprSort.sorter (insertionLoop (length U) data (length pre)
                          (length pre + length S1)) = sorter
    /\ ps (S0 ++ U) S'.
Proof.
  induction U as [|x U IH]; intros data pre S0 S1 post Hs E Hps.
  - exists S1. rewrite app_nil_r. simpl in *. auto.
  - simpl length. rewrite insertionLoop_S.
    destruct (insertDown_cut S1 data pre x (U ++ post) Hs E)
      as (P1 & P2 & -> & R1 & R2 & R3 & R4).
    destruct Hps as (Hperm & Hsorted).
    assert (Hlow : Forall (fun p => cle p x) P1).
    { apply sorted_app in Hsorted as (S1' & _ & _).
      clear -S1' R4. revert S1' R4.
      induction P1 as [|p0 P1' _] using rev_ind; intros S1' R4;
        [constructor|].
      apply Forall_forall. intros p1 Hp1.
      eapply (le_trans cs coarse_order); [|by eapply R4].
      by apply (sorted_last_le cs coarse_order P1'). }
    pose proof (insert_between P1 P2 x Hsorted Hlow R3) as I1.
    destruct (IH _ pre (S0 ++ [x]) (P1 ++ x :: P2) post R2)
      as (S' & F1 & F2 & F3).
    { rewrite R1. by rewrite <- !app_assoc. }
    { split; [|exact I1].
      etrans; [apply Permutation_app_comm|]. simpl.
      etrans; [|apply Permutation_middle]. by constructor. }
    exists S'. rewrite <- app_assoc in F3. simpl in F3.
    replace (S (length pre + length (P1 ++ P2)))
      with (length pre + length (P1 ++ x :: P2))
      by (rewrite !length_app; simpl; lia).
    auto.
Qed.

Lemma insertionSort_part data pre B post :
  ExprSort.sorter data = sorter ->
  records data = pre ++ B ++ post ->
  exists B',
    records (insertionSort data (length pre) (length pre + length B))
    = pre ++ B' ++ post
    /\ ExprSort.sorter (insertionSort data (length pre)
                          (length pre + length B)) = sorter
    /\ ps B B'.
Proof.
  intros Hs E. unfold insertionSort. destruct B as [|x U].
  - exists []. simpl length.
    replace (length pre + 0 - (length pre + 1)) with 0 by lia.
    simpl. split; [exact E|split; [exact Hs|apply ps_nil]].
  - simpl length.
    replace (length pre + S (length U) - (length pre + 1)) with (length U)
      by lia.
    destruct (insertionLoop_part U data pre [x] [x] post Hs E)
      as (S' & F1 & F2 & F3).
    { split; [done|]. apply sorted_singleton. }
    exists S'. simpl length in F1, F2. auto.
Qed.

(** *** [symMerge] *)

Lemma single_left_part data pre x R post a m b :
  ExprSort.sorter data = sorter ->
  records data = pre ++ [x] ++ R ++ post ->
  a = length pre -> m = a + 1 -> b = m + length R ->
  csorted R ->
  exists M,
    records (swapUp (search (fun h => Less data h a) m b - 1 - a) data a)
    = pre ++ M ++ post
    /\ ExprSort.sorter
         (swapUp (search (fun h => Less data h a) m b - 1 - a) data a) = sorter
    /\ ps ([x] ++ R) M.
Proof.
  intros Hs E -> -> -> HR.
  set (a := length pre). set (m := a + 1).
  destruct (search_spec (fun h => Less data h a) m (m + length R))
    as (B & C & F); [lia|].
  set (i := search _ m _) in *.
  set (k := i - m).
  assert (Hx : records data !! a = Some x).
  { rewrite (lookup_left data pre [x] R post a E) by (simpl; lia).
    by rewrite Nat.sub_diag. }
  assert (Hless : forall h r, m <= h < m + length R -> R !! (h - m) = Some r ->
            Less data h a = less sorter r x).
  { intros h r Hh Hr. rewrite <- Hs. apply Less_at; [|done].
    rewrite (lookup_right data pre [x] R post h E) by (simpl; lia).
    rewrite <- Hr. f_equal; simpl; lia. }
  assert (Hlow : Forall (fun r => cle r x) (take k R)).
  { destruct (decide (k = 0)) as [->|Hk]; [constructor|].
    destruct C as [C|C]; [lia|].
    destruct (lookup_lt_is_Some_2 R (k - 1)) as [p Hp]; [lia|].
    rewrite (Hless (i - 1) p) in C; [|lia|rewrite <- Hp; f_equal; lia].
    apply less_cle in C.
    eapply Forall_impl;
      [apply (take_le_last cs coarse_order R k p HR); [lia|done]|].
    intros r Hr. by apply (le_trans cs coarse_order r p x). }
  assert (Hhigh : Forall (fun r => cle x r) (drop k R)).
  { destruct F as [F|F].
    - rewrite drop_ge by lia. constructor.
    - destruct (decide (k < length R)) as [Hk|Hk];
        [|rewrite drop_ge by lia; constructor].
      destruct (lookup_lt_is_Some_2 R k) as [p Hp]; [lia|].
      rewrite (Hless i p) in F; [|lia|done].
      apply not_less_cle in F.
      eapply Forall_impl; [apply (drop_ge_first cs coarse_order R k p HR Hp)|].
      intros r Hr. by apply (le_trans cs coarse_order x p r). }
  assert (HR' : csorted (take k R ++ drop k R)) by (by rewrite take_drop).
  pose proof (insert_between _ _ x HR' Hlow Hhigh) as I1.
  assert (Hlen : length (take k R) = i - 1 - a)
    by (rewrite length_take_le; lia).
  destruct (swapUp_spec sorter (take k R) data pre x (drop k R ++ post) Hs)
    as [F1 F2].
  { rewrite E. simpl. by rewrite app_assoc, take_drop. }
  rewrite Hlen in F1, F2. fold a in F1, F2.
  exists (take k R ++ x :: drop k R). rewrite F1, F2.
  split; [by rewrite <- app_assoc|]. split; [reflexivity|].
  split; [|exact I1].
  simpl. etrans; [|apply Permutation_middle]. by rewrite take_drop.
Qed.

Lemma single_right_part data pre L y post a m b :
  ExprSort.sorter data = sorter ->
  records data = pre ++ L ++ [y] ++ post ->
  a = length pre -> m = a + length L -> b = m + 1 ->
  csorted L ->
  exists M,
    records (swapDown data (search (fun h => negb (Less data m h)) a m) m)
    = pre ++ M ++ post
    /\ ExprSort.sorter
         (swapDown data (search (fun h => negb (Less data m h)) a m) m)
       = sorter
    /\ ps (L ++ [y]) M.
Proof.
  intros Hs E -> -> -> HL.
  set (a := length pre). set (m := a + length L).
  destruct (search_spec (fun h => negb (Less data m h)) a m)
    as (B & C & F); [lia|].
  set (i := search _ a m) in *.
  set (k := i - a).
  assert (Hy : records data !! m = Some y).
  { rewrite (lookup_right data pre L [y] post m E) by (simpl; lia).
    by rewrite Nat.sub_diag. }
  assert (Hless : forall h r, a <= h < m -> L !! (h - a) = Some r ->
            Less data m h = less sorter y r).
  { intros h r Hh Hl. rewrite <- Hs. apply Less_at; [done|].
    by rewrite (lookup_left data pre L [y] post h E) by lia. }
  assert (Hlow : Forall (fun r => cle r y) (take k L)).
  { destruct (decide (k = 0)) as [->|Hk]; [constructor|].
    destruct C as [C|C]; [lia|].
    destruct (lookup_lt_is_Some_2 L (k - 1)) as [p Hp]; [lia|].
    rewrite (Hless (i - 1) p) in C; [|lia|rewrite <- Hp; f_equal; lia].
    apply negb_true_iff in C. apply not_less_cle in C.
    eapply Forall_impl;
      [apply (take_le_last cs coarse_order L k p HL); [lia|done]|].
    intros r Hr. by apply (le_trans cs coarse_order r p y). }
  assert (Hhigh : Forall (fun r => cle y r) (drop k L)).
  { destruct (decide (k < length L)) as [Hk|Hk];
      [|rewrite drop_ge by lia; constructor].
    destruct F as [F|F]; [lia|].
    destruct (lookup_lt_is_Some_2 L k) as [p Hp]; [lia|].
    rewrite (Hless i p) in F; [|lia|done].
    apply negb_false_iff in F. apply less_cle in F.
    eapply Forall_impl; [apply (drop_ge_first cs coarse_order L k p HL Hp)|].
    intros r Hr. by apply (le_trans cs coarse_order y p r). }
  assert (HL' : csorted (take k L ++ drop k L)) by (by rewrite take_drop).
  pose proof (insert_between _ _ y HL' Hlow Hhigh) as I1.
  destruct (swapDown_spec sorter (drop k L) data (pre ++ take k L) y post Hs)
    as [F1 F2].
  { rewrite E. rewrite <- !app_assoc.
    by rewrite (app_assoc (take k L)), take_drop. }
  replace (length (pre ++ take k L)) with i in F1, F2
    by (rewrite length_app, length_take_le; lia).
  replace (i + length (drop k L)) with m in F1, F2
    by (rewrite length_drop; lia).
  exists (take k L ++ y :: drop k L). rewrite F1, F2.
  split; [by rewrite <- !app_assoc|]. split; [reflexivity|].
  split; [|exact I1].
  etrans; [apply Permutation_app_comm|]. simpl.
  etrans; [|apply Permutation_middle]. by rewrite take_drop.
Qed.

Local Abbreviation part_ok fuel :=
  (forall data pre L R post a m b,
    ExprSort.sorter data = sorter ->
    records data = pre ++ L ++ R ++ post ->
    a = length pre -> m = a + length L -> b = m + length R ->
    0 < length L -> 0 < length R -> length L + length R <= fuel ->
    csorted L -> csorted R ->
    exists M,
      records (symMergeRec fuel data a m b) = pre ++ M ++ post
      /\ ExprSort.sorter (symMergeRec fuel data a m b) = sorter
      /\ ps (L ++ R) M).

Lemma Less_between data pre L R post i j u v :
  ExprSort.sorter data = sorter ->
  records data = pre ++ L ++ R ++ post ->
  R !! i = Some v -> L !! j = Some u ->
  Less data (length pre + length L + i) (length pre + j) = less sorter v u.
Proof.
  intros Hs E Hv Hu.
  pose proof (lookup_lt_Some _ _ _ Hv) as Hi.
  pose proof (lookup_lt_Some _ _ _ Hu) as Hj.
  rewrite <- Hs. apply Less_at.
  - rewrite (lookup_right data pre L R post _ E) by lia.
    rewrite <- Hv. f_equal. lia.
  - rewrite (lookup_left data pre L R post _ E) by lia.
    rewrite <- Hu. f_equal. lia.
Qed.

Lemma split_part (L1 L2 R1 R2 M1 M2 : list Record) :
  csorted (L1 ++ L2) -> csorted (R1 ++ R2) ->
  Forall (fun u => Forall (fun v => cle u v) R2) L1 ->
  Forall (fun v => Forall (fun u => cle v u) L2) R1 ->
  ps (L1 ++ R1) M1 -> ps (L2 ++ R2) M2 ->
  ps ((L1 ++ L2) ++ R1 ++ R2) (M1 ++ M2).
Proof.
  intros (SL1 & SL2 & SL)%sorted_app (SR1 & SR2 & SR)%sorted_app HLR HRL
    (P1 & S1) (P2 & S2).
  split.
  - rewrite <- P1, <- P2. rewrite <- !app_assoc. apply Permutation_app_head.
    rewrite !app_assoc. apply Permutation_app_tail, Permutation_app_comm.
  - apply sorted_app. split; [exact S1|]. split; [exact S2|].
    apply Forall_forall. intros x Hx. apply Forall_forall. intros y Hy.
    rewrite <- P1 in Hx. rewrite <- P2 in Hy.
    apply elem_of_app in Hx as [Hx|Hx], Hy as [Hy|Hy].
    + exact (proj1 (Forall_forall _ _)
               (proj1 (Forall_forall _ _) SL x Hx) y Hy).
    + exact (proj1 (Forall_forall _ _)
               (proj1 (Forall_forall _ _) HLR x Hx) y Hy).
    + exact (proj1 (Forall_forall _ _)
               (proj1 (Forall_forall _ _) HRL x Hx) y Hy).
    + exact (proj1 (Forall_forall _ _)
               (proj1 (Forall_forall _ _) SR x Hx) y Hy).
Qed.

Lemma divide_part fuel data pre L R post a m b mid start0 r0 :
  part_ok fuel ->
  ExprSort.sorter data = sorter ->
  records data = pre ++ L ++ R ++ post ->
  a = length pre -> m = a + length L -> b = m + length R ->
  2 <= length L -> 2 <= length R -> length L + length R <= S fuel ->
  csorted L -> csorted R ->
  2 * mid <= a + b <= 2 * mid + 1 ->
  a <= start0 -> start0 <= r0 -> r0 <= m -> r0 <= mid ->
  mid + m <= start0 + b ->
  (start0 = a \/ start0 + b = mid + m) ->
  (r0 = m \/ r0 = mid) ->
  let n := mid + m in
  let p := n - 1 in
  let start := search (fun c => negb (Less data (p - c) c)) start0 r0 in
  let end_ := n - start in
  let data1 :=
    if (start <? m) && (m <? end_) then rotate data start m end_ else data in
  let data2 :=
    if (a <? start) && (start <? mid)
    then symMergeRec fuel data1 a start mid else data1 in
  let data3 :=
    if (mid <? end_) && (end_ <? b)
    then symMergeRec fuel data2 mid end_ b else data2 in
  exists M,
    records data3 = pre ++ M ++ post
    /\ ExprSort.sorter data3 = sorter
    /\ ps (L ++ R) M.
Proof.
  intros Hrec Hs E Ha Hm Hb HL2 HR2 Hfuel HL HR Hmid H1 H2 H3 H4 H5 H6 H7.
  cbv zeta.
  destruct (search_spec (fun c => negb (Less data (mid + m - 1 - c) c))
              start0 r0 H2) as (B & C & F).
  set (start := search _ start0 r0) in *. clearbody start.
  assert (exists kL, start = a + kL) as [kL HkL]
    by (exists (start - a); lia).
  assert (exists kR, mid = start + kR) as [kR HkR]
    by (exists (mid - start); lia).
  replace (mid + m - start) with (m + kR) by lia.
  assert (HkLle : kL <= length L) by lia.
  assert (HkRle : kR <= length R) by lia.
  assert (C' : kL = 0 \/ kR = length R
               \/ Less data (m + kR) (a + (kL - 1)) = false).
  { destruct (decide (kL = 0)) as [?|HkL0]; [by left|right].
    destruct C as [C|C]; [left; lia|right].
    apply negb_true_iff in C. rewrite <- C. f_equal; lia. }
  assert (F' : kR = 0 \/ kL = length L
               \/ Less data (m + (kR - 1)) (a + kL) = true).
  { destruct (decide (kR = 0)) as [?|HkR0]; [by left|right].
    destruct F as [F|F]; [left; lia|right].
    apply negb_false_iff in F. rewrite <- F. f_equal; lia. }
  clear B C F H1 H2 H3 H4 H5 H6 H7.
  set (L1 := take kL L). set (L2 := drop kL L).
  set (R1 := take kR R). set (R2 := drop kR R).
  assert (EL : L1 ++ L2 = L) by apply take_drop.
  assert (ER : R1 ++ R2 = R) by apply take_drop.
  assert (lL1 : length L1 = kL) by (by apply length_take_le).
  assert (lL2 : length L2 + kL = length L)
    by (unfold L2; rewrite length_drop; lia).
  assert (lR1 : length R1 = kR) by (by apply length_take_le).
  assert (lR2 : length R2 + kR = length R)
    by (unfold R2; rewrite length_drop; lia).
  assert (HLR : Forall (fun u => Forall (fun v => cle u v) R2) L1).
  { destruct C' as [Hk|[Hk|C]].
    { unfold L1. rewrite Hk. constructor. }
    { unfold R2. rewrite drop_ge by lia. apply Forall_forall.
      intros; constructor. }
    destruct (decide (kL = 0)) as [Hk|Hk].
    { unfold L1. rewrite Hk. constructor. }
    destruct (decide (kR = length R)) as [Hk'|Hk'].
    { unfold R2. rewrite drop_ge by lia. apply Forall_forall.
      intros; constructor. }
    destruct (lookup_lt_is_Some_2 L (kL - 1)) as [u0 Hu0]; [lia|].
    destruct (lookup_lt_is_Some_2 R kR) as [v0 Hv0]; [lia|].
    rewrite Hm, Ha, (Less_between data pre L R post kR (kL - 1) u0 v0) in C
      by done.
    apply not_less_cle in C.
    pose proof (take_le_last cs coarse_order L kL u0 HL ltac:(lia) Hu0) as T1.
    pose proof (drop_ge_first cs coarse_order R kR v0 HR Hv0) as T2.
    eapply Forall_impl; [exact T1|]. intros u Hu. simpl.
    eapply Forall_impl; [exact T2|]. intros v Hv. simpl.
    apply (le_trans cs coarse_order u u0 v); [done|].
    by apply (le_trans cs coarse_order u0 v0 v). }
  assert (HRL : Forall (fun v => Forall (fun u => cle v u) L2) R1).
  { destruct F' as [Hk|[Hk|F]].
    { unfold R1. rewrite Hk. constructor. }
    { unfold L2. rewrite drop_ge by lia. apply Forall_forall.
      intros; constructor. }
    destruct (decide (kR = 0)) as [Hk|Hk].
    { unfold R1. rewrite Hk. constructor. }
    destruct (decide (kL = length L)) as [Hk'|Hk'].
    { unfold L2. rewrite drop_ge by lia. apply Forall_forall.
      intros; constructor. }
    destruct (lookup_lt_is_Some_2 L kL) as [u0 Hu0]; [lia|].
    destruct (lookup_lt_is_Some_2 R (kR - 1)) as [v0 Hv0]; [lia|].
    rewrite Hm, Ha, (Less_between data pre L R post (kR - 1) kL u0 v0) in F
      by done.
    apply less_cle in F.
    pose proof (take_le_last cs coarse_order R kR v0 HR ltac:(lia) Hv0) as T1.
    pose proof (drop_ge_first cs coarse_order L kL u0 HL Hu0) as T2.
    eapply Forall_impl; [exact T1|]. intros v Hv. simpl.
    eapply Forall_impl; [exact T2|]. intros u Hu. simpl.
    apply (le_trans cs coarse_order v v0 u); [done|].
    by apply (le_trans cs coarse_order v0 u0 u). }
  clear C' F'.
  assert (SL1 : csorted L1) by (by apply sorted_take).
  assert (SL2 : csorted L2) by (by apply sorted_drop).
  assert (SR1 : csorted R1) by (by apply sorted_take).
  assert (SR2 : csorted R2) by (by apply sorted_drop).
  assert (E' : records data = pre ++ L1 ++ L2 ++ R1 ++ R2 ++ post).
  { rewrite E, <- EL, <- ER. by rewrite <- !app_assoc. }
  assert (HLs : csorted (L1 ++ L2)) by (by rewrite EL).
  assert (HRs : csorted (R1 ++ R2)) by (by rewrite ER).
  clearbody L1 L2 R1 R2. subst L R. clear E.
  rewrite !length_app in *.
  assert (Hfuel' : length L1 + length R1 <= fuel
                   /\ length L2 + length R2 <= fuel) by lia.
  clear HL2 HR2 Hfuel HkLle HkRle lL2 lR2 Hmid.
  subst kL kR.
  set (data1 := if (start <? m) && (m <? m + length R1)
                then rotate data start m (m + length R1) else data).
  assert (D1 : records data1 = pre ++ L1 ++ R1 ++ L2 ++ R2 ++ post
               /\ ExprSort.sorter data1 = sorter).
  { unfold data1.
    destruct (Nat.ltb_spec start m) as [Q1|Q1];
      [destruct (Nat.ltb_spec m (m + length R1)) as [Q2|Q2]|]; simpl.
    - destruct (rotate_spec sorter data (pre ++ L1) L2 R1 (R2 ++ post) start m
                  (m + length R1)) as [F1 F2]; try done.
      + lia.
      + lia.
      + rewrite length_app. lia.
      + lia.
      + rewrite E'. by rewrite <- !app_assoc.
      + rewrite F1, F2. by rewrite <- !app_assoc.
    - assert (R1 = []) as -> by (apply length_zero_iff_nil; lia).
      by split.
    - assert (L2 = []) as -> by (apply length_zero_iff_nil; lia).
      by split. }
  destruct D1 as [D1 D1s]. clearbody data1. clear E' Hs data.
  set (data2 := if (a <? start) && (start <? mid)
                then symMergeRec fuel data1 a start mid else data1).
  assert (D2 : exists M1, records data2 = pre ++ M1 ++ L2 ++ R2 ++ post
               /\ ExprSort.sorter data2 = sorter /\ ps (L1 ++ R1) M1).
  { unfold data2.
    destruct (Nat.ltb_spec a start) as [Q1|Q1];
      [destruct (Nat.ltb_spec start mid) as [Q2|Q2]|]; simpl.
    - apply (Hrec data1 pre L1 R1 (L2 ++ R2 ++ post)); try done; lia.
    - assert (R1 = []) as -> by (apply length_zero_iff_nil; lia).
      exists L1. rewrite app_nil_r. split; [done|]. split; [done|].
      by apply ps_refl.
    - assert (L1 = []) as -> by (apply length_zero_iff_nil; lia).
      exists R1. split; [done|]. split; [done|]. by apply ps_refl. }
  destruct D2 as (M1 & D2 & D2s & HM1). clearbody data2. clear D1 D1s data1.
  pose proof (ps_length _ _ HM1) as lM1. rewrite length_app in lM1.
  set (data3 := if (mid <? m + length R1) && (m + length R1 <? b)
                then symMergeRec fuel data2 mid (m + length R1) b else data2).
  assert (D3 : exists M2, records data3 = (pre ++ M1) ++ M2 ++ post
               /\ ExprSort.sorter data3 = sorter /\ ps (L2 ++ R2) M2).
  { unfold data3.
    destruct (Nat.ltb_spec mid (m + length R1)) as [Q1|Q1];
      [destruct (Nat.ltb_spec (m + length R1) b) as [Q2|Q2]|]; simpl.
    - apply (Hrec data2 (pre ++ M1) L2 R2 post); try done.
      + rewrite D2. by rewrite <- !app_assoc.
      + rewrite length_app. lia.
      + lia.
      + lia.
      + lia.
      + lia.
      + lia.
    - assert (R2 = []) as -> by (apply length_zero_iff_nil; lia).
      exists L2. rewrite app_nil_r. split; [|split; [done|by apply ps_refl]].
      rewrite D2. by rewrite <- !app_assoc.
    - assert (L2 = []) as -> by (apply length_zero_iff_nil; lia).
      exists R2. split; [|split; [done|by apply ps_refl]].
      rewrite D2. by rewrite <- !app_assoc. }
  destruct D3 as (M2 & D3 & D3s & HM2).
  exists (M1 ++ M2). split; [rewrite D3; by rewrite <- !app_assoc|].
  split; [done|]. by apply split_part.
Qed.

Lemma symMergeRec_part fuel : part_ok fuel.
Proof.
  induction fuel as [|fuel IH];
    intros data pre L R post a m b Hs E Ha Hm Hb HL0 HR0 Hfuel HL HR; [lia|].
  rewrite symMergeRec_S.
  destruct (Nat.eqb_spec (m - a) 1) as [Q1|Q1].
  { destruct L as [|x [|? ?]]; simpl in *; try lia.
    by apply (single_left_part data pre x R post a m b). }
  destruct (Nat.eqb_spec (b - m) 1) as [Q2|Q2].
  { destruct R as [|y [|? ?]]; simpl in *; try lia.
    by apply (single_right_part data pre L y post a m b). }
  pose proof (Nat.div_mod_eq (a + b) 2) as D.
  pose proof (Nat.mod_upper_bound (a + b) 2 ltac:(lia)) as D'.
  cbv zeta. set (mid := (a + b) / 2) in *.
  destruct (Nat.ltb_spec mid m) as [Q3|Q3].
  - apply (divide_part fuel data pre L R post a m b mid (mid + m - b) mid);
      try done; try lia.
  - apply (divide_part fuel data pre L R post a m b mid a m);
      try done; try lia.
Qed.

Lemma symMerge_part data pre L R post a m b :
  ExprSort.sorter data = sorter ->
  records data = pre ++ L ++ R ++ post ->
  a = length pre -> m = a + length L -> b = m + length R ->
  0 < length L -> 0 < length R ->
  csorted L -> csorted R ->
  exists M,
    records (symMerge data a m b) = pre ++ M ++ post
    /\ ExprSort.sorter (symMerge data a m b) = sorter
    /\ ps (L ++ R) M.
Proof.
  intros Hs E Ha Hm Hb HL0 HR0 HL HR. unfold symMerge.
  apply (symMergeRec_part (b - a) data pre L R post a m b); try done. lia.
Qed.

(** *** The passes of [stable] *)

Local Abbreviation pblocks bs l out := (PartBlocks cls bs l out).

Lemma PartBlocks_length bs l out : pblocks bs l out -> length out = length l.
Proof.
  induction 1 as [l out _ H|B B' l out _ HB _ IH].
  - by apply ps_length.
  - apply ps_length in HB. rewrite !length_app. lia.
Qed.

Lemma PartBlocks_nil bs : pblocks bs [] [].
Proof. apply PartBlocks_last; [simpl; lia|]. apply ps_nil. Qed.

Lemma PartBlocks_split bs l out :
  pblocks bs l out -> bs <= length l ->
  exists B B' l1 out1,
    l = B ++ l1 /\ out = B' ++ out1 /\ length B = bs
    /\ ps B B' /\ pblocks bs l1 out1.
Proof.
  destruct 1 as [l out Hl H|B B' l out HB H Hrest]; intros Hbs.
  - exists l, out, [], []. rewrite !app_nil_r.
    split; [done|]. split; [done|]. split; [lia|].
    split; [done|apply PartBlocks_nil].
  - by exists B, B', l, out.
Qed.

Lemma PartBlocks_small bs l out :
  pblocks bs l out -> length l <= bs -> ps l out.
Proof.
  destruct 1 as [l out Hl H|B B' l out HB H Hrest]; intros Hbs.
  - done.
  - rewrite length_app in Hbs.
    assert (l = []) as -> by (apply length_zero_iff_nil; lia).
    apply PartBlocks_length in Hrest.
    assert (out = []) as -> by (by apply length_zero_iff_nil).
    by rewrite !app_nil_r.
Qed.

Lemma blocksLoop_part bs fuel : forall data pre rest a n,
  0 < bs ->
  ExprSort.sorter data = sorter ->
  records data = pre ++ rest ->
  a = length pre -> n = a + length rest -> length rest <= fuel ->
  exists out,
    records (insertionSort (blocksLoop fuel data bs a (a + bs) n).1
               (blocksLoop fuel data bs a (a + bs) n).2 n) = pre ++ out
    /\ ExprSort.sorter
         (insertionSort (blocksLoop fuel data bs a (a + bs) n).1
            (blocksLoop fuel data bs a (a + bs) n).2 n) = sorter
    /\ pblocks bs rest out.
Proof.
  induction fuel as [|fuel IH]; intros data pre rest a n Hbs Hs E Ha Hn Hfuel.
  - assert (rest = []) as -> by (apply length_zero_iff_nil; lia).
    simpl fst; simpl snd.
    destruct (insertionSort_part data pre [] [] Hs) as (B' & F1 & F2 & F3).
    { by rewrite E. }
    simpl in F1, F2. rewrite Nat.add_0_r in F1, F2.
    simpl in Hn. rewrite Nat.add_0_r in Hn. subst a n.
    exists B'. rewrite app_nil_r in F1.
    split; [done|]. split; [done|].
    apply PartBlocks_last; [simpl; lia|done].
  - rewrite blocksLoop_S. destruct (Nat.leb_spec (a + bs) n) as [Q|Q].
    + rewrite <- (take_drop bs rest) in E.
      set (B := take bs rest) in *. set (rest1 := drop bs rest) in *.
      assert (lB : length B = bs) by (apply length_take_le; lia).
      assert (lrest1 : length rest1 = length rest - bs) by apply length_drop.
      destruct (insertionSort_part data pre B rest1 Hs E) as (B' & F1 & F2 & F3).
      rewrite <- Ha, lB in F1, F2.
      pose proof (ps_length _ _ F3) as lB'.
      destruct (IH (insertionSort data a (a + bs)) (pre ++ B') rest1
                  (a + bs) n Hbs F2) as (out & G1 & G2 & G3).
      { by rewrite F1, app_assoc. }
      { rewrite length_app. lia. }
      { lia. }
      { lia. }
      exists (B' ++ out). rewrite G1, G2. split; [by rewrite app_assoc|].
      split; [done|]. rewrite <- (take_drop bs rest). fold B rest1.
      by apply PartBlocks_cons.
    + simpl fst; simpl snd.
      destruct (insertionSort_part data pre rest [] Hs) as (B' & F1 & F2 & F3).
      { by rewrite app_nil_r. }
      rewrite <- Ha, <- Hn in F1, F2. rewrite app_nil_r in F1.
      exists B'. split; [done|]. split; [done|].
      apply PartBlocks_last; [lia|done].
Qed.

Lemma mergeLoop_part bs fuel : forall data pre rest cur a n,
  0 < bs ->
  ExprSort.sorter data = sorter ->
  records data = pre ++ cur ->
  pblocks bs rest cur ->
  a = length pre -> n = a + length rest -> length rest <= fuel ->
  exists out,
    records
      (let '(data', a') := mergeLoop fuel data bs a (a + 2 * bs) n in
       if a' + bs <? n then symMerge data' a' (a' + bs) n else data')
    = pre ++ out
    /\ ExprSort.sorter
         (let '(data', a') := mergeLoop fuel data bs a (a + 2 * bs) n in
          if a' + bs <? n then symMerge data' a' (a' + bs) n else data')
       = sorter
    /\ pblocks (2 * bs) rest out.
Proof.
  induction fuel as [|fuel IH];
    intros data pre rest cur a n Hbs Hs E Hcur Ha Hn Hfuel.
  - assert (rest = []) as -> by (apply length_zero_iff_nil; lia).
    pose proof (PartBlocks_length _ _ _ Hcur) as lcur.
    assert (cur = []) as -> by (by apply length_zero_iff_nil).
    simpl in Hn. cbn [mergeLoop].
    destruct (Nat.ltb_spec (a + bs) n) as [Q|Q]; [lia|].
    exists []. split; [done|]. split; [done|]. apply PartBlocks_nil.
  - rewrite mergeLoop_S.
    pose proof (PartBlocks_length _ _ _ Hcur) as lcur.
    destruct (Nat.leb_spec (a + 2 * bs) n) as [Q|Q].
    + destruct (PartBlocks_split bs rest cur Hcur)
        as (B1 & B1' & rest1 & cur1 & -> & -> & lB1 & HB1 & Hcur1); [lia|].
      rewrite length_app in Hn, Hfuel.
      destruct (PartBlocks_split bs rest1 cur1 Hcur1)
        as (B2 & B2' & rest2 & cur2 & -> & -> & lB2 & HB2 & Hcur2); [lia|].
      rewrite length_app in Hn, Hfuel.
      pose proof (ps_length _ _ HB1) as lB1'.
      pose proof (ps_length _ _ HB2) as lB2'.
      destruct (symMerge_part data pre B1' B2' cur2 a (a + bs) (a + 2 * bs))
        as (M & F1 & F2 & F3); try done; try lia.
      { by destruct HB1 as (_ & ?). }
      { by destruct HB2 as (_ & ?). }
      pose proof (ps_length _ _ F3) as lM. rewrite length_app in lM.
      destruct (IH (symMerge data a (a + bs) (a + 2 * bs)) (pre ++ M)
                  rest2 cur2 (a + 2 * bs) n Hbs F2) as (out & G1 & G2 & G3);
        try done; try (rewrite ?length_app; lia).
      { by rewrite F1, app_assoc. }
      exists (M ++ out). rewrite G1, G2. split; [by rewrite app_assoc|].
      split; [done|]. rewrite (app_assoc B1).
      apply PartBlocks_cons; [rewrite length_app; lia| |done].
      by apply (ps_app B1 B1' B2 B2').
    + destruct (Nat.ltb_spec (a + bs) n) as [Q'|Q'].
      * destruct (PartBlocks_split bs rest cur Hcur)
          as (B1 & B1' & rest1 & cur1 & -> & -> & lB1 & HB1 & Hcur1); [lia|].
        rewrite length_app in Hn, Hfuel.
        pose proof (PartBlocks_length _ _ _ Hcur1) as lcur1.
        pose proof (PartBlocks_small bs rest1 cur1 Hcur1 ltac:(lia)) as Hrest1.
        pose proof (ps_length _ _ HB1) as lB1'.
        destruct (symMerge_part data pre B1' cur1 [] a (a + bs) n)
          as (M & F1 & F2 & F3); try done; try lia.
        { by rewrite app_nil_r. }
        { by destruct HB1 as (_ & ?). }
        { by destruct Hrest1 as (_ & ?). }
        rewrite app_nil_r in F1.
        exists M. split; [done|]. split; [done|].
        apply PartBlocks_last; [rewrite length_app; lia|].
        by apply (ps_app B1 B1' rest1 cur1).
      * exists cur. split; [done|]. split; [done|].
        apply PartBlocks_last; [lia|].
        apply (PartBlocks_small bs); [done|lia].
Qed.

Lemma passLoop_part fuel : forall data l bs n,
  0 < bs ->
  ExprSort.sorter data = sorter ->
  pblocks bs l (records data) ->
  n = length l -> n <= fuel + bs ->
  ps l (records (passLoop fuel data bs n))
  /\ ExprSort.sorter (passLoop fuel data bs n) = sorter.
Proof.
  induction fuel as [|fuel IH]; intros data l bs n Hbs Hs Hb Hn Hfuel.
  - simpl. split; [|done]. apply (PartBlocks_small bs); [done|lia].
  - rewrite passLoop_S. destruct (Nat.ltb_spec bs n) as [Q|Q].
    + destruct (mergeLoop_part bs n data [] l (records data) 0 n)
        as (out & F1 & F2 & F3); try done; try lia.
      change (0 + 2 * bs) with (2 * bs) in F1, F2.
      destruct (mergeLoop n data bs 0 (2 * bs) n) as [data' a'].
      cbv zeta. simpl app in F1.
      apply IH; try done; try lia.
      rewrite F1. by replace (bs * 2) with (2 * bs) by lia.
    + split; [|done]. apply (PartBlocks_small bs); [done|lia].
Qed.

Lemma stableWith_part bs data :
  0 < bs ->
  ExprSort.sorter data = sorter ->
  ps (records data) (records (stableWith bs data (length (records data)))).
Proof.
  intros Hbs Hs. unfold stableWith.
  set (n := length (records data)).
  destruct (blocksLoop_part bs n data [] (records data) 0 n)
    as (out & F1 & F2 & F3); try done.
  change (0 + bs) with bs in F1, F2.
  destruct (blocksLoop n data bs 0 bs n) as [data' a'].
  simpl fst in F1, F2; simpl snd in F1, F2. simpl app in F1.
  apply passLoop_part; try done; try lia. by rewrite F1.
Qed.

(** A partitioned list is the records outside the class, then those of
    the class. *)
Lemma csorted_filter l :
  csorted l ->
  l = List.filter (fun x => negb (cls x)) l ++ List.filter cls l.
Proof.
  induction 1 as [|x l Hl IH Hx]; [reflexivity|]. simpl.
  destruct (cls x) eqn:Ex; simpl.
  - assert (A : Forall (fun y => cls y = true) l).
    { eapply Forall_impl; [exact Hx|]. intros y Hy. simpl in Hy.
      rewrite less_coarse, Ex in Hy. simpl in Hy.
      by destruct (cls y). }
    rewrite (ExprFacts.filter_none (fun y => negb (cls y))).
    + by rewrite (ExprFacts.filter_all cls l A).
    + eapply Forall_impl; [exact A|]. by intros y ->.
  - by f_equal.
Qed.

(** [SortStable] with a comparator that separates a class from the rest
    puts the records of the class behind all the others. *)
Lemma SortStable_partitions (recs : list Record) :
  recs ≡ₚ SortStable recs sorter
  /\ SortStable recs sorter
     = List.filter (fun x => negb (cls x)) (SortStable recs sorter)
       ++ List.filter cls (SortStable recs sorter).
Proof.
  destruct (stableWith_part 20 (mkRecordSlice recs sorter)) as [P S];
    [lia|done|].
  split; [exact P|]. by apply csorted_filter.
Qed.

End Partition.

(** *** The null policy of [NewSortFn] in the output of [SortStable] *)

Section NullPolicy.

Import Zng Expr ExprFacts.
Local Open Scope Z_scope.

Context `{codec : Codec} {Record : Type}.
Implicit Types (fields : list (FieldExprResolver Record)).

Lemma allNull_separates fields sorters :
  sortersOK sorters ->
  Separates (compareRecords true fields sorters) (allNull fields).
Proof.
  intros Hs x y Hx Hy. unfold less.
  rewrite (allNull_right true fields sorters y x Hs Hy Hx).
  by rewrite (allNull_left true fields sorters y x Hs Hy Hx).
Qed.

Lemma someKey_separates fields sorters :
  sortersOK sorters ->
  Separates (compareRecords false fields sorters) (someKey fields).
Proof.
  unfold someKey. intros Hs x y Hx%negb_false_iff Hy%negb_true_iff.
  unfold less.
  rewrite (allNull_left false fields sorters x y Hs Hx Hy).
  by rewrite (allNull_right false fields sorters x y Hs Hx Hy).
Qed.

(** C1.  For the comparator of [NewSortFn] on the fields [fields]: when
    two records tie on the fields before [f] and exactly one of them has
    a null value for [f], the comparator orders the record with the null
    above the other if [nullsMax] and below it if not.  And whatever the
    records are, [SortStable] with this comparator leaves a permutation
    of them in which the records whose keys are all null stand at the end
    if [nullsMax], and at the start if not. *)
Theorem SortStable_null_policy nullsMax fields sorters (recs : list Record)
    (Hs : sortersOK sorters) :
  let sorter := compareRecords nullsMax fields sorters in
  let out := SortStable recs sorter in
  (forall pre f post ra rb,
     fields = pre ++ f :: post ->
     Forall (tie nullsMax ra rb) pre ->
     isNull (f ra) <> isNull (f rb) ->
     sorter ra rb
     = (if isNull (f ra) then (if nullsMax then 1 else -1)
        else (if nullsMax then -1 else 1)))
  /\ recs ≡ₚ out
  /\ out = (if nullsMax
            then List.filter (someKey fields) out
                 ++ List.filter (allNull fields) out
            else List.filter (allNull fields) out
                 ++ List.filter (someKey fields) out).
Proof.
  intros sorter out. split.
  - intros pre f post ra rb -> Hties Hnull. unfold sorter.
    rewrite compareRecords_ties, compareRecords_first by done.
    unfold compareValues.
    destruct (isNull (f ra)), (isNull (f rb)); done.
  - unfold out, sorter. destruct nullsMax.
    + exact (SortStable_partitions _ _ (allNull_separates fields sorters Hs)
               recs).
    + destruct (SortStable_partitions _ _ (someKey_separates fields sorters Hs)
                  recs) as [P E].
      split; [exact P|].
      rewrite (List.filter_ext (allNull fields)
                 (fun x => negb (someKey fields x))); [exact E|].
      intros x. unfold someKey. by rewrite negb_involutive.
Qed.

End NullPolicy.

(** *** The examples *)

Local Open Scope Z_scope.

Lemma byTs_order : StrictWeakOrder CodecModel.byTs.
Proof.
  assert (L : forall x y, less CodecModel.byTs x y = (x.1.1 <? y.1.1)).
  { intros x y. unfold less, CodecModel.byTs.
    destruct (Z.ltb_spec x.1.1 y.1.1); [reflexivity|].
    destruct (Z.gtb_spec x.1.1 y.1.1); reflexivity. }
  split; intros *; rewrite !L.
  - apply Z.ltb_irrefl.
  - rewrite !Z.ltb_lt. lia.
  - rewrite !Z.ltb_ge. lia.
Qed.

Lemma byTs_consistent : Consistent CodecModel.byTs.
Proof.
  intros x y. unfold CodecModel.byTs.
  destruct (Z.ltb_spec x.1.1 y.1.1), (Z.gtb_spec x.1.1 y.1.1),
           (Z.ltb_spec y.1.1 x.1.1), (Z.gtb_spec y.1.1 x.1.1); lia.
Qed.

Lemma SortStable_unique_witness :
  StrictWeakOrder CodecModel.byN
  /\ StableSorted CodecModel.byN CodecModel.scenario
       [(2, "a", 1); (3, "b", 2); (1, "a", 3)]%string
  /\ SortStable CodecModel.scenario CodecModel.byN
     = [(2, "a", 1); (3, "b", 2); (1, "a", 3)]%string.
Proof.
  assert (E : SortStable CodecModel.scenario CodecModel.byN
              = [(2, "a", 1); (3, "b", 2); (1, "a", 3)]%string)
    by (vm_compute; reflexivity).
  assert (Hout : StableSorted CodecModel.byN CodecModel.scenario
                   [(2, "a", 1); (3, "b", 2); (1, "a", 3)]%string).
  { rewrite <- E. apply SortStable_StableSorted, byN_order. }
  exact (conj byN_order (conj Hout
    (SortStable_unique CodecModel.scenario _ CodecModel.byN byN_order Hout))).
Defined.

Lemma SortStable_sorted_fixed_witness :
  StrictWeakOrder CodecModel.byN
  /\ StronglySorted (Expr.inOrder CodecModel.byN)
       [(2, "a", 1); (3, "b", 2); (1, "a", 3)]%string
  /\ SortStable [(2, "a", 1); (3, "b", 2); (1, "a", 3)]%string CodecModel.byN
     = [(2, "a", 1); (3, "b", 2); (1, "a", 3)]%string.
Proof.
  assert (Hsorted : StronglySorted (Expr.inOrder CodecModel.byN)
                      [(2, "a", 1); (3, "b", 2); (1, "a", 3)]%string).
  { repeat constructor; intros H; vm_compute in H; discriminate. }
  exact (conj byN_order (conj Hsorted
    (SortStable_sorted_fixed _ CodecModel.byN byN_order Hsorted))).
Defined.

Lemma SortStable_idempotent_witness :
  StrictWeakOrder CodecModel.byN
  /\ SortStable (SortStable CodecModel.scenario CodecModel.byN) CodecModel.byN
     = SortStable CodecModel.scenario CodecModel.byN.
Proof.
  exact (conj byN_order
    (SortStable_idempotent CodecModel.scenario CodecModel.byN byN_order)).
Defined.

Section NullPolicyExample.
Import Zng Expr ExprFacts CodecModel.

(** The null policy on records of which two have a key that fails to
    decode: the two records with only null keys end the output with
    nulls greatest and start it with nulls least. *)
Lemma SortStable_null_policy_witness :
  sortersOK (codec := codec) noSorters
  /\ cmp true [column 0; column 1] [ip4; ipNull] [ip4; int7] = 1
  /\ SortStable nullScenario (cmp true [column 0; column 1])
     = [[ip3; strA]; [ip3; int7]; [ip4; ipNull]; [ipNull; strA]]
       ++ [[ipNull; ipNull]; [ipNull; ipNull]]
  /\ SortStable nullScenario (cmp false [column 0; column 1])
     = [[ipNull; ipNull]; [ipNull; ipNull]]
       ++ [[ipNull; strA]; [ip3; strA]; [ip3; int7]; [ip4; ipNull]].
Proof.
  assert (Hs : sortersOK (codec := codec) noSorters) by apply noSorters_ok.
  assert (Hties : Forall (tie (codec := codec) true [ip4; ipNull] [ip4; int7])
                    [column 0]).
  { constructor; [vm_compute; reflexivity|constructor]. }
  assert (Hnull : isNull (column 1 [ip4; ipNull])
                  <> isNull (column 1 [ip4; int7])).
  { vm_compute. discriminate. }
  destruct (SortStable_null_policy (codec := codec) true [column 0; column 1]
              noSorters nullScenario Hs) as (H1 & _ & H2).
  destruct (SortStable_null_policy (codec := codec) false [column 0; column 1]
              noSorters nullScenario Hs) as (_ & _ & H3).
  assert (E2 : SortStable nullScenario (cmp true [column 0; column 1])
               = [[ip3; strA]; [ip3; int7]; [ip4; ipNull]; [ipNull; strA];
                  [ipNull; ipNull]; [ipNull; ipNull]])
    by (vm_compute; reflexivity).
  assert (E3 : SortStable nullScenario (cmp false [column 0; column 1])
               = [[ipNull; ipNull]; [ipNull; ipNull]; [ipNull; strA];
                  [ip3; strA]; [ip3; int7]; [ip4; ipNull]])
    by (vm_compute; reflexivity).
  fold (cmp true [column 0; column 1]) in H2.
  fold (cmp false [column 0; column 1]) in H3.
  rewrite E2 in H2 at 2 3. rewrite E3 in H3 at 2 3.
  exact (conj Hs (conj
    (H1 [column 0] (column 1) [] [ip4; ipNull] [ip4; int7] eq_refl Hties Hnull)
    (conj H2 H3))).
Defined.

End NullPolicyExample.

Lemma SortStable_chain_witness :
  StrictWeakOrder CodecModel.byTs /\ StrictWeakOrder CodecModel.byN
  /\ Consistent CodecModel.byTs
  /\ SortStable
       (SortStable [(1, "a", 3); (1, "b", 1); (0, "c", 2)]%string
          CodecModel.byN) CodecModel.byTs
     = SortStable [(1, "a", 3); (1, "b", 1); (0, "c", 2)]%string
         (lexicographic CodecModel.byTs CodecModel.byN).
Proof.
  exact (conj byTs_order (conj byN_order (conj byTs_consistent
    (SortStable_chain [(1, "a", 3); (1, "b", 1); (0, "c", 2)]%string
       CodecModel.byTs CodecModel.byN byTs_order byN_order
       byTs_consistent)))).
Defined.

End SortFacts.

(** ** zqd/ingest: reader errors *)

Module IngestFacts.
Import Ingest.

Section Combiner.

Context {Record : Type} (Ts : Record -> Z).
Implicit Types (r : Reader (Record := Record)) (s : Slot (Record := Record)).
Implicit Types (c slots : list (Slot (Record := Record))).
Implicit Types (wch : list string) (out : list Record).
Implicit Types (rs : list (Reader (Record := Record))).

Local Abbreviation wrapped s := (warning (rd s) = true).
Local Abbreviation plain s := (warning (rd s) = false).
Local Abbreviation filled s := (done s = true \/ is_Some (hol s)).
Local Abbreviation allRecords c := (concat (map slotRecords c)).

Lemma omap_cons' {A B} (f : A -> option B) (x : A) (l : list A) :
  omap f (x :: l)
  = match f x with Some y => y :: omap f l | None => omap f l end.
Proof. reflexivity. Qed.

(** *** Filling the holders *)

Lemma fill_wrapped slots : forall wch,
  Forall (fun s => wrapped s) slots ->
  exists slots' wch',
    fill slots wch = (inr slots', wch')
    /\ Forall (fun s => wrapped s) slots'
    /\ Forall (fun s => filled s) slots'
    /\ allRecords slots' = allRecords slots
    /\ wch' ++ omap slotWarning slots' ≡ₚ wch ++ omap slotWarning slots.
Proof.
  induction slots as [|s slots IH]; intros wch Hw.
  - exists [], wch. simpl.
    split; [done|]. split; [constructor|]. split; [constructor|]. done.
  - apply Forall_cons in Hw as [Hs Hw]. simpl fill.
    destruct (done s || bool_decide (is_Some (hol s))) eqn:Hfilled.
    + destruct (IH wch Hw) as (slots' & wch' & -> & W & F & R & P).
      exists (s :: slots'), wch'. split; [done|].
      split; [by constructor|]. split.
      { constructor; [|done]. apply orb_true_iff in Hfilled as [?|?]; [by left|].
        right. by eapply bool_decide_eq_true_1. }
      split; [simpl; by rewrite R|].
      simpl. destruct (slotWarning s); [|done].
      by rewrite <- !Permutation_middle, P.
    + apply orb_false_iff in Hfilled as [Hdone Hhol].
      apply bool_decide_eq_false_1 in Hhol.
      assert (Hnone : hol s = None).
      { destruct (hol s); [|done]. exfalso. apply Hhol. by eexists. }
      unfold Read. destruct s as [[nm sc w] h d]. simpl in *. subst w h d.
      destruct sc as [|[rec|err] rest]; simpl.
      * destruct (IH wch Hw) as (slots' & wch' & -> & W & F & R & P).
        eexists _, wch'. split; [done|]. split; [by constructor|].
        split; [constructor; [by left|done]|].
        split; [simpl; by rewrite R|]. done.
      * destruct (IH wch Hw) as (slots' & wch' & -> & W & F & R & P).
        eexists _, wch'. split; [done|]. split; [by constructor|].
        split; [constructor; [right; by eexists|done]|].
        split; [simpl; by rewrite R|].
        unfold slotWarning, readerWarning, readerError. simpl.
        destruct (scriptError rest); simpl; [|done].
        by rewrite <- !Permutation_middle, P.
      * destruct (IH (wch ++ [warningText nm err]) Hw)
          as (slots' & wch' & -> & W & F & R & P).
        eexists _, wch'. split; [done|]. split; [by constructor|].
        split; [constructor; [by left|done]|].
        split; [simpl; by rewrite R|].
        change (wch' ++ omap slotWarning slots'
                ≡ₚ wch ++ warningText nm err :: omap slotWarning slots).
        by rewrite P, <- app_assoc.
Qed.


Lemma fill_plain slots : forall wch,
  Forall (fun s => plain s) slots ->
  match fill slots wch with
  | (inr slots', wch') =>
      wch' = wch
      /\ Forall (fun s => plain s) slots'
      /\ Forall (fun s => filled s) slots'
      /\ allRecords slots' = allRecords slots
      /\ omap slotError slots' = omap slotError slots
  | (inl err, wch') => wch' = wch /\ err ∈ omap slotError slots
  end.
Proof.
  induction slots as [|s slots IH]; intros wch Hw.
  - simpl. split; [done|]. split; [constructor|]. split; [constructor|]. done.
  - apply Forall_cons in Hw as [Hs Hw]. simpl fill.
    specialize (IH wch Hw).
    destruct (done s || bool_decide (is_Some (hol s))) eqn:Hfilled.
    + destruct (fill slots wch) as [[err|slots'] wch'].
      * destruct IH as [-> IH]. split; [done|]. rewrite omap_cons'.
        destruct (slotError s); [by right|done].
      * destruct IH as (-> & W & F & R & P). split; [done|].
        split; [by constructor|]. split.
        { constructor; [|done].
          apply orb_true_iff in Hfilled as [?|?]; [by left|].
          right. by eapply bool_decide_eq_true_1. }
        split; [simpl; by rewrite R|]. by rewrite !omap_cons', P.
    + apply orb_false_iff in Hfilled as [Hdone Hhol].
      apply bool_decide_eq_false_1 in Hhol.
      assert (Hnone : hol s = None).
      { destruct (hol s); [|done]. exfalso. apply Hhol. by eexists. }
      unfold Read. destruct s as [[nm sc w] h d]. simpl in Hs, Hdone, Hnone.
      subst w h d. clear Hhol.
      destruct sc as [|[rec|err] rest]; cbn [script name warning rd].
      * destruct (fill slots wch) as [[err|slots'] wch'].
        -- destruct IH as [-> IH]. by split.
        -- destruct IH as (-> & W & F & R & P). split; [done|].
           split; [by constructor|].
           split; [constructor; [by left|done]|].
           split; [|by rewrite !omap_cons', P].
           cbn [map concat]. by rewrite R.
      * destruct (fill slots wch) as [[err|slots'] wch'].
        -- destruct IH as [-> IH]. split; [done|]. rewrite omap_cons'.
           destruct (slotError _); [by right|done].
        -- destruct IH as (-> & W & F & R & P). split; [done|].
           split; [by constructor|].
           split; [constructor; [right; by eexists|done]|].
           split; [|by rewrite !omap_cons', P].
           cbn [map concat]. by rewrite R.
      * split; [done|]. rewrite omap_cons'. by left.
Qed.

(** *** Taking the smallest held record *)

Lemma takeMin_spec slots :
  match takeMin Ts slots with
  | Some (rec, slots') =>
      allRecords slots ≡ₚ rec :: allRecords slots'
      /\ omap slotError slots' = omap slotError slots
      /\ omap slotWarning slots' = omap slotWarning slots
      /\ map (fun s => warning (rd s)) slots'
         = map (fun s => warning (rd s)) slots
  | None => Forall (fun s => hol s = None) slots
  end.
Proof.
  induction slots as [|s slots IH]; [constructor|].
  cbn [takeMin]. destruct s as [r [rec|] d]; cbn [hol rd done];
    destruct (takeMin Ts slots) as [[rec' rest]|].
  - destruct IH as (P & E & W & F).
    destruct (Ts rec' <? Ts rec).
    + split; [|by rewrite !omap_cons', E, W, !map_cons, F].
      cbn [map concat]. rewrite P. symmetry. apply Permutation_middle.
    + done.
  - done.
  - destruct IH as (P & E & W & F).
    split; [|by rewrite !omap_cons', E, W, !map_cons, F].
    cbn [map concat]. rewrite P. by rewrite <- Permutation_middle.
  - by constructor.
Qed.


Lemma flags_preserved (b : bool) slots slots' :
  map (fun s => warning (rd s)) slots' = map (fun s => warning (rd s)) slots ->
  Forall (fun s => warning (rd s) = b) slots ->
  Forall (fun s => warning (rd s) = b) slots'.
Proof.
  revert slots'. induction slots as [|s slots IH]; intros [|s' slots'] E H;
    try discriminate; [constructor|].
  injection E as E1 E2. apply Forall_cons in H as [H1 H2].
  constructor; [congruence|by apply IH].
Qed.

(** When nothing is held and every reader has ended, nothing is left. *)
Lemma drained slots :
  Forall (fun s => filled s) slots -> Forall (fun s => hol s = None) slots ->
  allRecords slots = [] /\ omap slotError slots = []
  /\ omap slotWarning slots = [].
Proof.
  induction 1 as [|s slots Hs _ IH]; intros Hn; [done|].
  apply Forall_cons in Hn as [Hs' Hn]. destruct (IH Hn) as (R & E & W).
  rewrite !omap_cons', E, W. cbn [map concat]. rewrite R.
  destruct s as [r h d]. simpl in *. subst h.
  destruct Hs as [->|[? ?]]; done.
Qed.

(** *** Reading the combined stream to its end *)

Lemma run_S fuel c out wch :
  run Ts (S fuel) c out wch
  = match pull Ts c wch with
    | (ReadErr err, _, wch') => mkOutcome out wch' (Some err)
    | (ReadEOF, _, wch') => mkOutcome out wch' None
    | (ReadRec rec, c', wch') => run Ts fuel c' (out ++ [rec]) wch'
    end.
Proof. reflexivity. Qed.

(** Wrapped readers: the query never fails, reads every record before
    the first error of each reader, and each failing reader gives its
    warning. *)
Lemma run_wrapped fuel : forall c out wch,
  Forall (fun s => wrapped s) c ->
  (length (allRecords c) < fuel)%nat ->
  failure (run Ts fuel c out wch) = None
  /\ delivered (run Ts fuel c out wch) ≡ₚ out ++ allRecords c
  /\ warnings (run Ts fuel c out wch) ≡ₚ wch ++ omap slotWarning c.
Proof.
  induction fuel as [|fuel IH]; intros c out wch Hw Hfuel; [lia|].
  rewrite run_S. unfold pull.
  destruct (fill_wrapped c wch Hw) as (slots & wch' & -> & W & F & R & P).
  pose proof (takeMin_spec slots) as T.
  destruct (takeMin Ts slots) as [[rec slots']|].
  - destruct T as (TP & TE & TW & TF).
    destruct (IH slots' (out ++ [rec]) wch') as (I1 & I2 & I3).
    { by apply (flags_preserved true slots slots'). }
    { rewrite <- R, TP in Hfuel. simpl in Hfuel. lia. }
    split; [done|]. split.
    + rewrite I2, <- R, TP, <- app_assoc. done.
    + by rewrite I3, TW.
  - destruct (drained slots F T) as (D1 & D2 & D3). simpl.
    split; [done|]. split.
    + by rewrite <- R, D1, app_nil_r.
    + rewrite <- P, D3. by rewrite app_nil_r.
Qed.

(** Plain readers: no warning is made; the query fails with the first
    error of one of the readers, or no reader has an error and every
    record is read. *)
Lemma run_plain fuel : forall c out wch,
  Forall (fun s => plain s) c ->
  (length (allRecords c) < fuel)%nat ->
  warnings (run Ts fuel c out wch) = wch
  /\ match failure (run Ts fuel c out wch) with
     | Some err => err ∈ omap slotError c
     | None => omap slotError c = []
               /\ delivered (run Ts fuel c out wch) ≡ₚ out ++ allRecords c
     end.
Proof.
  induction fuel as [|fuel IH]; intros c out wch Hw Hfuel; [lia|].
  rewrite run_S. unfold pull.
  pose proof (fill_plain c wch Hw) as Hfill.
  destruct (fill c wch) as [[err|slots] wch'].
  - destruct Hfill as [-> Herr]. by split.
  - destruct Hfill as (-> & W & F & R & E).
    pose proof (takeMin_spec slots) as T.
    destruct (takeMin Ts slots) as [[rec slots']|].
    + destruct T as (TP & TE & TW & TF).
      destruct (IH slots' (out ++ [rec]) wch) as (I1 & I2).
      { by apply (flags_preserved false slots slots'). }
      { rewrite <- R, TP in Hfuel. simpl in Hfuel. lia. }
      split; [done|].
      destruct (failure (run Ts fuel slots' (out ++ [rec]) wch)) as [err|].
      * by rewrite <- E, <- TE.
      * destruct I2 as [I2 I3]. split; [by rewrite <- E, <- TE|].
        by rewrite I3, <- R, TP, <- app_assoc.
    + destruct (drained slots F T) as (D1 & D2 & D3). simpl.
      split; [done|]. split; [by rewrite <- E|].
      by rewrite <- R, D1, app_nil_r.
Qed.

(** *** The combiner of [compileLogIngest] *)

Lemma NewCombiner_records rs :
  allRecords (NewCombiner rs) = concat (map readerRecords rs).
Proof.
  induction rs as [|r rs IH]; [done|]. simpl. by rewrite IH.
Qed.

Lemma NewCombiner_errors rs :
  omap slotError (NewCombiner rs) = omap readerError rs.
Proof.
  induction rs as [|r rs IH]; [done|].
  cbn [NewCombiner map]. rewrite !omap_cons'. fold (NewCombiner rs).
  by rewrite IH.
Qed.

Lemma NewCombiner_warnings rs :
  omap slotWarning (NewCombiner rs) = omap readerWarning rs.
Proof.
  induction rs as [|r rs IH]; [done|].
  cbn [NewCombiner map]. rewrite !omap_cons'. fold (NewCombiner rs).
  by rewrite IH.
Qed.

Lemma pending_bound c : (length (allRecords c) <= pending c)%nat.
Proof.
  assert (Hsc : forall sc : list (Record + error),
            (length (scriptRecords sc) <= length sc)%nat).
  { induction sc as [|[rec|err] sc IH]; simpl; lia. }
  assert (Hslot : forall s,
            (length (slotRecords s)
             <= length (script (rd s))
                + match hol s with Some _ => 1 | None => 0 end)%nat).
  { intros s. unfold slotRecords, readerRecords. rewrite length_app.
    specialize (Hsc (script (rd s))).
    destruct (hol s), (done s); simpl; lia. }
  unfold pending. induction c as [|s c IH]; simpl; [lia|].
  rewrite length_app. specialize (Hslot s). lia.
Qed.


Lemma WarningReader_records rs :
  concat (map readerRecords (map WarningReader rs))
  = concat (map readerRecords rs).
Proof. induction rs as [|r rs IH]; [done|]. simpl. by rewrite IH. Qed.

Lemma WarningReader_warnings rs :
  omap readerWarning (map WarningReader rs) = omap readerWarning rs.
Proof.
  induction rs as [|r rs IH]; [done|].
  cbn [map]. by rewrite !omap_cons', IH.
Qed.

Lemma NewCombiner_flags (b : bool) rs :
  Forall (fun r => warning r = b) rs ->
  Forall (fun s => warning (rd s) = b) (NewCombiner rs).
Proof. induction 1; simpl; by constructor. Qed.

(** The query over plain readers (stop-on-error). *)
Lemma runQuery_stop rs :
  Forall (fun r => warning r = false) rs ->
  warnings (runQuery Ts rs true) = []
  /\ match failure (runQuery Ts rs true) with
     | Some err => err ∈ omap readerError rs
     | None => omap readerError rs = []
               /\ delivered (runQuery Ts rs true)
                  ≡ₚ concat (map readerRecords rs)
     end.
Proof.
  intros Hplain. unfold runQuery, compileLogIngest.
  pose proof (pending_bound (NewCombiner rs)) as Hb.
  destruct (run_plain (S (pending (NewCombiner rs))) (NewCombiner rs) [] [])
    as [W F]; [by apply NewCombiner_flags|lia|].
  split; [done|].
  rewrite NewCombiner_errors, NewCombiner_records in F. exact F.
Qed.

(** The query over wrapped readers (continue on error). *)
Lemma runQuery_continue rs :
  failure (runQuery Ts rs false) = None
  /\ delivered (runQuery Ts rs false) ≡ₚ concat (map readerRecords rs)
  /\ warnings (runQuery Ts rs false) ≡ₚ omap readerWarning rs.
Proof.
  unfold runQuery, compileLogIngest.
  pose proof (pending_bound (NewCombiner (map WarningReader rs))) as Hb.
  destruct (run_wrapped (S (pending (NewCombiner (map WarningReader rs))))
              (NewCombiner (map WarningReader rs)) [] [])
    as (F & D & W); [|lia|].
  { apply NewCombiner_flags. clear Hb.
    induction rs as [|r rs IH]; cbn [map]; [apply Forall_nil_2|].
    by apply Forall_cons. }
  rewrite NewCombiner_records, WarningReader_records in D.
  rewrite NewCombiner_warnings, WarningReader_warnings in W.
  by split.
Qed.

(** *** The loop that opens the paths *)

Implicit Types (OpenFile : string -> OpenResult (Record := Record)).
Implicit Types (req : LogPostRequest) (paths : list string).

(** No opened ndjson reader fails its type configuration. *)
Local Abbreviation configured OpenFile req paths :=
  (forall path sf, path ∈ paths -> OpenFile path = inr sf ->
     isNdjson sf && hasJSONTypeConfig req = true -> configureError sf = None).

Lemma openLoop_continue OpenFile req paths : forall pipe readers,
  StopErr req = false ->
  configured OpenFile req paths ->
  openLoop OpenFile req paths pipe readers
  = (inr (readers ++ openedReaders OpenFile paths),
     pipe ++ openWarnings OpenFile paths).
Proof.
  induction paths as [|path paths IH]; intros pipe readers Hstop Hcfg.
  - simpl. by rewrite !app_nil_r.
  - assert (Hcfg' : configured OpenFile req paths).
    { intros p sf Hp. apply Hcfg. by right. }
    cbn [openLoop]. unfold openWarnings, openedReaders. rewrite !omap_cons'.
    fold (openWarnings OpenFile paths). fold (openedReaders OpenFile paths).
    destruct (OpenFile path) as [err|sf] eqn:Hopen.
    + rewrite Hstop, IH by done. by rewrite <- app_assoc.
    + assert (Hsf : (if isNdjson sf && hasJSONTypeConfig req
                     then match configureError sf with
                          | Some err => (inl err, pipe)
                          | None => openLoop OpenFile req paths pipe
                                      (readers ++ [fileReader sf])
                          end
                     else openLoop OpenFile req paths pipe
                            (readers ++ [fileReader sf]))
                    = openLoop OpenFile req paths pipe
                        (readers ++ [fileReader sf])).
      { destruct (isNdjson sf && hasJSONTypeConfig req) eqn:Hnd; [|done].
        rewrite (Hcfg path sf); [done|by left|done|done]. }
      rewrite Hsf, IH by done. by rewrite <- app_assoc.
Qed.

Lemma openLoop_stop OpenFile req paths : forall pipe readers,
  StopErr req = true ->
  configured OpenFile req paths ->
  openLoop OpenFile req paths pipe readers
  = match head (openErrors OpenFile paths) with
    | Some err => (inl err, pipe)
    | None => (inr (readers ++ openedReaders OpenFile paths), pipe)
    end.
Proof.
  induction paths as [|path paths IH]; intros pipe readers Hstop Hcfg.
  - simpl. by rewrite !app_nil_r.
  - assert (Hcfg' : configured OpenFile req paths).
    { intros p sf Hp. apply Hcfg. by right. }
    cbn [openLoop]. unfold openErrors, openedReaders. rewrite !omap_cons'.
    fold (openErrors OpenFile paths). fold (openedReaders OpenFile paths).
    destruct (OpenFile path) as [err|sf] eqn:Hopen.
    + by rewrite Hstop.
    + assert (Hsf : (if isNdjson sf && hasJSONTypeConfig req
                     then match configureError sf with
                          | Some err => (inl err, pipe)
                          | None => openLoop OpenFile req paths pipe
                                      (readers ++ [fileReader sf])
                          end
                     else openLoop OpenFile req paths pipe
                            (readers ++ [fileReader sf]))
                    = openLoop OpenFile req paths pipe
                        (readers ++ [fileReader sf])).
      { destruct (isNdjson sf && hasJSONTypeConfig req) eqn:Hnd; [|done].
        rewrite (Hcfg path sf); [done|by left|done|done]. }
      rewrite Hsf, IH by done.
      destruct (head (openErrors OpenFile paths)); [done|].
      by rewrite <- app_assoc.
Qed.

Lemma openedReaders_plain OpenFile paths :
  (forall path sf, OpenFile path = inr sf -> warning (fileReader sf) = false) ->
  Forall (fun r => warning r = false) (openedReaders OpenFile paths).
Proof.
  intros H. induction paths as [|path paths IH]; [constructor|].
  unfold openedReaders. rewrite omap_cons'. fold (openedReaders OpenFile paths).
  destruct (OpenFile path) as [err|sf] eqn:Hopen; [done|].
  constructor; [by apply (H path)|done].
Qed.

(** *** The log of reads *)

Implicit Types (log evs : list (Event (Record := Record))).

Local Abbreviation quiet evs := (Forall (fun ev => isError ev = false) evs).

(** *** The log does not change what is computed *)

Lemma fillLog_fill slots : forall wch log,
  (fillLog slots wch log).1 = fill slots wch.
Proof.
  induction slots as [|s slots IH]; intros wch log; [reflexivity|].
  cbn [fillLog fill]. unfold ReadLog.
  destruct (done s || bool_decide (is_Some (hol s))).
  - specialize (IH wch log).
    destruct (fillLog slots wch log) as [[[err|rest] wch'] log'];
      simpl in IH; by rewrite <- IH.
  - destruct (Read (rd s) wch) as [[[rec| |err] r'] wch']; [| |reflexivity].
    + specialize (IH wch' (log ++ readEvent (rd s))).
      destruct (fillLog slots wch' _) as [[[err|rest] wch''] log''];
        simpl in IH; by rewrite <- IH.
    + specialize (IH wch' (log ++ readEvent (rd s))).
      destruct (fillLog slots wch' _) as [[[err|rest] wch''] log''];
        simpl in IH; by rewrite <- IH.
Qed.

Lemma pullLog_pull c wch log : (pullLog Ts c wch log).1 = pull Ts c wch.
Proof.
  unfold pullLog, pull. pose proof (fillLog_fill c wch log) as E.
  destruct (fillLog c wch log) as [[[err|slots] wch'] log']; simpl in E;
    rewrite <- E; [reflexivity|].
  by destruct (takeMin Ts slots) as [[rec slots']|].
Qed.

Lemma runLog_S fuel c out wch log :
  runLog Ts (S fuel) c out wch log
  = match pullLog Ts c wch log with
    | (ReadErr err, _, wch', log') => (mkOutcome out wch' (Some err), log')
    | (ReadEOF, _, wch', log') => (mkOutcome out wch' None, log')
    | (ReadRec rec, c', wch', log') =>
        runLog Ts fuel c' (out ++ [rec]) wch' log'
    end.
Proof. reflexivity. Qed.

Lemma runLog_run fuel : forall c out wch log,
  (runLog Ts fuel c out wch log).1 = run Ts fuel c out wch.
Proof.
  induction fuel as [|fuel IH]; intros c out wch log; [reflexivity|].
  rewrite runLog_S, run_S. pose proof (pullLog_pull c wch log) as E.
  destruct (pullLog Ts c wch log) as [[[[rec| |err] c'] wch'] log'];
    simpl in E; rewrite <- E; [apply IH|reflexivity..].
Qed.

Lemma runQueryLog_runQuery rs stopErr :
  (runQueryLog Ts rs stopErr).1 = runQuery Ts rs stopErr.
Proof. apply runLog_run. Qed.

(** *** The log of plain readers: an error is its last entry *)

Lemma fillLog_plain slots : forall wch log,
  Forall (fun s => plain s) slots ->
  exists evs,
    (fillLog slots wch log).2 = log ++ evs
    /\ match (fill slots wch).1 with
       | inl err =>
           exists pre nm, evs = pre ++ [(nm, inr err)] /\ quiet pre
             /\ (nm, err) ∈ omap slotFailure slots
       | inr slots' => quiet evs
                       /\ omap slotFailure slots' = omap slotFailure slots
       end.
Proof.
  induction slots as [|s slots IH]; intros wch log Hw.
  - exists []. simpl. rewrite app_nil_r. split; [done|]. by split.
  - apply Forall_cons in Hw as [Hs Hw]. cbn [fillLog fill]. unfold ReadLog.
    destruct (done s || bool_decide (is_Some (hol s))) eqn:Hfilled.
    + destruct (IH wch log Hw) as (evs & E & H).
      pose proof (fillLog_fill slots wch log) as F.
      destruct (fillLog slots wch log) as [[[err|rest] wch'] log'];
        simpl in E, F; rewrite <- F in *; cbn [fst snd] in *; subst log';
        exists evs; (split; [done|]).
      * destruct H as (pre & nm & -> & Q & M). exists pre, nm.
        split; [done|]. split; [done|]. rewrite omap_cons'.
        destruct (slotFailure s); [by right|done].
      * destruct H as [Q M]. split; [done|]. by rewrite !omap_cons', M.
    + apply orb_false_iff in Hfilled as [Hdone Hhol].
      apply bool_decide_eq_false_1 in Hhol.
      assert (Hnone : hol s = None).
      { destruct (hol s); [|done]. exfalso. apply Hhol. by eexists. }
      unfold Read, readEvent.
      destruct s as [[nm sc w] h d]. simpl in Hs, Hdone, Hnone.
      subst w h d. clear Hhol.
      destruct sc as [|[rec|err] rest]; cbn [script name warning rd].
      * destruct (IH wch (log ++ []) Hw) as (evs & E & H).
        pose proof (fillLog_fill slots wch (log ++ [])) as F.
        destruct (fillLog slots wch (log ++ [])) as [[[err|rest] wch'] log'];
          simpl in E, F; rewrite <- F in *; cbn [fst snd] in *; subst log';
          exists evs; (split; [by rewrite app_nil_r|]).
        -- done.
        -- destruct H as [Q M]. split; [done|]. by rewrite !omap_cons', M.
      * destruct (IH wch (log ++ [(nm, inl rec)]) Hw) as (evs & E & H).
        pose proof (fillLog_fill slots wch (log ++ [(nm, inl rec)])) as F.
        destruct (fillLog slots wch (log ++ [(nm, inl rec)]))
          as [[[err|rest'] wch'] log'];
          simpl in E, F; rewrite <- F in *; cbn [fst snd] in *; subst log';
          exists ((nm, inl rec) :: evs);
          (split; [by rewrite <- app_assoc|]).
        -- destruct H as (pre & nm' & -> & Q & M).
           exists ((nm, inl rec) :: pre), nm'. split; [done|].
           split; [by constructor|]. rewrite omap_cons'.
           destruct (slotFailure _); [by right|done].
        -- destruct H as [Q M]. split; [by constructor|].
           by rewrite !omap_cons', M.
      * exists [(nm, inr err)]. split; [done|]. exists [], nm.
        split; [done|]. split; [constructor|].
        rewrite omap_cons'. by left.
Qed.

Lemma takeMin_failures slots :
  match takeMin Ts slots with
  | Some (rec, slots') => omap slotFailure slots' = omap slotFailure slots
  | None => True
  end.
Proof.
  induction slots as [|s slots IH]; [done|].
  cbn [takeMin]. destruct s as [r [rec|] d]; cbn [hol rd done];
    destruct (takeMin Ts slots) as [[rec' rest]|]; try done.
  - destruct (Ts rec' <? Ts rec); [|done]. by rewrite !omap_cons', IH.
  - by rewrite !omap_cons', IH.
Qed.

Lemma runLog_plain fuel : forall c out wch log,
  Forall (fun s => plain s) c ->
  (length (concat (map slotRecords c)) < fuel)%nat ->
  exists evs,
    (runLog Ts fuel c out wch log).2 = log ++ evs
    /\ match failure (run Ts fuel c out wch) with
       | Some err =>
           exists pre nm, evs = pre ++ [(nm, inr err)] /\ quiet pre
             /\ (nm, err) ∈ omap slotFailure c
       | None => quiet evs
       end.
Proof.
  induction fuel as [|fuel IH]; intros c out wch log Hw Hfuel; [lia|].
  rewrite runLog_S, run_S. unfold pullLog, pull.
  destruct (fillLog_plain c wch log Hw) as (evs & E & H).
  pose proof (fillLog_fill c wch log) as F.
  pose proof (fill_plain c wch Hw) as Hfill.
  destruct (fillLog c wch log) as [[res wch'] log']. simpl in E, F. subst log'.
  rewrite <- F in *. simpl in H.
  destruct res as [err|slots].
  - exists evs. by split.
  - destruct Hfill as (-> & W & Fl & R & Er). destruct H as [Q M].
    pose proof (takeMin_spec slots) as T.
    pose proof (takeMin_failures slots) as T'.
    destruct (takeMin Ts slots) as [[rec slots']|].
    + destruct T as (TP & TE & TW & TF).
      destruct (IH slots' (out ++ [rec]) wch (log ++ evs)) as (evs' & E' & H').
      { by apply (flags_preserved false slots slots'). }
      { rewrite <- R, TP in Hfuel. simpl in Hfuel. lia. }
      exists (evs ++ evs'). split; [by rewrite E', app_assoc|].
      destruct (failure (run Ts fuel slots' (out ++ [rec]) wch)) as [err|].
      * destruct H' as (pre & nm & -> & Q' & M'). exists (evs ++ pre), nm.
        split; [by rewrite app_assoc|]. split; [by apply Forall_app|].
        by rewrite <- M, <- T'.
      * by apply Forall_app.
    + exists evs. by split.
Qed.

Lemma NewCombiner_failures rs :
  omap slotFailure (NewCombiner rs) = omap readerFailure rs.
Proof.
  induction rs as [|r rs IH]; [done|].
  cbn [NewCombiner map]. rewrite !omap_cons'. fold (NewCombiner rs).
  by rewrite IH.
Qed.

(** The log of the query over plain readers (stop-on-error). *)
Lemma runQueryLog_stop rs :
  Forall (fun r => warning r = false) rs ->
  match failure (runQuery Ts rs true) with
  | Some err =>
      exists pre nm, (runQueryLog Ts rs true).2 = pre ++ [(nm, inr err)]
        /\ quiet pre /\ (nm, err) ∈ omap readerFailure rs
  | None => quiet (runQueryLog Ts rs true).2
  end.
Proof.
  intros Hplain. unfold runQuery, runQueryLog, compileLogIngest.
  pose proof (pending_bound (NewCombiner rs)) as Hb.
  destruct (runLog_plain (S (pending (NewCombiner rs))) (NewCombiner rs)
              [] [] []) as (evs & E & H);
    [by apply NewCombiner_flags|lia|].
  change ([] ++ evs) with evs in E. rewrite E.
  by rewrite NewCombiner_failures in H.
Qed.

(** The first round of reads goes through the readers in their order:
    the first reader whose first read is an error ends it. *)
Lemma fill_first_error (pre : list Reader) r post err wch :
  warning r = false ->
  Forall (fun r' => forall e, head (script r') <> Some (inr e)) pre ->
  head (script r) = Some (inr err) ->
  fill (NewCombiner (pre ++ r :: post)) wch = (inl err, wch).
Proof.
  intros Hr Hpre Herr. induction Hpre as [|r0 pre H0 _ IH].
  - simpl. unfold Read. destruct (script r) as [|[rec|e] rest]; try done.
    injection Herr as ->. by rewrite Hr.
  - cbn [app NewCombiner map fill rd hol done orb].
    fold (NewCombiner (pre ++ r :: post)).
    replace (bool_decide (is_Some (@None Record))) with false.
    2:{ symmetry. apply bool_decide_eq_false_2. by intros [? ?]. }
    unfold Read. destruct (script r0) as [|[rec|e] rest].
    + by rewrite IH.
    + by rewrite IH.
    + by destruct (H0 e).
Qed.

Lemma runQuery_first_error (pre : list Reader) r post err :
  warning r = false ->
  Forall (fun r' => forall e, head (script r') <> Some (inr e)) pre ->
  head (script r) = Some (inr err) ->
  runQuery Ts (pre ++ r :: post) true = mkOutcome [] [] (Some err).
Proof.
  intros Hr Hpre Herr. unfold runQuery, compileLogIngest.
  rewrite run_S. unfold pull. by rewrite (fill_first_error pre r post err).
Qed.


End Combiner.

Lemma exampleOpen_plain path (sf : File (Record := Z)) :
  exampleOpen path = inr sf ->
  warning (fileReader sf) = false /\ configureError sf = None.
Proof.
  unfold exampleOpen.
  destruct (String.eqb path "a.log"); [by intros [= <-]|].
  destruct (String.eqb path "b.log"); [by intros [= <-]|]. discriminate.
Qed.

Lemma exampleOpenBad_plain path (sf : File (Record := Z)) :
  exampleOpenBad path = inr sf ->
  warning (fileReader sf) = false /\ configureError sf = None.
Proof.
  unfold exampleOpenBad.
  destruct (String.eqb path "d.log"); [by intros [= <-]|].
  apply exampleOpen_plain.
Qed.

Lemma exampleOpenJSON_plain path (sf : File (Record := Z)) :
  exampleOpenJSON path = inr sf -> warning (fileReader sf) = false.
Proof.
  unfold exampleOpenJSON.
  destruct (String.eqb path "c.ndjson"); [by intros [= <-]|].
  apply exampleOpen_plain.
Qed.



(** *** The loop that opens the paths: what ends it, what it sends *)

Section Opening.

Context {Record : Type} (Ts : Record -> Z).
Implicit Types (OpenFile : string -> OpenResult (Record := Record)).
Implicit Types (req : LogPostRequest) (paths pre post : list string).

Lemma openLoop_quiet OpenFile req paths : forall pipe readers,
  StopErr req = true ->
  (openLoop OpenFile req paths pipe readers).2 = pipe.
Proof.
  induction paths as [|path paths IH]; intros pipe readers Hstop; [done|].
  cbn [openLoop]. rewrite Hstop.
  destruct (OpenFile path) as [err|sf]; [done|].
  destruct (isNdjson sf && hasJSONTypeConfig req);
    [destruct (configureError sf)|]; try done; by apply IH.
Qed.

Lemma openLoop_app OpenFile req pre : forall post pipe readers,
  (forall path sf, path ∈ pre -> OpenFile path = inr sf ->
     isNdjson sf && hasJSONTypeConfig req = true -> configureError sf = None) ->
  (StopErr req = true -> openErrors OpenFile pre = []) ->
  openLoop OpenFile req (pre ++ post) pipe readers
  = openLoop OpenFile req post (pipe ++ openWarnings OpenFile pre)
      (readers ++ openedReaders OpenFile pre).
Proof.
  induction pre as [|path pre IH]; intros post pipe readers Hcfg Hstop.
  - simpl. by rewrite !app_nil_r.
  - assert (Hcfg' : forall path sf, path ∈ pre -> OpenFile path = inr sf ->
              isNdjson sf && hasJSONTypeConfig req = true ->
              configureError sf = None).
    { intros p sf Hp. apply Hcfg. by right. }
    cbn [app openLoop]. unfold openWarnings, openedReaders, openErrors in *.
    cbn [omap list_omap] in *.
    destruct (OpenFile path) as [err|sf] eqn:Hopen.
    + destruct (StopErr req); [by specialize (Hstop eq_refl)|].
      rewrite IH by done. by rewrite <- app_assoc.
    + assert (Hsf : (if isNdjson sf && hasJSONTypeConfig req
                     then match configureError sf with
                          | Some err => (inl err, pipe)
                          | None => openLoop OpenFile req (pre ++ post) pipe
                                      (readers ++ [fileReader sf])
                          end
                     else openLoop OpenFile req (pre ++ post) pipe
                            (readers ++ [fileReader sf]))
                    = openLoop OpenFile req (pre ++ post) pipe
                        (readers ++ [fileReader sf])).
      { destruct (isNdjson sf && hasJSONTypeConfig req) eqn:Hnd; [|done].
        rewrite (Hcfg path sf); [done|by left|done|done]. }
      rewrite Hsf, IH by done. by rewrite <- app_assoc.
Qed.

(** X18.  A type configuration that fails ends [ingestLogs] in both
    modes, also without stop-on-error: when the paths before [path] get
    through the loop and the ndjson reader of [path] fails its type
    configuration, [ingestLogs] returns that error, the query does not
    run, and the pipe has the warnings for the paths before [path] that
    did not open. *)
Theorem ingestLogs_config_error OpenFile req pre path post
    (sf : File (Record := Record)) (err : error)
    (Hpaths : Paths req = pre ++ path :: post)
    (Hcfg : forall p sf', p ∈ pre -> OpenFile p = inr sf' ->
       isNdjson sf' && hasJSONTypeConfig req = true ->
       configureError sf' = None)
    (Hpre : StopErr req = true -> openErrors OpenFile pre = [])
    (Hopen : OpenFile path = inr sf)
    (Hjson : isNdjson sf && hasJSONTypeConfig req = true)
    (Herr : configureError sf = Some err) :
  ingestLogs Ts OpenFile req = (Some err, openWarnings OpenFile pre, None).
Proof.
  unfold ingestLogs. rewrite Hpaths, openLoop_app by done.
  cbn [openLoop]. by rewrite Hopen, Hjson, Herr.
Qed.

(** X19.  With stop-on-error [ingestLogs] sends no warning on the pipe,
    whatever the paths are and however it ends. *)
Theorem ingestLogs_stop_quiet OpenFile req (Hstop : StopErr req = true) :
  (ingestLogs Ts OpenFile req).1.2 = [].
Proof.
  unfold ingestLogs.
  pose proof (openLoop_quiet OpenFile req (Paths req) [] [] Hstop) as E.
  by destruct (openLoop OpenFile req (Paths req) [] []) as [[err|rs] pipe];
    simpl in *.
Qed.

End Opening.

(** The example with a type configuration, without stop-on-error: the
    missing file gives a warning, and the failing configuration of
    [c.ndjson] ends the ingest before [b.log] is opened. *)
Lemma ingestLogs_config_error_witness :
  Paths (exampleRequestJSON false)
  = ["a.log"; "missing.log"]%string ++ "c.ndjson"%string :: ["b.log"%string]
  /\ (forall p (sf' : File (Record := Z)),
        p ∈ ["a.log"; "missing.log"]%string -> exampleOpenJSON p = inr sf' ->
        isNdjson sf' && hasJSONTypeConfig (exampleRequestJSON false) = true ->
        configureError sf' = None)
  /\ (StopErr (exampleRequestJSON false) = true ->
      openErrors exampleOpenJSON ["a.log"; "missing.log"]%string = [])
  /\ ingestLogs id exampleOpenJSON (exampleRequestJSON false)
     = (Some "bad type configuration"%string,
        ["missing.log: no such file"%string], None).
Proof.
  assert (H1 : Paths (exampleRequestJSON false)
               = ["a.log"; "missing.log"]%string
                 ++ "c.ndjson"%string :: ["b.log"%string]) by reflexivity.
  assert (H2 : forall p (sf' : File (Record := Z)),
            p ∈ ["a.log"; "missing.log"]%string ->
            exampleOpenJSON p = inr sf' ->
            isNdjson sf' && hasJSONTypeConfig (exampleRequestJSON false) = true ->
            configureError sf' = None).
  { intros p sf' Hp Ho Hj.
    apply elem_of_cons in Hp as [->|Hp];
      [|apply elem_of_cons in Hp as [->|Hp]; [|by inversion Hp]];
      vm_compute in Ho; [|discriminate Ho].
    injection Ho as <-. discriminate Hj. }
  assert (H3 : StopErr (exampleRequestJSON false) = true ->
               openErrors exampleOpenJSON ["a.log"; "missing.log"]%string = [])
    by discriminate.
  exact (conj H1 (conj H2 (conj H3
    (ingestLogs_config_error id exampleOpenJSON (exampleRequestJSON false)
       ["a.log"; "missing.log"]%string "c.ndjson"%string ["b.log"%string]
       _ _ H1 H2 H3 eq_refl eq_refl eq_refl)))).
Defined.

Lemma ingestLogs_stop_quiet_witness :
  StopErr (exampleRequest true) = true
  /\ (ingestLogs id exampleOpen (exampleRequest true)).1.2 = [].
Proof.
  exact (conj eq_refl
    (ingestLogs_stop_quiet id exampleOpen (exampleRequest true) eq_refl)).
Defined.

End IngestFacts.

(** ** cmd/zq: the input readers *)

Module ZqFacts.
Import Ingest Zq.

Section Command.

Context {Record : Type}.
Implicit Types (c : Command (Record := Record)) (paths pre post : list string).

Lemma inputReaders_app c pre : forall post stderr readers,
  Forall (passes c) pre ->
  inputReaders c (pre ++ post) stderr readers
  = inputReaders c post (stderr ++ skippedLines c pre)
      (readers ++ detectedReaders c pre).
Proof.
  induction pre as [|path pre IH]; intros post stderr readers Hpre.
  - simpl. by rewrite !app_nil_r.
  - inversion Hpre as [|? ? [Ho Hn] Hpre']; subst.
    cbn [app inputReaders]. rewrite Ho.
    unfold skippedLines, detectedReaders. cbn [omap list_omap].
    fold (skippedLines c pre). fold (detectedReaders c pre).
    destruct (NewReader c path) as [err|sf] eqn:En.
    + rewrite Hn, IH by done. by rewrite <- app_assoc.
    + assert (E : (if isNdjson sf && hasJSONTypeConfig c
                   then match configureError sf with
                        | Some err => (inl err, stderr)
                        | None => inputReaders c (pre ++ post) stderr
                                    (readers ++ [namedReader (fileReader sf) path])
                        end
                   else inputReaders c (pre ++ post) stderr
                          (readers ++ [namedReader (fileReader sf) path]))
                  = inputReaders c (pre ++ post) stderr
                      (readers ++ [namedReader (fileReader sf) path])).
      { destruct (isNdjson sf && hasJSONTypeConfig c); [|done].
        by rewrite Hn. }
      rewrite E, IH by done. by rewrite <- app_assoc.
Qed.

(** X20.  When every path is there and opens, has its format detected
    unless errors are not to stop the command, and passes its type
    configuration, [inputReaders] returns no error: it returns the
    readers of the paths whose format is detected, each named by its
    path, in the order of the paths, and writes one line to stderr for
    each path that it skips. *)
Theorem inputReaders_skips c paths
    (Hpaths : Forall (passes c) paths) :
  inputReaders c paths [] []
  = (inr (detectedReaders c paths), skippedLines c paths).
Proof.
  pose proof (inputReaders_app c paths [] [] [] Hpaths) as E.
  rewrite app_nil_r in E. by rewrite E.
Qed.

(** X21.  A path that [fileExists] rejects (it cannot be stat'ed or is a
    directory) makes [inputReaders] return an error whether errors are
    to stop the command or not: the error of [os.Stat], or "is a
    directory"; the readers opened before it are not returned, and the
    paths after it are not looked at. *)
Theorem inputReaders_unopened c pre path post
    (Hpre : Forall (passes c) pre)
    (Hmissing : fileExists c path = false) :
  exists err,
    inputReaders c (pre ++ path :: post) [] [] = (inl err, skippedLines c pre)
    /\ match Stat c path with
       | StatErr err' => err = err'
       | StatDir => err = "is a directory"%string
       | StatFile => False
       end.
Proof.
  rewrite inputReaders_app by done. cbn [inputReaders].
  unfold fileExists in Hmissing. unfold openInput.
  destruct (String.eqb path "-"); [done|].
  destruct (Stat c path) as [err| |]; [by exists err| |done].
  by exists "is a directory"%string.
Qed.

End Command.

(** The command without stop-on-error on a file, a file of unknown
    format and another file. *)
Lemma inputReaders_skips_witness :
  Forall (passes (exampleCommand false)) ["a.log"; "junk.bin"; "b.log"]%string
  /\ inputReaders (exampleCommand false) ["a.log"; "junk.bin"; "b.log"]%string
       [] []
     = (inr [mkReader "a.log" [inl 1; inr "bad line"; inl 3]%string false;
             mkReader "b.log" [inl 2] false],
        [errorLine "junk.bin: malformed input"]).
Proof.
  assert (H : Forall (passes (exampleCommand false))
                ["a.log"; "junk.bin"; "b.log"]%string).
  { repeat constructor; intros H; discriminate H. }
  exact (conj H (inputReaders_skips (exampleCommand false) _ H)).
Defined.

(** The same command on a file that is not there. *)
Lemma inputReaders_unopened_witness :
  Forall (passes (exampleCommand false)) ["a.log"; "junk.bin"]%string
  /\ fileExists (exampleCommand false) "missing.log" = false
  /\ exists err,
       inputReaders (exampleCommand false)
         (["a.log"; "junk.bin"]%string ++ "missing.log"%string
            :: ["b.log"%string]) [] []
       = (inl err, [errorLine "junk.bin: malformed input"])
       /\ err = "no such file or directory"%string.
Proof.
  assert (H : Forall (passes (exampleCommand false))
                ["a.log"; "junk.bin"]%string).
  { repeat constructor; intros H; discriminate H. }
  assert (M : fileExists (exampleCommand false) "missing.log" = false)
    by reflexivity.
  exact (conj H (conj M
    (inputReaders_unopened (exampleCommand false) _ "missing.log"
       ["b.log"%string] H M))).
Defined.

End ZqFacts.

(** ** zio/zeekio: the header of a zeek log *)

Module ZeekioFacts.
Import Stdlib.Strings.Ascii.
Import Zeekio.

Lemma IndexByte_range (s : string) (c : ascii) :
  -1 <= IndexByte s c < Z.of_nat (String.length s).
Proof.
  induction s as [|a s IH]; simpl; [lia|].
  destruct (Ascii.eqb a c); [lia|].
  destruct (Z.ltb_spec (IndexByte s c) 0); lia.
Qed.

Lemma substring_all (s : string) : String.substring 0 (String.length s) s = s.
Proof. induction s as [|a s IH]; simpl; [reflexivity|by rewrite IH]. Qed.

Lemma IndexByte_split (s : string) (c : ascii) :
  0 <= IndexByte s c ->
  s = (sliceTo s (IndexByte s c)
       ++ String c (sliceFrom s (IndexByte s c + 1)))%string.
Proof.
  unfold sliceTo, sliceFrom.
  induction s as [|a s IH]; simpl; [lia|].
  destruct (Ascii.eqb_spec a c) as [->|N].
  - intros _. simpl. rewrite Nat.sub_0_r. by rewrite substring_all.
  - destruct (Z.ltb_spec (IndexByte s c) 0) as [L|L]; [lia|]. intros _.
    specialize (IH L).
    replace (Z.to_nat (IndexByte s c + 1)) with (S (Z.to_nat (IndexByte s c)))
      by lia.
    replace (Z.to_nat (IndexByte s c + 1 + 1))
      with (S (Z.to_nat (IndexByte s c + 1))) by lia.
    simpl. exact (f_equal (String a) IH).
Qed.

Section Parser.
Context {Typ : Type}.
Context (LookupTypeRecord : list (Column Typ) -> Typ).
Context (TypeString : Typ).
Context (zeekTypeToZng : string -> Ingest.error + Typ).
Context (Columns : Typ -> option (list (Column Typ))).

Implicit Types (col : Column Typ) (p : Parser Typ).
Implicit Types (st : unflattenState Typ).

Local Abbreviation step := (unflattenStep LookupTypeRecord).
Local Abbreviation close := (closeNested LookupTypeRecord).
Local Abbreviation flat := (flatten Columns).

Lemma flatten_app (l1 l2 : list (Column Typ)) :
  flat (l1 ++ l2) = flat l1 ++ flat l2.
Proof. unfold flatten. by rewrite map_app, concat_app. Qed.

Lemma length_zero (s : string) : (String.length s =? 0)%nat = true -> s = ""%string.
Proof. by destruct s. Qed.

Lemma length_pos (s : string) :
  (0 <? String.length s)%nat = negb (String.length s =? 0)%nat.
Proof. by destruct s. Qed.

Section RoundTrip.
Context (Hrecord : forall cs, Columns (LookupTypeRecord cs) = Some cs).

Lemma flatten_record (name : string) (cs : list (Column Typ)) :
  flat [NewColumn name (LookupTypeRecord cs)]
  = map (fun c => mkColumn (name ++ "." ++ Name c) (ColType c)) cs.
Proof.
  unfold flatten, flattenColumn. simpl. rewrite Hrecord. apply app_nil_r.
Qed.

Lemma step_flatten st col :
  ColType col ≫= Columns = None ->
  flat (close (step st col)) = flat (close st) ++ [col].
Proof.
  intros Hprim.
  assert (Hcol : flat [col] = [col]).
  { unfold flatten, flattenColumn. simpl. by rewrite Hprim. }
  unfold unflattenStep, closeNested.
  set (dot := IndexByte (Name col) ".").
  set (fld := if 0 <=? dot then sliceTo (Name col) dot else ""%string).
  assert (Hname : (String.length fld =? 0)%nat = false ->
            mkColumn (fld ++ "." ++ sliceFrom (Name col) (dot + 1))
              (ColType col) = col).
  { intros Hf. subst fld. destruct (Z.leb_spec 0 dot) as [L|L]; [|done].
    destruct col as [n t]. simpl in *. f_equal. symmetry.
    by apply IndexByte_split. }
  rewrite !length_pos.
  destruct (String.eqb_spec fld (nestedField st)) as [E|N]; simpl.
  - rewrite <- E.
    destruct (String.length fld =? 0)%nat eqn:Ef; simpl.
    + apply length_zero in Ef. rewrite Ef. simpl.
      by rewrite flatten_app, Hcol.
    + rewrite Ef. simpl. rewrite !flatten_app, !flatten_record.
      rewrite map_app. simpl. rewrite Hname by done. by rewrite app_assoc.
  - destruct (String.length fld =? 0)%nat eqn:Ef; simpl.
    + apply length_zero in Ef. rewrite Ef in *. simpl.
      by rewrite flatten_app, Hcol.
    + rewrite Ef. simpl. rewrite flatten_app, flatten_record. simpl.
      by rewrite Hname.
Qed.

Lemma loop_flatten (columns : list (Column Typ)) : forall st,
  Forall (fun col => ColType col ≫= Columns = None) columns ->
  flat (close (fold_left step columns st)) = flat (close st) ++ columns.
Proof.
  induction columns as [|col columns IH]; intros st Hprim; simpl.
  - by rewrite app_nil_r.
  - inversion Hprim; subst. rewrite IH, step_flatten by done.
    by rewrite <- app_assoc.
Qed.

Lemma loop_hasPath (columns : list (Column Typ)) : forall st,
  hasPath (fold_left step columns st)
  = hasPath st || existsb (fun col => String.eqb (Name col) "_path") columns.
Proof.
  induction columns as [|col columns IH]; intros st; simpl.
  - by rewrite orb_false_r.
  - rewrite IH. unfold unflattenStep at 1.
    destruct (String.length _ =? 0)%nat; simpl; by rewrite orb_assoc.
Qed.

(** X22.  [Unflatten] loses nothing: flattening its columns again (a
    record column standing for the columns of the record, with dotted
    names) gives back the columns it was given, after the [_path] column
    when it added one; and it adds [_path] exactly when [addPath] is set
    and no column has that name.  The given columns are not records, as
    the types of a zeek header are not. *)
Theorem Unflatten_flatten (columns : list (Column Typ)) (addPath : bool)
    (Hprim : Forall (fun col => ColType col ≫= Columns = None) columns)
    (Hstring : Columns TypeString = None) :
  (Unflatten LookupTypeRecord TypeString columns addPath).2
  = addPath
    && negb (existsb (fun col => String.eqb (Name col) "_path") columns)
  /\ flat (Unflatten LookupTypeRecord TypeString columns addPath).1
     = (if (Unflatten LookupTypeRecord TypeString columns addPath).2
        then [NewColumn "_path" TypeString] else []) ++ columns.
Proof.
  unfold Unflatten.
  pose proof (loop_flatten columns (mkState [] [] "" false) Hprim) as E.
  pose proof (loop_hasPath columns (mkState [] [] "" false)) as P.
  simpl in E, P. rewrite P.
  destruct (addPath && negb _); (split; [reflexivity|]); [|exact E].
  cbn [fst snd].
  change (NewColumn "_path" TypeString :: ?l)
    with ([NewColumn "_path" TypeString] ++ l).
  rewrite flatten_app, E. f_equal.
  unfold flatten, flattenColumn. simpl. by rewrite Hstring.
Qed.

End RoundTrip.

(** *** The header *)

Lemma zip_names (cs : list (Column Typ)) (fields : list string) :
  length cs = length fields ->
  map Name (zip_with (fun col field => mkColumn field (ColType col)) cs fields)
  = fields
  /\ map ColType (zip_with (fun col field => mkColumn field (ColType col))
                    cs fields)
     = map ColType cs.
Proof.
  revert fields. induction cs as [|c cs IH]; intros [|f fields]; simpl;
    try done.
  intros [= L]. destruct (IH fields L) as [-> ->]. done.
Qed.

Local Abbreviation typed := (Zeekio.typed zeekTypeToZng).
Local Abbreviation headerInv := (Zeekio.headerInv zeekTypeToZng).

Lemma setTypes_ok (cs : list (Column Typ)) : forall types cs',
  length cs = length types ->
  setTypes zeekTypeToZng cs types = (None, cs') ->
  map Name cs' = map Name cs /\ typed cs' types.
Proof.
  induction cs as [|c cs IH]; intros [|name types] cs'; simpl; try done.
  - intros _ [= <-]. split; [done|constructor].
  - intros [= L].
    destruct (zeekTypeToZng name) as [err|typ] eqn:E; [done|].
    destruct (setTypes zeekTypeToZng cs types) as [e cs''] eqn:E'.
    intros [= -> <-]. destruct (IH types cs'' L E') as [N T].
    split; [simpl; by rewrite N|]. constructor; [|exact T]. by exists typ.
Qed.

Lemma typed_ColType (cs cs' : list (Column Typ)) (types : list string) :
  map ColType cs' = map ColType cs -> typed cs types -> typed cs' types.
Proof.
  intros E T. revert cs' E. induction T as [|c name cs types Hc T IH];
    intros [|c' cs']; simpl; try done; [constructor|].
  intros [= E1 E2]. constructor; [by rewrite E1|by apply IH].
Qed.

Lemma lastFields_snoc_Fields ds fields :
  lastFields (ds ++ [Fields fields]) = Some fields.
Proof. unfold lastFields. rewrite omap_app. simpl. apply last_snoc. Qed.

Lemma lastFields_snoc_Types ds types :
  lastFields (ds ++ [Types types]) = lastFields ds.
Proof. unfold lastFields. rewrite omap_app. simpl. by rewrite app_nil_r. Qed.

Lemma lastTypes_snoc_Types ds types :
  lastTypes (ds ++ [Types types]) = Some types.
Proof. unfold lastTypes. rewrite omap_app. simpl. apply last_snoc. Qed.

Lemma lastTypes_snoc_Fields ds fields :
  lastTypes (ds ++ [Fields fields]) = lastTypes ds.
Proof. unfold lastTypes. rewrite omap_app. simpl. by rewrite app_nil_r. Qed.

Lemma length_makeColumns (n : nat) :
  length (makeColumns (Typ := Typ) n) = n.
Proof. apply length_replicate. Qed.

Lemma parseFields_inv p ds fields :
  headerInv p ds -> headerInv (parseFields p fields) (ds ++ [Fields fields]).
Proof.
  intros [IF IT]. unfold parseFields.
  destruct (Nat.eqb_spec (length (columns p)) (length fields)) as [E|N];
    simpl.
  - destruct (zip_names (columns p) fields E) as [HN HT].
    split; simpl.
    + intros _ _. by rewrite lastFields_snoc_Fields, HN.
    + rewrite length_zip_with, E, Nat.min_id, <- E. intros Hn Ht.
      destruct (IT Hn Ht) as (types & L & T).
      exists types. rewrite lastTypes_snoc_Fields. split; [exact L|].
      by apply (typed_ColType (columns p)).
  - destruct (zip_names (makeColumns (length fields)) fields
                (length_makeColumns _)) as [HN HT].
    split; simpl; [|done].
    intros _ _. by rewrite lastFields_snoc_Fields, HN.
Qed.

Lemma parseTypes_inv p p' ds types :
  headerInv p ds -> parseTypes zeekTypeToZng p types = (None, p') ->
  headerInv p' (ds ++ [Types types]).
Proof.
  intros [IF IT]. unfold parseTypes.
  destruct (Nat.eqb_spec (length (columns p)) (length types)) as [E|N];
    simpl.
  - destruct (setTypes zeekTypeToZng (columns p) types) as [[err|] cs'] eqn:S;
      [done|].
    intros [= <-]. destruct (setTypes_ok _ _ _ E S) as [HN HT].
    assert (L : length cs' = length (columns p)).
    { by rewrite <- (length_map Name), HN, length_map. }
    split; simpl.
    + rewrite L. intros Hn Hf.
      rewrite lastFields_snoc_Types, HN. by apply IF.
    + intros _ _. exists types. by rewrite lastTypes_snoc_Types.
  - destruct (setTypes zeekTypeToZng (makeColumns (length types)) types)
      as [[err|] cs'] eqn:S; [done|].
    intros [= <-].
    destruct (setTypes_ok _ _ _ (length_makeColumns _) S) as [HN HT].
    split; simpl; [done|].
    intros _ _. exists types. by rewrite lastTypes_snoc_Types.
Qed.

Lemma directives_inv ds : forall p ds0 p',
  headerInv p ds0 -> directives zeekTypeToZng p ds = Some p' ->
  headerInv p' (ds0 ++ ds).
Proof.
  induction ds as [|[fields|types] ds IH]; intros p ds0 p' Hinv; simpl.
  - intros [= <-]. by rewrite app_nil_r.
  - intros H. rewrite (cons_middle _ ds0 ds), app_assoc.
    apply (IH _ _ _ (parseFields_inv p ds0 fields Hinv) H).
  - destruct (parseTypes zeekTypeToZng p types) as [[err|] p1] eqn:E; [done|].
    intros H. rewrite (cons_middle _ ds0 ds), app_assoc.
    apply (IH _ _ _ (parseTypes_inv p p1 ds0 types Hinv E) H).
Qed.

(** X23.  Whenever [setDescriptor] succeeds after a sequence of
    [#fields] and [#types] lines, the columns are those of the most
    recent [#fields] and the most recent [#types] line: these two lines
    have the same number of entries, which is not zero, every column has
    the name that the [#fields] line gives it and the type that
    [zeekTypeToZng] makes of its entry of the [#types] line. *)
Theorem setDescriptor_most_recent (ds : list Directive) p p'
    (Hds : directives zeekTypeToZng NewParser ds = Some p)
    (Hok : setDescriptor LookupTypeRecord TypeString p = (None, p')) :
  exists fields types,
    lastFields ds = Some fields /\ lastTypes ds = Some types
    /\ length fields = length types /\ fields <> []
    /\ map Name (columns p) = fields
    /\ typed (columns p) types.
Proof.
  assert (Hinv : headerInv p ([] ++ ds)).
  { apply (directives_inv ds NewParser [] p); [|exact Hds]. by split. }
  simpl in Hinv. destruct Hinv as [IF IT].
  unfold setDescriptor in Hok.
  destruct (Nat.eqb_spec (length (columns p)) 0) as [E|N]; [done|].
  destruct (needfields p); [done|]. destruct (needtypes p); [done|].
  destruct (IT N eq_refl) as (types & LT & T).
  exists (map Name (columns p)), types.
  split; [by apply IF|]. split; [exact LT|].
  split; [rewrite length_map; by apply Forall2_length in T|].
  split; [|done]. destruct (columns p); done.
Qed.

Lemma setTypes_valid (types : list string) : forall (typs : list Typ)
    (cs : list (Column Typ)),
  length cs = length types ->
  Forall2 (fun name typ => zeekTypeToZng name = inr typ) types typs ->
  setTypes zeekTypeToZng cs types
  = (None, zip_with NewColumn (map Name cs) typs).
Proof.
  induction types as [|name types IH]; intros typs cs L H.
  - destruct cs; [|done]. by inversion H.
  - destruct cs as [|c cs]; [done|]. inversion H as [|? typ ? typs' Hn Ht];
      subst. simpl. rewrite Hn. injection L as L.
    by rewrite (IH typs' cs L Ht).
Qed.

(** X24.  A [#fields] and a [#types] line with the same number of
    entries (not zero) and known type names, in either order, make the
    parser ready whatever it has seen before: the columns are the names
    with their types, and [Descriptor] returns the record type of the
    unflattened columns, with [_path] added when the header has a path
    and no column of that name. *)
Theorem Descriptor_ready p (fields types : list string) (typs : list Typ)
    (Hlen : length fields = length types)
    (Hne : fields <> [])
    (Htyps : Forall2 (fun name typ => zeekTypeToZng name = inr typ)
               types typs) :
  let columns' := zip_with NewColumn fields typs in
  let unflattened :=
    Unflatten LookupTypeRecord TypeString columns'
      (negb (String.eqb (Path p) "")) in
  exists p1 p2,
    parseTypes zeekTypeToZng (parseFields p fields) types = (None, p1)
    /\ parseTypes zeekTypeToZng p types = (None, p2)
    /\ columns p1 = columns'
    /\ columns (parseFields p2 fields) = columns'
    /\ (Descriptor LookupTypeRecord TypeString p1).1
       = (Some (LookupTypeRecord unflattened.1), unflattened.2)
    /\ (Descriptor LookupTypeRecord TypeString (parseFields p2 fields)).1
       = (Some (LookupTypeRecord unflattened.1), unflattened.2).
Proof.
  intros columns' unflattened.
  assert (Lt : length typs = length types).
  { symmetry. by apply Forall2_length in Htyps. }
  assert (Lc : length columns' <> 0%nat).
  { subst columns'. rewrite length_zip_with, Lt, <- Hlen, Nat.min_id.
    by destruct fields. }
  assert (D : forall q, columns q = columns' -> needfields q = false ->
            needtypes q = false -> descriptor q = None -> Path q = Path p ->
            (Descriptor LookupTypeRecord TypeString q).1
            = (Some (LookupTypeRecord unflattened.1), unflattened.2)).
  { intros q Hc Hf Ht Hd Hp. unfold Descriptor, setDescriptor.
    rewrite Hd, Hf, Ht, Hc, Hp.
    destruct (Nat.eqb_spec (length columns') 0) as [E|_]; [done|]. simpl.
    fold unflattened. by destruct unflattened. }
  (* fields, then types *)
  assert (E1 : exists cs1, columns (parseFields p fields) = cs1
            /\ length cs1 = length types /\ map Name cs1 = fields).
  { eexists. split; [reflexivity|]. unfold parseFields. simpl.
    destruct (Nat.eqb_spec (length (columns p)) (length fields)) as [E|N];
      simpl.
    - destruct (zip_names (columns p) fields E) as [HN _].
      rewrite length_zip_with, E, Nat.min_id. by split.
    - destruct (zip_names (makeColumns (length fields)) fields
                  (length_makeColumns _)) as [HN _].
      rewrite length_zip_with, length_makeColumns, Nat.min_id. by split. }
  destruct E1 as (cs1 & Ec1 & Lc1 & Nc1).
  assert (P1 : parseTypes zeekTypeToZng (parseFields p fields) types
             = (None, mkParser columns' (Path p) false false (addpath p) None)).
  { unfold parseTypes. rewrite Ec1.
    destruct (Nat.eqb_spec (length cs1) (length types)) as [_|N]; [|done].
    simpl. rewrite (setTypes_valid types typs cs1 Lc1 Htyps), Nc1.
    reflexivity. }
  (* types, then fields *)
  set (cs0 := if negb (length (columns p) =? length types)%nat
              then makeColumns (length types) else columns p).
  assert (L0 : length cs0 = length types).
  { subst cs0.
    destruct (Nat.eqb_spec (length (columns p)) (length types)); simpl;
      [done|apply length_makeColumns]. }
  set (cs2 := zip_with NewColumn (map Name cs0) typs).
  assert (L2 : length cs2 = length fields).
  { subst cs2. rewrite length_zip_with, length_map, L0, Lt, Nat.min_id.
    by symmetry. }
  assert (P2 : exists nf, parseTypes zeekTypeToZng p types
             = (None, mkParser cs2 (Path p) nf false (addpath p) None)).
  { unfold parseTypes. fold cs0.
    rewrite (setTypes_valid types typs cs0 L0 Htyps). by eexists. }
  destruct P2 as (nf & P2).
  assert (C2 : columns (parseFields
                 (mkParser cs2 (Path p) nf false (addpath p) None) fields)
               = columns').
  { unfold parseFields. simpl.
    destruct (Nat.eqb_spec (length cs2) (length fields)) as [_|N]; [|done].
    simpl. subst cs2 columns'. clear -Lt Hlen L0.
    assert (L : length (map Name cs0) = length typs).
    { by rewrite length_map, L0. }
    revert L Lt Hlen. generalize (map Name cs0) as names.
    clear. revert typs types.
    induction fields as [|f fields IH]; intros typs types names L Lt Hlen.
    - by destruct (zip_with NewColumn names typs).
    - destruct types as [|t types]; [done|].
      destruct typs as [|typ typs]; [done|].
      destruct names as [|n names]; [done|]. simpl.
      f_equal. apply (IH typs types names); simpl in *; lia. }
  eexists _, _. split; [exact P1|]. split; [exact P2|].
  split; [reflexivity|]. split; [exact C2|]. split.
  - by apply D.
  - apply D; try done.
    unfold parseFields. simpl.
    by destruct (Nat.eqb_spec (length cs2) (length fields)).
Qed.

End Parser.

(** The header of a [conn] log, with a path. *)
Lemma Unflatten_flatten_witness :
  (forall cs, exampleColumns (Rec cs) = Some cs)
  /\ Forall (fun col => ColType col ≫= exampleColumns = None) exampleHeader
  /\ exampleColumns (Prim "string") = None
  /\ (Unflatten Rec (Prim "string") exampleHeader true).1
     = [NewColumn "_path" (Prim "string");
        NewColumn "ts" (Prim "time");
        NewColumn "id" (Rec [NewColumn "orig_h" (Prim "addr");
                             NewColumn "orig_p" (Prim "port")]);
        NewColumn "uid" (Prim "string")]%string
  /\ flatten exampleColumns (Unflatten Rec (Prim "string") exampleHeader true).1
     = [NewColumn "_path" (Prim "string")] ++ exampleHeader.
Proof.
  assert (H1 : forall cs, exampleColumns (Rec cs) = Some cs) by reflexivity.
  assert (H2 : Forall (fun col => ColType col ≫= exampleColumns = None)
                 exampleHeader).
  { repeat constructor. }
  assert (H3 : exampleColumns (Prim "string") = None) by reflexivity.
  split; [exact H1|]. split; [exact H2|]. split; [exact H3|].
  split; [reflexivity|].
  exact (proj2 (Unflatten_flatten Rec (Prim "string") exampleColumns H1
                  exampleHeader true H2 H3)).
Defined.

(** The two header lines of a log with the columns [ts] and [uid]. *)
Lemma setDescriptor_most_recent_witness :
  directives exampleTypeToZng NewParser
    [Fields ["ts"; "uid"]; Types ["time"; "string"]]%string
  = Some (mkParser [NewColumn "ts" (Prim "time");
                    NewColumn "uid" (Prim "string")]%string
            "" false false false None)
  /\ (setDescriptor Rec (Prim "string")
        (mkParser [NewColumn "ts" (Prim "time");
                   NewColumn "uid" (Prim "string")]%string
           "" false false false None)).1 = None
  /\ exists fields types,
       lastFields [Fields ["ts"; "uid"]; Types ["time"; "string"]]%string
       = Some fields
       /\ lastTypes [Fields ["ts"; "uid"]; Types ["time"; "string"]]%string
          = Some types
       /\ length fields = length types /\ fields <> []
       /\ map Name [NewColumn "ts" (Prim "time");
                    NewColumn "uid" (Prim "string")]%string = fields
       /\ typed exampleTypeToZng
            [NewColumn "ts" (Prim "time");
             NewColumn "uid" (Prim "string")]%string types.
Proof.
  assert (H1 : directives exampleTypeToZng NewParser
                 [Fields ["ts"; "uid"]; Types ["time"; "string"]]%string
               = Some (mkParser [NewColumn "ts" (Prim "time");
                                 NewColumn "uid" (Prim "string")]%string
                         "" false false false None))
    by (vm_compute; reflexivity).
  split; [exact H1|]. split; [reflexivity|].
  exact (setDescriptor_most_recent Rec (Prim "string") exampleTypeToZng
           _ _ _ H1 eq_refl).
Defined.

Lemma Descriptor_ready_witness :
  length ["ts"; "uid"]%string = length ["time"; "string"]%string
  /\ ["ts"; "uid"]%string <> []
  /\ Forall2 (fun name typ => exampleTypeToZng name = inr typ)
       ["time"; "string"]%string [Prim "time"; Prim "string"]
  /\ exists p1 p2,
       parseTypes exampleTypeToZng (parseFields NewParser ["ts"; "uid"]%string)
         ["time"; "string"]%string = (None, p1)
       /\ parseTypes exampleTypeToZng NewParser ["time"; "string"]%string
          = (None, p2)
       /\ columns p1 = [NewColumn "ts" (Prim "time");
                        NewColumn "uid" (Prim "string")]%string
       /\ columns (parseFields p2 ["ts"; "uid"]%string)
          = [NewColumn "ts" (Prim "time");
             NewColumn "uid" (Prim "string")]%string
       /\ (Descriptor Rec (Prim "string") p1).1
          = (Some (Rec [NewColumn "ts" (Prim "time");
                        NewColumn "uid" (Prim "string")]%string), false)
       /\ (Descriptor Rec (Prim "string")
             (parseFields p2 ["ts"; "uid"]%string)).1
          = (Some (Rec [NewColumn "ts" (Prim "time");
                        NewColumn "uid" (Prim "string")]%string), false).
Proof.
  assert (H1 : length ["ts"; "uid"]%string = length ["time"; "string"]%string)
    by reflexivity.
  assert (H2 : ["ts"; "uid"]%string <> []) by discriminate.
  assert (H3 : Forall2 (fun name typ => exampleTypeToZng name = inr typ)
                 ["time"; "string"]%string [Prim "time"; Prim "string"]).
  { repeat constructor. }
  exact (conj H1 (conj H2 (conj H3
    (Descriptor_ready Rec (Prim "string") exampleTypeToZng NewParser
       ["ts"; "uid"]%string ["time"; "string"]%string
       [Prim "time"; Prim "string"] H1 H2 H3)))).
Defined.

End ZeekioFacts.
